(** * p-saturation of Mordell-Weil groups: a shallow embedding of
      [sage/schemes/elliptic_curves/saturation.py]

    The three functions of the module, [p_projections], [p_saturation] and
    [full_p_saturation], are transcribed below.  Curve arithmetic, finite
    field arithmetic, linear algebra over [F_p] and the stream of auxiliary
    primes are library services of Sage; they are interfaces here (type
    classes), instantiated further down by small concrete groups on which
    the functions can be run. *)

From Stdlib Require Import ZArith Lia List.
From stdpp Require Import gmap list.

(** ** Python outcomes *)

(** The exceptions the module can meet. *)
Inductive exn : Type :=
  | AssertionError
  | ValueError
  | IndexError
  | StopIteration.

(** A computation either returns or raises. *)
Inductive res (A : Type) : Type :=
  | Ok (a : A)
  | Raise (e : exn).
Arguments Ok {A} a.
Arguments Raise {A} e.

#[global] Instance res_bind : MBind res := fun A B k r =>
  match r with
  | Ok a => k a
  | Raise e => Raise e
  end.

(** A list comprehension whose body may raise: elements are evaluated from
    left to right and the first exception wins. *)
Fixpoint res_map {A B} (f : A -> res B) (l : list A) : res (list B) :=
  match l with
  | [] => Ok []
  | x :: l' =>
      y ← f x;
      ys ← res_map f l';
      Ok (y :: ys)
  end.

(** [l[i]] on a Python list: a negative index counts from the end, an index
    out of range raises [IndexError]. *)
Definition py_getitem {A} (l : list A) (i : Z) : res A :=
  let j := if (i <? 0)%Z then (Z.of_nat (length l) + i)%Z else i in
  if (j <? 0)%Z then Raise IndexError
  else match l !! Z.to_nat j with
       | Some x => Ok x
       | None => Raise IndexError
       end.

(** [l[i] = x] on a Python list, in place. *)
Definition py_setitem {A} (l : list A) (i : Z) (x : A) : res (list A) :=
  let j := if (i <? 0)%Z then (Z.of_nat (length l) + i)%Z else i in
  if (j <? 0)%Z then Raise IndexError
  else if (Z.to_nat j <? length l)%nat then Ok (<[Z.to_nat j := x]> l)
       else Raise IndexError.

(** [w.index(x)] on a tuple of integers: the first position holding [x],
    [ValueError] when there is none. *)
Fixpoint tuple_index (w : list Z) (x : Z) : res nat :=
  match w with
  | [] => Raise ValueError
  | y :: w' =>
      if (y =? x)%Z then Ok 0%nat
      else i ← tuple_index w' x; Ok (S i)
  end.

(** [q.divides(x)] on Sage integers. *)
Definition divides (q x : Z) : bool := (x mod q =? 0)%Z.

(** ** The curve over the number field *)

(** Services of the elliptic curve [E = Plist[0].curve()] and of its points
    that the module calls into. *)
Class CurveOps (Point : Type) : Type := {
  E0 : Point;                                  (* E(0) *)
  add : Point -> Point -> Point;               (* P + Q *)
  smul : Z -> Point -> Point;                  (* int(k) * P *)
  division_points : Point -> Z -> list Point;  (* P.division_points(p) *)
  torsion_gens : list Point;   (* [T.element() for T in E.torsion_subgroup().gens()] *)
  order : Point -> Z;                          (* T.order() *)
}.

(** The linear-combination cache [lin_combs]: a dict from coefficient tuples
    to points. *)
Abbreviation cache Point := (gmap (list Z) Point).

(** What [p_saturation] returns: [(True, lin_combs)], where [lin_combs] is
    the dict object that was passed in, or [(False, i, newP)]. *)
Inductive verdict (Point : Type) : Type :=
  | Saturated
  | NotSaturated (i : nat) (newP : Point).
Arguments Saturated {Point}.
Arguments NotSaturated {Point} i newP.

Section Exhaustive.
Context {Point : Type} `{CurveOps Point}.

(** Modelled from the spec: [sage.groups.generic.multiples(P, n)], library
    code outside this module, yields [0, P, 2P, ..., (n-1)P], each value
    obtained from the previous one by adding [P]. *)
Fixpoint multiples_from (P Q : Point) (n : nat) : list Point :=
  match n with
  | O => []
  | S n' => Q :: multiples_from P (add Q P) n'
  end.

Definition multiples (P : Point) (n : Z) : list Point :=
  multiples_from P E0 (Z.to_nat n).

(** [sum(l, E0)] *)
Definition py_sum (l : list Point) (start : Point) : Point :=
  fold_left add l start.

(** [Plist[:-1]] and [Plist[-1]] *)
Definition all_but_last (Plist : list Point) : list Point :=
  take (length Plist - 1) Plist.

(** [mults = [list(multiples(P, p)) for P in Plist[:-1]]
            + [list(multiples(Plist[-1], 2))]] *)
Definition mults_tables (Plist : list Point) (p : Z) : res (list (list Point)) :=
  Plast ← py_getitem Plist (-1);
  Ok (map (fun P => multiples P p) (all_but_last Plist) ++ [multiples Plast 2]).

(** [sum([m[c] for m, c in zip(mults, w)], E0)] *)
Definition table_sum (mults : list (list Point)) (w : list Z) : res Point :=
  terms ← res_map (fun mc => py_getitem (fst mc) (snd mc)) (zip mults w);
  Ok (py_sum terms E0).

(** The body of the loop [for v in ProjectiveSpace(GF(p), n-1)], run on the
    tuples still to be visited.  The second component is the content of the
    dict [lin_combs] when the loop is left. *)
Fixpoint exhaustive_loop (mults : list (list Point)) (p : Z)
    (tuples : list (list Z)) (lin_combs : cache Point)
  : res (verdict Point) * cache Point :=
  match tuples with
  | [] => (Ok Saturated, lin_combs)
  | w :: rest =>
      let looked_up :=
        match lin_combs !! w with
        | Some P => (Ok P, lin_combs)
        | None =>
            match table_sum mults w with
            | Ok P => (Ok P, <[w := P]> lin_combs)
            | Raise e => (Raise e, lin_combs)
            end
        end in
      match looked_up with
      | (Raise e, c) => (Raise e, c)
      | (Ok P, c) =>
          match division_points P p with
          | [] => exhaustive_loop mults p rest c
          | D :: _ =>
              (i ← tuple_index w 1; Ok (NotSaturated i D), c)
          end
      end
  end.
End Exhaustive.

(** Modelled from the spec: iteration over [ProjectiveSpace(GF(p), dim)],
    Sage's projective space over a finite field, library code outside this
    module.  Every point is listed once, normalised so that its last nonzero
    coordinate is 1: for [k = 0, ..., dim] the tuples [v + (1,) + (0,)*k]
    with [v] running over [GF(p)^(dim-k)] in lexicographic order.  This is
    what lets the module keep only the multiples 0 and 1 of the last point
    and rely on every tuple having a coordinate equal to 1. *)
Definition GF_elements (p : Z) : list Z :=
  map Z.of_nat (seq 0 (Z.to_nat p)).

Fixpoint cartesian_power (p : Z) (m : nat) : list (list Z) :=
  match m with
  | O => [[]]
  | S m' =>
      flat_map (fun x => map (cons x) (cartesian_power p m')) (GF_elements p)
  end.

Definition ProjectiveSpace (p : Z) (dim : nat) : list (list Z) :=
  flat_map
    (fun k => map (fun v => v ++ 1%Z :: replicate k 0%Z)
                  (cartesian_power p (dim - k)))
    (seq 0 (S dim)).

Section PSaturationNoSieve.
Context {Point : Type} `{CurveOps Point}.

(** Lines 270-278 of [p_saturation]: the two cases settled before any
    strategy is chosen.  [None] when neither applies. *)
Definition p_saturation_head (Plist : list Point) (p : Z)
  : option (res (verdict Point)) :=
  let n := length Plist in
  if (n =? 0)%nat then Some (Ok Saturated)
  else if ((n =? 1)%nat && (p =? 2)%Z)%bool then
    match (P0 ← py_getitem Plist 0;
           py_getitem (division_points P0 p) 0) with
    | Ok D => Some (Ok (NotSaturated 0 D))
    | Raise IndexError => Some (Ok Saturated)
    | Raise e => Some (Raise e)
    end
  else None.

(** Lines 282-304: the branch [if not sieve]. *)
Definition exhaustive_search (Plist : list Point) (p : Z)
    (lin_combs : cache Point) : res (verdict Point) * cache Point :=
  match mults_tables Plist p with
  | Raise e => (Raise e, lin_combs)
  | Ok mults =>
      exhaustive_loop mults p (ProjectiveSpace p (length Plist - 1)) lin_combs
  end.

(** [p_saturation(Plist, p, sieve=False, lin_combs)].  The pair is the value
    returned (or the exception raised) and the content of the dict
    [lin_combs] afterwards. *)
Definition p_saturation_nosieve (Plist : list Point) (p : Z)
    (lin_combs : cache Point) : res (verdict Point) * cache Point :=
  match p_saturation_head Plist p with
  | Some r => (r, lin_combs)
  | None => exhaustive_search Plist p lin_combs
  end.
End PSaturationNoSieve.

(** ** Reduction modulo an auxiliary prime: [p_projections] *)

(** Services of the finite abelian group [G = Ek.abelian_group()], of the
    points of the reduced curve and of the finite field. *)
Class ReductionOps (Grp FPoint Fq : Type) : Type := {
  G_order : Grp -> Z;                          (* G.order() *)
  G_gens : Grp -> list FPoint;                 (* [g.element() for g in G.gens()] *)
  fsmul : Z -> FPoint -> FPoint;               (* m * pt *)
  fnonzero : FPoint -> bool;                   (* truth value of a point *)
  forder : FPoint -> Z;                        (* g.order() *)
  dlog_add : FPoint -> FPoint -> Z -> res Z;   (* dlog(pt, g, ord, operation='+') *)
  weil_pairing : FPoint -> FPoint -> Z -> res Fq;   (* P.weil_pairing(Q, n) *)
  multiplicative_order : Fq -> Z;              (* zeta.multiplicative_order() *)
  dlog_mul : Fq -> Fq -> Z -> res Z;           (* dlog(x, zeta, ord, operation='*') *)
}.

(** Modelled from the spec: [n.prime_to_m_part(p)] of Sage's integers, for a
    positive [n] and a prime [p]: [n] divided by its [p]-primary part. *)
Fixpoint strip_factor (fuel : nat) (n p : Z) : Z :=
  match fuel with
  | O => n
  | S fuel' => if divides p n then strip_factor fuel' (n / p) p else n
  end.

Definition prime_to_m_part (n p : Z) : Z := strip_factor (Z.to_nat n) n p.

(** [vector(GF(p), v)]: the entries are reduced modulo [p]. *)
Definition vector_mod (p : Z) (v : list Z) : list Z := map (fun x => x mod p)%Z v.

(** [min(l)] and [max(l)]: [ValueError] on an empty list. *)
Definition py_min (l : list Z) : res Z :=
  match l with
  | [] => Raise ValueError
  | x :: l' => Ok (fold_left Z.min l' x)
  end.

Definition py_max (l : list Z) : res Z :=
  match l with
  | [] => Raise ValueError
  | x :: l' => Ok (fold_left Z.max l' x)
  end.

Section Projections.
Context {Grp FPoint Fq : Type} `{ReductionOps Grp FPoint Fq}.

(** [p_projections(G, Plist, p, debug)].  [debug] only switches printing
    on. *)
Definition p_projections (G : Grp) (Plist : list FPoint) (p : Z)
    (debug : bool) : res (list (list Z)) :=
  let n := G_order G in
  let m := prime_to_m_part n p in
  if (m =? n)%Z then Ok []
  else
    let pts := map (fsmul m) Plist in
    let gens := List.filter fnonzero (map (fsmul m) (G_gens G)) in
    if (length gens =? 1)%nat then
      g ← py_getitem gens 0;
      let pp := forder g in
      v ← res_map (fun pt => dlog_add pt g pp) pts;
      Ok [vector_mod p v]
    else
      let orders := map forder gens in
      p1 ← py_min orders;
      p2 ← py_max orders;
      match gens with
      | [g1; g2] =>
          zeta ← weil_pairing g1 g2 p2;
          if negb (multiplicative_order zeta =? p1)%Z then Raise AssertionError
          else
            v1 ← res_map (fun pt => e ← weil_pairing pt g1 p2;
                                    dlog_mul e zeta p1) pts;
            v2 ← res_map (fun pt => e ← weil_pairing pt g2 p2;
                                    dlog_mul e zeta p1) pts;
            Ok [vector_mod p v1; vector_mod p v2]
      | _ => Raise ValueError   (* g1, g2 = gens *)
      end.

(** Lines 350-356, the [try ... except ValueError] around the call, together
    with the [debug] flags of the calls to [p_projections] made, in order. *)
Definition projections_with_retry (G : Grp) (projPlist : list FPoint) (p : Z)
  : res (list (list Z)) * list bool :=
  match p_projections G projPlist p false with
  | Raise ValueError =>
      match p_projections G projPlist p true with
      | Raise ValueError => (Ok [], [false; true])
      | r => (r, [false; true])
      end
  | r => (r, [false])
  end.
End Projections.

(** ** The sieve *)

(** Linear algebra over [GF(p)] on matrices given by their rows, entries being
    the canonical representatives in [0, p). *)
Class LinAlgOps : Type := {
  mat_rank : Z -> list (list Z) -> nat;                          (* A.rank() *)
  right_kernel_basis : Z -> nat -> list (list Z) -> list (list Z);
                                        (* A.right_kernel().basis(), n columns *)
}.

(** Number field, auxiliary primes and reduction of the curve. *)
Class SieveOps (Point Grp FPoint : Type) : Type := {
  nth_prime : nat -> Z;                     (* the stream Primes() *)
  Ediscnorm : Z;                            (* E.discriminant().norm() *)
  Kdisc : Z;                                (* Kpol.discriminant() *)
  denominator_norm : Point -> Z;            (* P[0].denominator_ideal().norm() *)
  Kpol_roots : Z -> list Z;                 (* Kpol.roots(GF(q), multiplicities=False) *)
  Ek_cardinality : Z -> Z -> Z;             (* Ek.cardinality() at (q, amodq) *)
  Ek_point : Z -> Z -> Point -> FPoint;     (* Ek([modq(c) for c in pt]) *)
  Ek_abelian_group : Z -> Z -> Grp;         (* Ek.abelian_group() *)
}.

(** Outcome of one pass through a loop body that may [return]. *)
Inductive loop_step (S R : Type) : Type :=
  | Continue (s : S)
  | Return (r : R).
Arguments Continue {S R} s.
Arguments Return {S R} r.

(** [next(i for i, x in enumerate(v) if x)] *)
Fixpoint first_nonzero (v : list Z) : res nat :=
  match v with
  | [] => Raise StopIteration
  | x :: v' =>
      if (x =? 0)%Z then i ← first_nonzero v'; Ok (S i) else Ok 0%nat
  end.

(** The local variables [A], [rankA] and [count] of the sieve. *)
Record sieve_state : Type := SieveState {
  sv_A : list (list Z);
  sv_rankA : nat;
  sv_count : nat;
}.

Section Sieve.
Context {Point Grp FPoint Fq : Type}
        `{CurveOps Point} `{ReductionOps Grp FPoint Fq}
        `{SieveOps Point Grp FPoint} `{LinAlgOps}.

(** [[sum([int(vi)*Pi for vi,Pi in zip(v,Plist)],E(0)) for v in vecs]] *)
Definition kernel_points (vecs : list (list Z)) (Plist : list Point) : list Point :=
  map (fun v => py_sum (map (fun vP => smul (fst vP) (snd vP)) (zip v Plist)) E0)
      vecs.

(** Lines 373-394: the kernel of [A] is handed to the version without
    sieve, with a new dict, and the answer is mapped back to [Plist]. *)
Definition kernel_check (Plist : list Point) (p : Z) (A : list (list Z))
  : res (verdict Point) :=
  let vecs := right_kernel_basis p (length Plist) A in
  let Rlist := kernel_points vecs Plist in
  match fst (p_saturation_nosieve Rlist p ∅) with
  | Raise e => Raise e
  | Ok Saturated => Ok Saturated
  | Ok (NotSaturated k D) =>
      v ← py_getitem vecs (Z.of_nat k);
      j ← first_nonzero v;
      Ok (NotSaturated j D)
  end.

(** Lines 337-399: the body of [for amodq in Kpol.roots(Fq, ...)]. *)
Definition sieve_body (Plist : list Point) (p q amodq : Z) (st : sieve_state)
  : loop_step sieve_state (res (verdict Point)) :=
  if negb (divides p (Ek_cardinality q amodq)) then Continue st
  else
    let projPlist := map (Ek_point q amodq) Plist in
    let G := Ek_abelian_group q amodq in
    match fst (projections_with_retry G projPlist p) with
    | Raise e => Return (Raise e)
    | Ok vecs =>
        let A := sv_A st ++ vecs in
        let newrank := mat_rank p A in
        if (newrank =? length Plist)%nat then Return (Ok Saturated)
        else if (newrank =? sv_rankA st)%nat then
          let count := S (sv_count st) in
          if (count =? 10)%nat then Return (kernel_check Plist p A)
          else Continue (SieveState A (sv_rankA st) count)
        else Continue (SieveState A newrank 0)
    end.

Fixpoint sieve_roots (Plist : list Point) (p q : Z) (roots : list Z)
    (st : sieve_state) : loop_step sieve_state (res (verdict Point)) :=
  match roots with
  | [] => Continue st
  | amodq :: roots' =>
      match sieve_body Plist p q amodq st with
      | Continue st' => sieve_roots Plist p q roots' st'
      | Return r => Return r
      end
  end.

(** Line 327: the primes that are passed over. *)
Definition bad_prime (Plist : list Point) (q : Z) : bool :=
  divides q Ediscnorm || divides q Kdisc
  || existsb (fun pr => divides q pr) (map denominator_norm Plist).

(** Lines 326-399: [for q in Primes()], from the [i]-th prime on.  The
    stream of primes has no end, so the loop is left by a [return] or an
    exception only, and the lines after it (408-416) are never reached;
    [None] means that [fuel] primes did not suffice. *)
Fixpoint sieve_primes (fuel : nat) (Plist : list Point) (p : Z) (i : nat)
    (st : sieve_state) : option (res (verdict Point)) :=
  match fuel with
  | O => None
  | S fuel' =>
      let q := nth_prime i in
      if bad_prime Plist q then sieve_primes fuel' Plist p (S i) st
      else
        match sieve_roots Plist p q (Kpol_roots q) st with
        | Return r => Some r
        | Continue st' => sieve_primes fuel' Plist p (S i) st'
        end
  end.

(** Lines 310-399: the sieve, started with [A] the [0 x n] matrix. *)
Definition sieve_search (fuel : nat) (Plist : list Point) (p : Z)
  : option (res (verdict Point)) :=
  sieve_primes fuel Plist p 0 (SieveState [] 0 0).

(** [p_saturation(Plist, p, sieve, lin_combs)].  The sieve neither reads nor
    writes [lin_combs]; its two recursive calls are made with
    [sieve=False] and a new dict, hence are [p_saturation_nosieve]. *)
Definition p_saturation (fuel : nat) (Plist : list Point) (p : Z)
    (sieve : bool) (lin_combs : cache Point)
  : option (res (verdict Point) * cache Point) :=
  match p_saturation_head Plist p with
  | Some r => Some (r, lin_combs)
  | None =>
      if negb sieve then Some (exhaustive_search Plist p lin_combs)
      else r ← sieve_search fuel Plist p; Some (r, lin_combs)
  end.
End Sieve.

(** ** Python objects: lists and dicts in a store *)

(** Lists and dicts are mutable objects, known by their references.  A store
    holds the content of each; a new object gets the next free reference. *)
Record heap (Point : Type) : Type := Heap {
  h_lists : list (list Point);
  h_dicts : list (cache Point);
}.
Arguments Heap {Point} h_lists h_dicts.
Arguments h_lists {Point} h.
Arguments h_dicts {Point} h.

Definition alloc_list {Point} (h : heap Point) (l : list Point) : nat * heap Point :=
  (length (h_lists h), Heap (h_lists h ++ [l]) (h_dicts h)).

Definition alloc_dict {Point} (h : heap Point) (c : cache Point) : nat * heap Point :=
  (length (h_dicts h), Heap (h_lists h) (h_dicts h ++ [c])).

Definition store_list {Point} (h : heap Point) (r : nat) (l : list Point) : heap Point :=
  Heap (<[r := l]> (h_lists h)) (h_dicts h).

Definition store_dict {Point} (h : heap Point) (r : nat) (c : cache Point) : heap Point :=
  Heap (h_lists h) (<[r := c]> (h_dicts h)).

(** The default value [lin_combs = dict()] of a parameter is evaluated once,
    when the [def] statement is executed: importing the module creates one
    dict for [p_saturation] and one for [full_p_saturation]. *)
Definition default_lin_combs_p_saturation : nat := 0.
Definition default_lin_combs_full_p_saturation : nat := 1.

Definition module_heap {Point} : heap Point := Heap [] [∅; ∅].

(** The store once the module is imported and the caller has built the lists
    [lists] (objects 0, 1, ...) and, besides the two default dicts, the dicts
    [dicts] (objects 2, 3, ...). *)
Definition caller_heap {Point} (lists : list (list Point))
    (dicts : list (cache Point)) : heap Point :=
  Heap (h_lists module_heap ++ lists) (h_dicts module_heap ++ dicts).

(** One call of [p_saturation] as [full_p_saturation] sees it: the list
    passed, the dict passed and what that dict held. *)
Record invocation (Point : Type) : Type := Invocation {
  inv_Plist : list Point;
  inv_dict : nat;
  inv_cache : cache Point;
}.
Arguments Invocation {Point} inv_Plist inv_dict inv_cache.
Arguments inv_Plist {Point} i.
Arguments inv_dict {Point} i.
Arguments inv_cache {Point} i.

Section FullSaturation.
Context {Point Grp FPoint Fq : Type}
        `{CurveOps Point} `{ReductionOps Grp FPoint Fq}
        `{SieveOps Point Grp FPoint} `{LinAlgOps}.

(** [p_saturation] called on references.  It reads the list, and reads and
    writes the dict, through the references it is given.  [None]: [fuel] did
    not suffice, or a reference is not in the store. *)
Definition p_saturation_ref (fuel : nat) (h : heap Point) (Plist : nat) (p : Z)
    (sieve : bool) (lin_combs : nat)
  : option (res (verdict Point) * heap Point) :=
  l ← h_lists h !! Plist;
  c ← h_dicts h !! lin_combs;
  rc ← p_saturation fuel l p sieve c;
  Some (fst rc, store_dict h lin_combs (snd rc)).

(** [p_saturation(Plist, p, sieve)] with [lin_combs] left to its default. *)
Definition p_saturation_default (fuel : nat) (h : heap Point) (Plist : nat)
    (p : Z) (sieve : bool) : option (res (verdict Point) * heap Point) :=
  p_saturation_ref fuel h Plist p sieve default_lin_combs_p_saturation.

(** Lines 488-496: [for T in Tgens], with the local variables [Plist] and
    [nx]. *)
Fixpoint add_torsion (h : heap Point) (Plist : nat) (nx : nat) (p : Z)
    (Tgens : list Point) : option (heap Point * nat * nat) :=
  match Tgens with
  | [] => Some (h, Plist, nx)
  | T :: Tgens' =>
      if divides p (order T) then
        l ← h_lists h !! Plist;
        let '(Plist', h') := alloc_list h (l ++ [T]) in   (* Plist = Plist + [T] *)
        add_torsion h' Plist' (S nx) p Tgens'
      else add_torsion h Plist nx p Tgens'
  end.

(** Lines 504-508: the first call of [p_saturation] and the [while] loop.
    Every round calls [p_saturation] once; [calls] collects the calls. *)
Fixpoint saturation_loop (fuel : nat) (h : heap Point) (Plist : nat) (p : Z)
    (lin_combs : nat) (exponent : nat) (calls : list (invocation Point))
  : option (res nat * heap Point * list (invocation Point)) :=
  match fuel with
  | O => None
  | S fuel' =>
      l ← h_lists h !! Plist;
      c ← h_dicts h !! lin_combs;
      let calls' := calls ++ [Invocation l lin_combs c] in
      rh ← p_saturation_ref fuel' h Plist p true lin_combs;
      match rh with
      | (Raise e, h') => Some (Raise e, h', calls')
      | (Ok Saturated, h') => Some (Ok exponent, h', calls')
      | (Ok (NotSaturated i newP), h') =>
          l' ← h_lists h' !! Plist;
          match py_setitem l' (Z.of_nat i) newP with   (* Plist[res[1]] = res[2] *)
          | Raise e => Some (Raise e, h', calls')
          | Ok l'' =>
              saturation_loop fuel' (store_list h' Plist l'') Plist p lin_combs
                              (S exponent) calls'
          end
      end
  end.

(** [full_p_saturation(Plist, p, lin_combs)].  The value returned is the
    pair of the reference of the list handed back and the exponent; with it
    come the store afterwards and the calls of [p_saturation] made. *)
Definition full_p_saturation (fuel : nat) (h : heap Point) (Plist : nat)
    (p : Z) (lin_combs : nat)
  : option (res (nat * nat) * heap Point * list (invocation Point)) :=
  l ← h_lists h !! Plist;
  if (length l =? 0)%nat then Some (Ok (Plist, 0%nat), h, [])
  else
    let n := length l in
    '(h1, Plist1, nx) ← add_torsion h Plist n p torsion_gens;
    let extra_torsion := (nx - n)%nat in
    let '(lin_combs1, h2) :=
      if (extra_torsion =? 0)%nat then (lin_combs, h1)
      else alloc_dict h1 ∅ in                           (* lin_combs = dict() *)
    out ← saturation_loop fuel h2 Plist1 p lin_combs1 0 [];
    match out with
    | (Raise e, h3, calls) => Some (Raise e, h3, calls)
    | (Ok exponent, h3, calls) =>
        if (extra_torsion =? 0)%nat then Some (Ok (Plist1, exponent), h3, calls)
        else
          l3 ← h_lists h3 !! Plist1;
          let '(Plist2, h4) := alloc_list h3 (take n l3) in   (* Plist = Plist[:n] *)
          Some (Ok (Plist2, exponent), h4, calls)
    end.

(** [full_p_saturation(Plist, p)] with [lin_combs] left to its default. *)
Definition full_p_saturation_default (fuel : nat) (h : heap Point) (Plist : nat)
    (p : Z) : option (res (nat * nat) * heap Point * list (invocation Point)) :=
  full_p_saturation fuel h Plist p default_lin_combs_full_p_saturation.
End FullSaturation.

(** ** Concrete services *)

(** Linear algebra over [GF(p)] by Gaussian elimination.  The echelon basis is
    a list of rows, each with the column of its leading 1. *)
Module Gauss.
Definition mod_inv (p a : Z) : Z :=
  default 0%Z (List.find (fun k => (a * k) mod p =? 1)%Z (GF_elements p)).

Definition entry (r : list Z) (c : nat) : Z := default 0%Z (r !! c).

(** [r - k*b] *)
Definition row_sub_mul (p : Z) (r b : list Z) (k : Z) : list Z :=
  zip_with (fun x y => (x - k * y) mod p)%Z r b.

Fixpoint leading (r : list Z) : option nat :=
  match r with
  | [] => None
  | x :: r' => if (x =? 0)%Z then S <$> leading r' else Some 0%nat
  end.

Definition reduce_by (p : Z) (basis : list (nat * list Z)) (r : list Z) : list Z :=
  fold_left (fun r cb => row_sub_mul p r (snd cb) (entry r (fst cb))) basis r.

Definition add_row (p : Z) (basis : list (nat * list Z)) (r : list Z)
  : list (nat * list Z) :=
  let r' := reduce_by p basis (vector_mod p r) in
  match leading r' with
  | None => basis
  | Some c =>
      let k := mod_inv p (entry r' c) in
      let b := map (fun x => (x * k) mod p)%Z r' in
      map (fun cb => (fst cb, row_sub_mul p (snd cb) b (entry (snd cb) c))) basis
        ++ [(c, b)]
  end.

Definition echelon (p : Z) (A : list (list Z)) : list (nat * list Z) :=
  fold_left (add_row p) A [].

Definition rank (p : Z) (A : list (list Z)) : nat := length (echelon p A).

Definition kernel_vector (p : Z) (n : nat) (E : list (nat * list Z)) (f : nat)
  : list Z :=
  map (fun j =>
         if (j =? f)%nat then 1%Z
         else match List.find (fun cb => (fst cb =? j)%nat) E with
              | Some cb => (- entry (snd cb) f) mod p
              | None => 0
              end)%Z
      (seq 0 n).

(** A basis of the right kernel: one vector for each column without a
    leading entry, with a 1 in that column.  Sage lists an echelonised
    basis, which spans the same space. *)
Definition kernel (p : Z) (n : nat) (A : list (list Z)) : list (list Z) :=
  let E := echelon p A in
  map (kernel_vector p n E)
      (List.filter (fun f => negb (existsb (fun cb => (fst cb =? f)%nat) E)) (seq 0 n)).

Definition ops : LinAlgOps :=
  {| mat_rank := rank; right_kernel_basis := kernel |}.

(** A basis in reduced echelon form: its rows have length [n], the columns of
    their leading entries are distinct, and each row has a 1 in its own
    column and a 0 in the columns of the others. *)
Definition reduced (n : nat) (basis : list (nat * list Z)) : Prop :=
  NoDup (map fst basis)
  /\ Forall (fun cb => (cb.1 < n)%nat /\ length cb.2 = n) basis
  /\ forall cb cb', In cb basis -> In cb' basis ->
       entry cb'.2 cb.1 = if decide (cb.1 = cb'.1) then 1%Z else 0%Z.
End Gauss.

(** The primes, by trial division. *)
Module Primes.
Definition is_prime (n : Z) : bool :=
  (1 <? n)%Z
  && forallb (fun d => negb (n mod d =? 0)%Z)
             (map Z.of_nat (seq 2 (Z.to_nat n - 2))).

Fixpoint next_prime (fuel : nat) (k : Z) : Z :=
  match fuel with
  | O => k
  | S fuel' => if is_prime k then k else next_prime fuel' (k + 1)%Z
  end.

Fixpoint nth (i : nat) : Z :=
  match i with
  | O => 2%Z
  | S i' => let q := nth i' in next_prime (Z.to_nat q) (q + 1)%Z
  end.
End Primes.

(** A Mordell-Weil group [Z x Z/t] (the free group [Z x Z] when [t = 0]) and
    a family of reductions of it.  Points are pairs [(x, y)]. *)
Module Lattice.
Definition point : Type := (Z * Z)%type.

Definition plus (t : Z) (P Q : point) : point :=
  (P.1 + Q.1, (P.2 + Q.2) mod t)%Z.

Definition times (t : Z) (k : Z) (P : point) : point :=
  (k * P.1, (k * P.2) mod t)%Z.

(** All [D] with [p*D = P]. *)
Definition division (t : Z) (P : point) (p : Z) : list point :=
  let xs := if divides p P.1 then [P.1 / p]%Z else [] in
  let ys :=
    if (t =? 0)%Z then (if divides p P.2 then [P.2 / p]%Z else [])
    else List.filter (fun y => (p * y) mod t =? P.2)%Z (GF_elements t) in
  flat_map (fun x => map (fun y => (x, y)) ys) xs.

Definition torsion (t : Z) : list point :=
  if (t <=? 1)%Z then [] else [(0, 1)%Z].

(** Order of a torsion point ([0] stands for an infinite order). *)
Definition ord (t : Z) (P : point) : Z :=
  if (P.1 =? 0)%Z then
    (if (t =? 0)%Z then (if (P.2 =? 0)%Z then 1 else 0) else t / Z.gcd t P.2)%Z
  else 0%Z.

Definition curve (t : Z) : CurveOps point :=
  {| E0 := (0, 0)%Z; add := plus t; smul := times t;
     division_points := division t; torsion_gens := torsion t; order := ord t |}.

(** The reductions are groups [Z/a x Z/b] with [b | a]; a point of such a
    group carries [(a, b)] along. *)
Definition grp : Type := (Z * Z)%type.
Definition fpoint : Type := (grp * (Z * Z))%type.

Definition gens (G : grp) : list fpoint :=
  if (G.2 =? 1)%Z then [(G, (1, 0))%Z] else [(G, (1, 0))%Z; (G, (0, 1))%Z].

Definition ftimes (m : Z) (P : fpoint) : fpoint :=
  (P.1, ((m * P.2.1) mod P.1.1, (m * P.2.2) mod P.1.2))%Z.

Definition fnz (P : fpoint) : bool :=
  negb ((P.2.1 =? 0)%Z && (P.2.2 =? 0)%Z).

Definition ford (P : fpoint) : Z :=
  Z.lcm (P.1.1 / Z.gcd P.1.1 P.2.1) (P.1.2 / Z.gcd P.1.2 P.2.2).

(** Discrete logarithms by search; [ValueError] when there is none. *)
Definition search (ord : Z) (test : Z -> bool) : res Z :=
  match List.find test (GF_elements ord) with
  | Some k => Ok k
  | None => Raise ValueError
  end.

Definition dlog_plus (P g : fpoint) (ord : Z) : res Z :=
  search ord (fun k => ((k * g.2.1) mod g.1.1 =? P.2.1)
                       && ((k * g.2.2) mod g.1.2 =? P.2.2))%Z.

(** The pairing [zeta0^(x1*y2 - x2*y1)] with values in [GF(ell)], [zeta0]
    being a root of unity of order [b]. *)
Definition pairing (ell zeta0 : Z) (P Q : fpoint) (n : Z) : res Z :=
  Ok ((zeta0 ^ ((P.2.1 * Q.2.2 - Q.2.1 * P.2.2) mod P.1.2)) mod ell)%Z.

Definition mult_order (ell x : Z) : Z :=
  default 0%Z
    (List.find (fun k => (x ^ k) mod ell =? 1 mod ell)%Z
               (map Z.of_nat (seq 1 (Z.to_nat ell)))).

Definition dlog_times (ell : Z) (x zeta ord : Z) : res Z :=
  search ord (fun k => (zeta ^ k) mod ell =? x)%Z.

Definition reduction (ell zeta0 : Z) : ReductionOps grp fpoint Z :=
  {| G_order := fun G => (G.1 * G.2)%Z; G_gens := gens;
     fsmul := ftimes; fnonzero := fnz; forder := ford;
     dlog_add := dlog_plus; weil_pairing := pairing ell zeta0;
     multiplicative_order := mult_order ell; dlog_mul := dlog_times ell |}.

(** Reduction at [q]: onto [Z/(q+1)] by [(x, y) |-> x + q*y] when [t = 0],
    onto [Z/t(q+1) x Z/t] coordinate by coordinate otherwise.  The base
    field is [Q], so there is one root [amodq] for each [q]. *)
Definition red_grp (t q : Z) : grp :=
  let b := if (t =? 0)%Z then 1%Z else t in ((b * (q + 1))%Z, b).

Definition red_point (t q : Z) (P : point) : fpoint :=
  let G := red_grp t q in
  (G, if (t =? 0)%Z then ((P.1 + q * P.2) mod G.1, 0)%Z
      else (P.1 mod G.1, P.2 mod G.2)%Z).

Definition sieve (t : Z) : SieveOps point grp fpoint :=
  {| nth_prime := Primes.nth; Ediscnorm := 1; Kdisc := 1;
     denominator_norm := fun _ => 1%Z; Kpol_roots := fun _ => [0%Z];
     Ek_cardinality := fun q _ => ((red_grp t q).1 * (red_grp t q).2)%Z;
     Ek_point := fun q _ => red_point t q;
     Ek_abelian_group := fun q _ => red_grp t q |}.
End Lattice.

(** ** The functions at the concrete services *)

Module Run.
Import Lattice.

(** The torsion-free group [Z x Z]. *)
Definition p_saturation_free :=
  @p_saturation point grp fpoint Z (curve 0) (reduction 2 1) (sieve 0) Gauss.ops.
Definition full_p_saturation_free :=
  @full_p_saturation point grp fpoint Z (curve 0) (reduction 2 1) (sieve 0) Gauss.ops.
Definition p_saturation_default_free :=
  @p_saturation_default point grp fpoint Z (curve 0) (reduction 2 1) (sieve 0) Gauss.ops.

(** The group [Z x Z/2], with a point of order 2. *)
Definition p_saturation_tors :=
  @p_saturation point grp fpoint Z (curve 2) (reduction 3 2) (sieve 2) Gauss.ops.
Definition full_p_saturation_tors :=
  @full_p_saturation point grp fpoint Z (curve 2) (reduction 3 2) (sieve 2) Gauss.ops.

End Run.

(** ** Notions the statements are written with *)

Section ProjectionNotions.
Context {Grp FPoint Fq : Type} `{ReductionOps Grp FPoint Fq}.

(** The prime-to-[p] part of the order of [G]. *)
Definition cofactor (G : Grp) (p : Z) : Z := prime_to_m_part (G_order G) p.

(** The generators of [G] scaled into the [p]-primary part, the zero ones
    left out. *)
Definition scaled_gens (G : Grp) (p : Z) : list FPoint :=
  List.filter fnonzero (map (fsmul (cofactor G p)) (G_gens G)).

(** [k] is the additive discrete logarithm, to the base [g], of the point
    [pt] scaled into the [p]-primary part. *)
Definition additive_log (G : Grp) (p : Z) (g : FPoint) (pt : FPoint) (k : Z) : Prop :=
  dlog_add (fsmul (cofactor G p) pt) g (forder g) = Ok k.

(** [k] is the multiplicative discrete logarithm, to the base [zeta] of
    order [p1], of the Weil pairing of the scaled point [pt] with [g]. *)
Definition pairing_log (G : Grp) (p : Z) (g : FPoint) (zeta : Fq) (p1 p2 : Z)
    (pt : FPoint) (k : Z) : Prop :=
  exists e, weil_pairing (fsmul (cofactor G p) pt) g p2 = Ok e
            /\ dlog_mul e zeta p1 = Ok k.
End ProjectionNotions.


Section SaturationNotions.
Context {Point : Type} `{CurveOps Point}.

(** [k*P] by [k] additions of [P], for [k >= 0]. *)
Definition multiple (k : Z) (P : Point) : Point :=
  Nat.iter (Z.to_nat k) (fun Q => add Q P) E0.

(** The linear combination [w_1*P_1 + ... + w_n*P_n], summed from the
    left. *)
Definition combination (w : list Z) (Plist : list Point) : Point :=
  py_sum (zip_with multiple w Plist) E0.

(** The multiples [0*P, ..., (k-1)*P]. *)
Definition multiples_upto (P : Point) (k : Z) : list Point :=
  map (fun c => multiple c P) (GF_elements k).

(** Every entry of the dict is the combination its key stands for. *)
Definition cache_coherent (Plist : list Point) (c : cache Point) : Prop :=
  forall w P, c !! w = Some P -> P = combination w Plist.
End SaturationNotions.

(** A point of projective space over [GF(p)] with [n] coordinates, in normal
    form: the last nonzero coordinate is 1. *)
Definition normalized (p : Z) (n : nat) (w : list Z) : Prop :=
  exists v k, w = v ++ 1%Z :: replicate k 0%Z
              /\ length w = n
              /\ Forall (fun x => 0 <= x < p)%Z v.


Section SieveNotions.
Context {Point Grp FPoint Fq : Type}
        `{CurveOps Point} `{ReductionOps Grp FPoint Fq}
        `{SieveOps Point Grp FPoint} `{LinAlgOps}.

(** The reduction at [q] and [amodq] tells something: [p] divides the order
    of the reduced curve. *)
Definition has_p_torsion (p : Z) (qa : Z * Z) : bool :=
  divides p (Ek_cardinality qa.1 qa.2).

(** The rows that the reduction at [q] and [amodq] adds to [A]. *)
Definition place_rows (Plist : list Point) (p : Z) (qa : Z * Z)
  : res (list (list Z)) :=
  fst (projections_with_retry (Ek_abelian_group qa.1 qa.2)
                              (map (Ek_point qa.1 qa.2) Plist) p).

(** The pairs [(q, amodq)] that the two nested loops go through, for the
    primes of ranks [i, ..., i + fuel - 1]. *)
Definition sieve_schedule (Plist : list Point) (i fuel : nat) : list (Z * Z) :=
  flat_map (fun j => let q := nth_prime j in
                     if bad_prime Plist q then []
                     else map (fun amodq => (q, amodq)) (Kpol_roots q))
           (seq i fuel).

(** The loop body run on consecutive pairs [(q, amodq)]. *)
Fixpoint sieve_steps (Plist : list Point) (p : Z) (places : list (Z * Z))
    (st : sieve_state) : loop_step sieve_state (res (verdict Point)) :=
  match places with
  | [] => Continue st
  | qa :: places' =>
      match sieve_body Plist p qa.1 qa.2 st with
      | Continue st' => sieve_steps Plist p places' st'
      | Return r => Return r
      end
  end.

(** A stretch without progress: every reduction of [places] that tells
    something adds rows to [A] and leaves the rank at [r].  The result is
    the matrix at the end and the number of such additions. *)
Fixpoint no_progress_run (Plist : list Point) (p : Z) (r : nat)
    (A : list (list Z)) (places : list (Z * Z)) : option (list (list Z) * nat) :=
  match places with
  | [] => Some (A, 0%nat)
  | qa :: places' =>
      if has_p_torsion p qa then
        match place_rows Plist p qa with
        | Ok vecs =>
            if (mat_rank p (A ++ vecs) =? r)%nat then
              Ak ← no_progress_run Plist p r (A ++ vecs) places';
              Some (Ak.1, S Ak.2)
            else None
        | Raise _ => None
        end
      else no_progress_run Plist p r A places'
  end.
(** The pairs [pre] lead to the start of a stretch: either the sieve is
    starting, or the last of them has added rows that changed the rank, to
    [r], which is not [n]; [A] is the matrix then. *)
Definition stretch_start (Plist : list Point) (p : Z) (pre : list (Z * Z))
    (A : list (list Z)) (r : nat) : Prop :=
  (pre = [] /\ A = [] /\ r = 0%nat)
  \/ exists pre0 qa st0 vecs,
       pre = pre0 ++ [qa]
       /\ sieve_steps Plist p pre0 (SieveState [] 0 0) = Continue st0
       /\ has_p_torsion p qa = true
       /\ place_rows Plist p qa = Ok vecs
       /\ A = sv_A st0 ++ vecs
       /\ r = mat_rank p A
       /\ r <> length Plist
       /\ r <> sv_rankA st0.
End SieveNotions.

(** [j] is the position of the first nonzero entry of [v]. *)
Definition first_nonzero_at (v : list Z) (j : nat) : Prop :=
  (exists x, v !! j = Some x /\ x <> 0%Z)
  /\ forall i, (i < j)%nat -> v !! i = Some 0%Z.


Section GroupNotions.
Context {Point : Type} `{CurveOps Point}.

(** The points form an abelian group on which the integers act, and
    [division_points] lists the solutions of [p*D = P], for [p > 0]. *)
Record curve_laws : Prop := CurveLaws {
  add_assoc : forall P Q R, add (add P Q) R = add P (add Q R);
  add_comm : forall P Q, add P Q = add Q P;
  add_zero : forall P, add E0 P = P;
  smul_zero : forall P, smul 0 P = E0;
  smul_one : forall P, smul 1 P = P;
  smul_plus : forall a b P, smul (a + b) P = add (smul a P) (smul b P);
  smul_times : forall a b P, smul (a * b) P = smul a (smul b P);
  smul_add : forall a P Q, smul a (add P Q) = add (smul a P) (smul a Q);
  division_points_spec :
    forall P p D, (0 < p)%Z -> In D (division_points P p) <-> smul p D = P;
}.

(** [Q] is divisible by [p] in the group. *)
Definition p_divisible (p : Z) (Q : Point) : Prop := exists D, smul p D = Q.

(** The points are [p]-saturated: no combination of them whose coefficient
    tuple is a point of projective space over [GF(p)] is divisible by
    [p]. *)
Definition p_saturated (Plist : list Point) (p : Z) : Prop :=
  forall w, normalized p (length Plist) w ->
            ~ p_divisible p (combination w Plist).
End GroupNotions.
Arguments curve_laws Point {_}.

(** The combination [w_1*V_1 + ... + w_r*V_r] of vectors of length [n], over
    the integers. *)
Definition vec_comb (n : nat) (w : list Z) (V : list (list Z)) : list Z :=
  fold_right (fun av acc => zip_with Z.add (map (Z.mul av.1) av.2) acc)
             (replicate n 0%Z) (zip w V).

(** The vectors [V] are linearly independent modulo [p]. *)
Definition independent_mod (p : Z) (n : nat) (V : list (list Z)) : Prop :=
  forall w, length w = length V ->
            Forall (fun x => x mod p = 0)%Z (vec_comb n w V) ->
            Forall (fun x => x mod p = 0)%Z w.

(** What is asked of a basis of a kernel: vectors of length [n], linearly
    independent modulo [p]. *)
Definition kernel_ok (p : Z) (n : nat) (V : list (list Z)) : Prop :=
  Forall (fun v => length v = n) V /\ independent_mod p n V.


Section SieveInvariant.
Context {Point : Type} `{LinAlgOps}.

(** What holds of [A], [rankA] and [count] whenever the loop body of the
    sieve is entered. *)
Definition sieve_inv (Plist : list Point) (p : Z) (st : sieve_state) : Prop :=
  (sv_rankA st <= mat_rank p (sv_A st))%nat
  /\ (sv_rankA st < length Plist)%nat
  /\ (sv_count st < 10)%nat
  /\ Forall (fun r => length r = length Plist) (sv_A st).

(** A quantity that decreases at every reduction that tells something. *)
Definition sieve_measure (Plist : list Point) (st : sieve_state) : nat :=
  10 * (length Plist - sv_rankA st) - sv_count st.
End SieveInvariant.


Section IntegerCombinations.
Context {Point : Type} `{CurveOps Point}.

(** The combination [c_1*P_1 + ... + c_n*P_n] with integer coefficients,
    by the scalar multiplication of the group. *)
Definition lin (c : list Z) (Pl : list Point) : Point :=
  fold_right add E0 (zip_with smul c Pl).
End IntegerCombinations.


Section TorsionNotions.
Context {Point : Type} `{CurveOps Point}.

(** The torsion generators that [full_p_saturation] adds to the points:
    those whose order is divisible by [p]. *)
Definition added_torsion (p : Z) : list Point :=
  List.filter (fun T => divides p (order T)) torsion_gens.
End TorsionNotions.

(** * Properties *)

(** ** The version without sieve is [p_saturation] with [sieve=False] *)

Section Basics.
Context {Point Grp FPoint Fq : Type}
        `{CurveOps Point} `{ReductionOps Grp FPoint Fq}
        `{SieveOps Point Grp FPoint} `{LinAlgOps}.

Lemma p_saturation_sieve_false (fuel : nat) (Plist : list Point) (p : Z)
    (lin_combs : cache Point) :
  p_saturation fuel Plist p false lin_combs
  = Some (p_saturation_nosieve Plist p lin_combs).
Proof.
  unfold p_saturation, p_saturation_nosieve.
  destruct (p_saturation_head Plist p); reflexivity.
Qed.

(** With the sieve, the dict is handed back as it came. *)
Lemma p_saturation_sieve_keeps_cache (fuel : nat) (Plist : list Point) (p : Z)
    (lin_combs c' : cache Point) (r : res (verdict Point)) :
  p_saturation fuel Plist p true lin_combs = Some (r, c') -> c' = lin_combs.
Proof.
  unfold p_saturation.
  destruct (p_saturation_head Plist p); simpl.
  - intros [= _ <-]. reflexivity.
  - destruct (sieve_search fuel Plist p); simpl; [intros [= _ <-]; reflexivity | discriminate].
Qed.

(** C4 (amended).  An empty point list is no contract violation: it is met
    by a guard at the head of each function.  [p_saturation] answers
    [(True, lin_combs)], whatever the strategy and with the dict untouched,
    and [full_p_saturation] hands the caller's list back with exponent 0,
    without calling [p_saturation] and without touching the store. *)
Theorem empty_list_returns_verdict (fuel : nat) (p : Z) (sieve : bool)
    (c : cache Point) (h : heap Point) (Plist lin_combs : nat) :
  p_saturation fuel [] p sieve c = Some (Ok Saturated, c)
  /\ (h_lists h !! Plist = Some [] ->
      full_p_saturation fuel h Plist p lin_combs = Some (Ok (Plist, 0%nat), h, [])).
Proof.
  split; [reflexivity|].
  intros Hl. unfold full_p_saturation. rewrite Hl. reflexivity.
Qed.

End Basics.

(** Witness of [empty_list_returns_verdict], on [Z x Z]. *)
Lemma empty_list_returns_verdict_witness :
  Run.p_saturation_free 5 [] 3 true ∅ = Some (Ok Saturated, ∅)
  /\ Run.full_p_saturation_free 5 (caller_heap [[]] []) 0 3 1
     = Some (Ok (0%nat, 0%nat), caller_heap [[]] [], []).
Proof.
  destruct (@empty_list_returns_verdict Lattice.point Lattice.grp Lattice.fpoint Z
              (Lattice.curve 0) (Lattice.reduction 2 1) (Lattice.sieve 0) Gauss.ops
              5%nat 3%Z true ∅ (caller_heap [[]] []) 0%nat 1%nat) as [H1 H2].
  split; [exact H1 | apply H2; reflexivity].
Defined.

(** C4, as stated, fails: on the empty list neither function raises. *)
Lemma empty_list_no_contract_violation :
  ~ (exists e c, Run.p_saturation_free 5 [] 3 true ∅ = Some (Raise e, c))
  /\ ~ (exists e c, Run.p_saturation_free 5 [] 3 false ∅ = Some (Raise e, c))
  /\ ~ (exists e h calls,
          Run.full_p_saturation_free 5 (caller_heap [[]] []) 0 3 1
          = Some (Raise e, h, calls)).
Proof.
  split; [|split].
  - intros (e & c & Hc). vm_compute in Hc. discriminate.
  - intros (e & c & Hc). vm_compute in Hc. discriminate.
  - intros (e & h & calls & Hc). vm_compute in Hc. discriminate.
Qed.

(** C8, as stated, fails where the curve has a point of order 2.  In
    [Z x Z/2] the point [(2, 0)] has the two halves [(1, 0)] and [(1, 1)]:
    [p_saturation] answers [(False, 0, (1, 0))], and no answer could be the
    only half. *)
Lemma single_point_half_not_unique :
  Run.p_saturation_tors 0 [(2, 0)%Z] 2 false ∅
  = Some (Ok (NotSaturated 0 (1, 0)%Z), ∅)
  /\ ~ (exists R : Lattice.point,
          Run.p_saturation_tors 0 [(2, 0)%Z] 2 false ∅
          = Some (Ok (NotSaturated 0 R), ∅)
          /\ Lattice.times 2 2 R = (2, 0)%Z
          /\ forall R', Lattice.times 2 2 R' = (2, 0)%Z -> R' = R).
Proof.
  split; [reflexivity|].
  intros (R & HR & _ & Huniq).
  vm_compute in HR. injection HR as <-.
  specialize (Huniq (1, 1)%Z eq_refl). discriminate.
Qed.

(** ** [p_projections] *)

Lemma res_map_Forall2 {A B} (f : A -> res B) (l : list A) (ys : list B) :
  Forall2 (fun x y => f x = Ok y) l ys -> res_map f l = Ok ys.
Proof.
  induction 1 as [|x y l ys Hxy _ IH]; simpl; [reflexivity|].
  rewrite Hxy. simpl. rewrite IH. reflexivity.
Qed.

Lemma res_map_map {A B C} (f : B -> res C) (g : A -> B) (l : list A) :
  res_map f (map g l) = res_map (fun x => f (g x)) l.
Proof.
  induction l as [|x l IH]; simpl; [reflexivity|].
  rewrite IH. reflexivity.
Qed.

Section ProjectionProperties.
Context {Grp FPoint Fq : Type} `{ReductionOps Grp FPoint Fq}.

Lemma p_projections_trivial (G : Grp) (Plist : list FPoint) (p : Z) (debug : bool) :
  cofactor G p = G_order G -> p_projections G Plist p debug = Ok [].
Proof.
  intros Hm. unfold p_projections. fold (cofactor G p).
  rewrite Hm, Z.eqb_refl. reflexivity.
Qed.

Lemma p_projections_cyclic (G : Grp) (Plist : list FPoint) (p : Z) (debug : bool)
    (g : FPoint) (ks : list Z) :
  cofactor G p <> G_order G ->
  scaled_gens G p = [g] ->
  Forall2 (additive_log G p g) Plist ks ->
  p_projections G Plist p debug = Ok [vector_mod p ks].
Proof.
  intros Hm Hg Hks. unfold p_projections. fold (cofactor G p).
  apply Z.eqb_neq in Hm. rewrite Hm.
  fold (scaled_gens G p). rewrite Hg. simpl.
  rewrite res_map_map.
  rewrite (res_map_Forall2 _ Plist ks Hks). reflexivity.
Qed.

Lemma p_projections_two_gens (G : Grp) (Plist : list FPoint) (p : Z) (debug : bool)
    (g1 g2 : FPoint) (zeta : Fq) :
  cofactor G p <> G_order G ->
  scaled_gens G p = [g1; g2] ->
  weil_pairing g1 g2 (Z.max (forder g1) (forder g2)) = Ok zeta ->
  p_projections G Plist p debug
  = let p1 := Z.min (forder g1) (forder g2) in
    let p2 := Z.max (forder g1) (forder g2) in
    let pts := map (fsmul (cofactor G p)) Plist in
    if negb (multiplicative_order zeta =? p1)%Z then Raise AssertionError
    else
      v1 ← res_map (fun pt => e ← weil_pairing pt g1 p2; dlog_mul e zeta p1) pts;
      v2 ← res_map (fun pt => e ← weil_pairing pt g2 p2; dlog_mul e zeta p1) pts;
      Ok [vector_mod p v1; vector_mod p v2].
Proof.
  intros Hm Hg Hz. unfold p_projections. fold (cofactor G p).
  apply Z.eqb_neq in Hm. rewrite Hm.
  fold (scaled_gens G p). rewrite Hg. simpl.
  rewrite Hz. reflexivity.
Qed.

Lemma p_projections_noncyclic (G : Grp) (Plist : list FPoint) (p : Z) (debug : bool)
    (g1 g2 : FPoint) (zeta : Fq) (ks1 ks2 : list Z) :
  let p1 := Z.min (forder g1) (forder g2) in
  let p2 := Z.max (forder g1) (forder g2) in
  cofactor G p <> G_order G ->
  scaled_gens G p = [g1; g2] ->
  weil_pairing g1 g2 p2 = Ok zeta ->
  multiplicative_order zeta = p1 ->
  Forall2 (pairing_log G p g1 zeta p1 p2) Plist ks1 ->
  Forall2 (pairing_log G p g2 zeta p1 p2) Plist ks2 ->
  p_projections G Plist p debug = Ok [vector_mod p ks1; vector_mod p ks2].
Proof.
  intros p1 p2 Hm Hg Hz Hord H1 H2.
  rewrite (p_projections_two_gens G Plist p debug g1 g2 zeta Hm Hg Hz).
  subst p1 p2. cbv zeta. rewrite Hord, Z.eqb_refl. simpl.
  rewrite !res_map_map.
  assert (E : forall g ks,
             Forall2 (pairing_log G p g zeta (Z.min (forder g1) (forder g2))
                                  (Z.max (forder g1) (forder g2))) Plist ks ->
             res_map (fun pt => e ← weil_pairing (fsmul (cofactor G p) pt) g
                                      (Z.max (forder g1) (forder g2));
                                dlog_mul e zeta (Z.min (forder g1) (forder g2)))
                     Plist = Ok ks).
  { intros g ks Hks. apply res_map_Forall2.
    eapply Forall2_impl; [exact Hks|]. intros pt k (e & He & Hk).
    cbv beta. rewrite He. exact Hk. }
  rewrite (E g1 ks1 H1), (E g2 ks2 H2). reflexivity.
Qed.

Lemma res_map_length {A B} (f : A -> res B) (l : list A) (ys : list B) :
  res_map f l = Ok ys -> length ys = length l.
Proof.
  revert ys. induction l as [|x l IH]; simpl; intros ys.
  - intros [= <-]. reflexivity.
  - destruct (f x); simpl; [|discriminate].
    destruct (res_map f l); simpl; [|discriminate].
    intros [= <-]. simpl. f_equal. apply IH. reflexivity.
Qed.

Lemma p_projections_empty_inv (G : Grp) (Plist : list FPoint) (p : Z) (debug : bool) :
  p_projections G Plist p debug = Ok [] -> cofactor G p = G_order G.
Proof.
  unfold p_projections. fold (cofactor G p).
  destruct (cofactor G p =? G_order G)%Z eqn:Hm; [intros _; apply Z.eqb_eq, Hm|].
  fold (scaled_gens G p).
  destruct (length (scaled_gens G p) =? 1)%nat.
  - destruct (py_getitem (scaled_gens G p) 0); simpl; [|discriminate].
    match goal with |- context [res_map ?f ?l] => destruct (res_map f l) end;
      simpl; discriminate.
  - destruct (py_min _); simpl; [|discriminate].
    destruct (py_max _); simpl; [|discriminate].
    destruct (scaled_gens G p) as [|g1 [|g2 [|g3 gs]]]; try discriminate.
    destruct (weil_pairing g1 g2 _); simpl; [|discriminate].
    destruct (negb _); [discriminate|].
    repeat match goal with
           | |- context [res_map ?f ?l] => destruct (res_map f l); simpl
           end; discriminate.
Qed.

(** C7.  [p_projections] answers the empty list exactly when the
    prime-to-[p] part of the order of [G] is the whole order.  Otherwise,
    with a single nonzero scaled generator [g], it answers one vector, made
    of the additive discrete logarithms to the base [g] of the scaled
    points, reduced modulo [p]; with two nonzero scaled generators [g1] and
    [g2], whose Weil pairing [zeta] has order [p1], it answers two vectors,
    made of the multiplicative discrete logarithms to the base [zeta] of
    the Weil pairings of the scaled points with [g1] and with [g2], reduced
    modulo [p]. *)
Theorem p_projections_spec (G : Grp) (Plist : list FPoint) (p : Z) (debug : bool) :
  (p_projections G Plist p debug = Ok [] <-> cofactor G p = G_order G)
  /\ (forall g ks,
        cofactor G p <> G_order G ->
        scaled_gens G p = [g] ->
        Forall2 (additive_log G p g) Plist ks ->
        p_projections G Plist p debug = Ok [vector_mod p ks])
  /\ (forall g1 g2 zeta ks1 ks2,
        let p1 := Z.min (forder g1) (forder g2) in
        let p2 := Z.max (forder g1) (forder g2) in
        cofactor G p <> G_order G ->
        scaled_gens G p = [g1; g2] ->
        weil_pairing g1 g2 p2 = Ok zeta ->
        multiplicative_order zeta = p1 ->
        Forall2 (pairing_log G p g1 zeta p1 p2) Plist ks1 ->
        Forall2 (pairing_log G p g2 zeta p1 p2) Plist ks2 ->
        p_projections G Plist p debug = Ok [vector_mod p ks1; vector_mod p ks2]).
Proof.
  split; [split|split].
  - apply p_projections_empty_inv.
  - apply p_projections_trivial.
  - intros g ks. apply p_projections_cyclic.
  - intros g1 g2 zeta ks1 ks2. apply p_projections_noncyclic.
Qed.
End ProjectionProperties.

(** Witness of [p_projections_spec]: a group of order 5 at [p = 3], the
    cyclic group [Z/9] and the group [Z/3 x Z/3] with a pairing into
    [GF(7)], where 2 has order 3. *)
Lemma p_projections_spec_witness :
  let R := Lattice.reduction 7 2 in
  @p_projections _ _ _ R (5, 1)%Z [((5, 1), (4, 0))%Z] 3 false = Ok []
  /\ @p_projections _ _ _ R (9, 1)%Z [((9, 1), (4, 0))%Z; ((9, 1), (5, 0))%Z] 3 false
     = Ok [[1; 2]%Z]
  /\ @p_projections _ _ _ R (3, 3)%Z [((3, 3), (1, 2))%Z; ((3, 3), (0, 1))%Z] 3 false
     = Ok [[1; 2]%Z; [1; 0]%Z].
Proof.
  intros R. split; [|split].
  - apply (@p_projections_spec _ _ _ R (5, 1)%Z [((5, 1), (4, 0))%Z] 3%Z false).
    reflexivity.
  - apply (proj1 (proj2 (@p_projections_spec _ _ _ R (9, 1)%Z
                           [((9, 1), (4, 0))%Z; ((9, 1), (5, 0))%Z] 3%Z false))
                 ((9, 1), (1, 0))%Z [4; 5]%Z).
    + vm_compute. discriminate.
    + reflexivity.
    + repeat constructor.
  - apply (proj2 (proj2 (@p_projections_spec _ _ _ R (3, 3)%Z
                           [((3, 3), (1, 2))%Z; ((3, 3), (0, 1))%Z] 3%Z false))
                 ((3, 3), (1, 0))%Z ((3, 3), (0, 1))%Z 2%Z [1; 2]%Z [1; 0]%Z).
    + vm_compute. discriminate.
    + reflexivity.
    + reflexivity.
    + reflexivity.
    + repeat constructor; eexists; (split; [reflexivity|reflexivity]).
    + repeat constructor; eexists; (split; [reflexivity|reflexivity]).
Defined.

(** ** The sieve and a failing [p_projections] *)

Section RetryProperties.
Context {Point Grp FPoint Fq : Type}
        `{CurveOps Point} `{ReductionOps Grp FPoint Fq}
        `{SieveOps Point Grp FPoint} `{LinAlgOps}.

End RetryProperties.



(** ** Projective space *)

Lemma GF_elements_In (p x : Z) : In x (GF_elements p) <-> (0 <= x < p)%Z.
Proof.
  unfold GF_elements. rewrite in_map_iff. split.
  - intros (k & <- & Hk). apply in_seq in Hk. lia.
  - intros Hx. exists (Z.to_nat x). split; [lia|]. apply in_seq. lia.
Qed.

Lemma cartesian_power_In (p : Z) (m : nat) (v : list Z) :
  In v (cartesian_power p m)
  <-> length v = m /\ Forall (fun x => 0 <= x < p)%Z v.
Proof.
  revert v. induction m as [|m IH]; intros v; simpl.
  - split.
    + intros [<-|[]]. split; [reflexivity | constructor].
    + intros [Hl _]. destruct v; [left; reflexivity | discriminate].
  - rewrite in_flat_map. split.
    + intros (x & Hx & Hv). apply in_map_iff in Hv as (v' & <- & Hv').
      apply IH in Hv' as [Hl Hf]. apply GF_elements_In in Hx.
      split; [simpl; lia | constructor; assumption].
    + intros [Hl Hf]. destruct v as [|x v']; [discriminate|].
      inversion Hf as [|? ? Hx Hf']; subst.
      exists x. split; [apply GF_elements_In; assumption|].
      apply in_map_iff. exists v'. split; [reflexivity|].
      apply IH. split; [simpl in Hl; lia | assumption].
Qed.

(** The iteration visits the points in normal form, and all of them. *)
Lemma ProjectiveSpace_In (p : Z) (d : nat) (w : list Z) :
  In w (ProjectiveSpace p d) <-> normalized p (S d) w.
Proof.
  unfold ProjectiveSpace, normalized. rewrite in_flat_map. split.
  - intros (k & Hk & Hw). apply in_seq in Hk.
    apply in_map_iff in Hw as (v & <- & Hv).
    apply cartesian_power_In in Hv as [Hl Hf].
    exists v, k. split; [reflexivity|]. split; [|assumption].
    rewrite length_app. simpl. rewrite length_replicate. lia.
  - intros (v & k & -> & Hl & Hf).
    rewrite length_app in Hl. simpl in Hl. rewrite length_replicate in Hl.
    exists k. split; [apply in_seq; lia|].
    apply in_map_iff. exists v. split; [reflexivity|].
    apply cartesian_power_In. split; [lia | assumption].
Qed.

Lemma normalized_length p n w : normalized p n w -> length w = n.
Proof. intros (v & k & _ & Hl & _). exact Hl. Qed.

Lemma normalized_range p n w :
  (2 <= p)%Z -> normalized p n w -> Forall (fun x => 0 <= x < p)%Z w.
Proof.
  intros Hp (v & k & -> & _ & Hf).
  apply Forall_app. split; [assumption|].
  constructor; [lia|]. apply Forall_forall. intros x Hx.
  apply elem_of_replicate in Hx as [-> _]. lia.
Qed.

(** The last coordinate of a point in normal form is 0 or 1. *)
Lemma normalized_last p n w :
  normalized p n w -> exists w' c, w = w' ++ [c] /\ (0 <= c < 2)%Z.
Proof.
  intros (v & k & -> & _ & _). destruct k as [|k].
  - exists v, 1%Z. split; [reflexivity | lia].
  - exists (v ++ 1%Z :: replicate k 0%Z), 0%Z. split; [|lia].
    rewrite replicate_S_end. rewrite <- app_assoc. reflexivity.
Qed.

Lemma tuple_index_spec (w : list Z) (x : Z) :
  In x w ->
  exists i, tuple_index w x = Ok i /\ w !! i = Some x
            /\ forall j, (j < i)%nat -> w !! j <> Some x.
Proof.
  induction w as [|y w IH]; simpl; [intros []|].
  intros Hin. destruct (y =? x)%Z eqn:Hy.
  - apply Z.eqb_eq in Hy as ->. exists 0%nat.
    split; [reflexivity|]. split; [reflexivity|]. intros j Hj. lia.
  - apply Z.eqb_neq in Hy. destruct Hin as [->|Hin]; [congruence|].
    destruct (IH Hin) as (i & Hi & Hl & Hfirst).
    exists (S i). rewrite Hi. split; [reflexivity|]. split; [exact Hl|].
    intros [|j] Hj; simpl; [congruence | apply Hfirst; lia].
Qed.

Lemma normalized_has_one p n w : normalized p n w -> In 1%Z w.
Proof.
  intros (v & k & -> & _ & _). apply in_or_app. right. left. reflexivity.
Qed.

(** ** The tables of multiples *)

Lemma py_getitem_lookup {A} (l : list A) (c : Z) (x : A) :
  (0 <= c)%Z -> l !! Z.to_nat c = Some x -> py_getitem l c = Ok x.
Proof.
  intros Hc Hl. unfold py_getitem.
  destruct (c <? 0)%Z eqn:Hneg; [apply Z.ltb_lt in Hneg; lia|].
  rewrite Hneg, Hl. reflexivity.
Qed.

Lemma py_getitem_last {A} (l : list A) (x : A) :
  py_getitem (l ++ [x]) (-1) = Ok x.
Proof.
  unfold py_getitem. simpl. rewrite length_app. simpl.
  replace (Z.of_nat (length l + 1) + -1)%Z with (Z.of_nat (length l)) by lia.
  destruct (Z.of_nat (length l) <? 0)%Z eqn:Hneg; [apply Z.ltb_lt in Hneg; lia|].
  rewrite Nat2Z.id.
  rewrite lookup_app_r by lia. rewrite Nat.sub_diag. reflexivity.
Qed.

Section Tables.
Context {Point : Type} `{CurveOps Point}.

Lemma iter_add_shift (P Q : Point) (k : nat) :
  Nat.iter k (fun R => add R P) (add Q P)
  = add (Nat.iter k (fun R => add R P) Q) P.
Proof. induction k as [|k IH]; simpl; [reflexivity | rewrite IH; reflexivity]. Qed.

Lemma multiples_from_lookup (P Q : Point) (n k : nat) :
  (k < n)%nat ->
  multiples_from P Q n !! k = Some (Nat.iter k (fun R => add R P) Q).
Proof.
  revert Q k. induction n as [|n IH]; intros Q k Hk; [lia|].
  destruct k as [|k]; simpl; [reflexivity|].
  rewrite IH by lia. rewrite iter_add_shift. reflexivity.
Qed.

Lemma multiples_from_length (P Q : Point) (n : nat) :
  length (multiples_from P Q n) = n.
Proof. revert Q. induction n as [|n IH]; intros Q; simpl; [|rewrite IH]; reflexivity. Qed.

(** [multiples(P, k)] is the table [0*P, ..., (k-1)*P]. *)
Lemma multiples_table (P : Point) (k : Z) : multiples P k = multiples_upto P k.
Proof.
  apply list_eq. intros i. unfold multiples, multiples_upto, GF_elements.
  rewrite !list_lookup_fmap.
  destruct (decide (i < Z.to_nat k)%nat) as [Hi|Hi].
  - rewrite multiples_from_lookup by exact Hi.
    rewrite lookup_seq_lt by exact Hi. simpl.
    unfold multiple. rewrite Nat2Z.id. reflexivity.
  - rewrite lookup_ge_None_2 by (rewrite multiples_from_length; lia).
    rewrite lookup_seq_ge by lia. reflexivity.
Qed.

Lemma multiples_getitem (P : Point) (k c : Z) :
  (0 <= c < k)%Z -> py_getitem (multiples P k) c = Ok (multiple c P).
Proof.
  intros Hc. apply py_getitem_lookup; [lia|].
  unfold multiples. rewrite multiples_from_lookup by lia. reflexivity.
Qed.

Lemma mults_tables_snoc (front : list Point) (Plast : Point) (p : Z) :
  mults_tables (front ++ [Plast]) p
  = Ok (map (fun P => multiples_upto P p) front ++ [multiples_upto Plast 2]).
Proof.
  unfold mults_tables. rewrite py_getitem_last. simpl.
  unfold all_but_last. rewrite length_app. simpl.
  replace (length front + 1 - 1)%nat with (length front) by lia.
  rewrite take_app_length.
  rewrite multiples_table. f_equal. f_equal.
  apply map_ext. intros P. apply multiples_table.
Qed.

Lemma res_map_tables (p : Z) (front : list Point) (wf : list Z)
    (tables : list (list Point)) (wrest : list Z) :
  length wf = length front ->
  Forall (fun x => 0 <= x < p)%Z wf ->
  res_map (fun mc => py_getitem mc.1 mc.2)
          (zip (map (fun P => multiples_upto P p) front ++ tables) (wf ++ wrest))
  = (ys ← res_map (fun mc => py_getitem mc.1 mc.2) (zip tables wrest);
     Ok (zip_with multiple wf front ++ ys)).
Proof.
  revert wf. induction front as [|P front IH]; intros wf Hl Hf.
  - destruct wf; [|discriminate]. simpl.
    destruct (res_map _ (zip tables wrest)); reflexivity.
  - destruct wf as [|c wf]; [discriminate|].
    inversion Hf as [|? ? Hc Hf']; subst. simpl.
    rewrite <- multiples_table. rewrite multiples_getitem by exact Hc. simpl.
    rewrite IH by (simpl in Hl; lia || assumption).
    destruct (res_map _ (zip tables wrest)); reflexivity.
Qed.

(** On a tuple whose coordinates are in range, the last being 0 or 1, the
    sum read off the tables is the linear combination. *)
Lemma table_sum_combination (p : Z) (front : list Point) (Plast : Point)
    (wf : list Z) (c : Z) :
  length wf = length front ->
  Forall (fun x => 0 <= x < p)%Z wf ->
  (0 <= c < 2)%Z ->
  table_sum (map (fun P => multiples_upto P p) front ++ [multiples_upto Plast 2])
            (wf ++ [c])
  = Ok (combination (wf ++ [c]) (front ++ [Plast])).
Proof.
  intros Hl Hf Hc. unfold table_sum.
  rewrite res_map_tables by assumption. simpl.
  rewrite <- multiples_table. rewrite multiples_getitem by exact Hc. simpl.
  unfold combination. rewrite zip_with_app by exact Hl. reflexivity.
Qed.

Lemma table_sum_normalized (p : Z) (Plist : list Point) (tables : list (list Point))
    (w : list Z) :
  (2 <= p)%Z ->
  mults_tables Plist p = Ok tables ->
  normalized p (length Plist) w ->
  table_sum tables w = Ok (combination w Plist).
Proof.
  intros Hp Ht Hw.
  destruct (normalized_last _ _ _ Hw) as (wf & c & -> & Hc).
  pose proof (normalized_length _ _ _ Hw) as Hl.
  pose proof (normalized_range _ _ _ Hp Hw) as Hr.
  apply Forall_app in Hr as [Hr _].
  rewrite length_app in Hl. simpl in Hl.
  destruct (exists_last (l := Plist)) as (front & Plast & ->).
  { intros ->. simpl in Hl. lia. }
  rewrite length_app in Hl. simpl in Hl.
  rewrite mults_tables_snoc in Ht. injection Ht as <-.
  apply table_sum_combination; [lia | assumption | assumption].
Qed.
End Tables.

(** ** The exhaustive search *)

Section ExhaustiveProperties.
Context {Point Grp FPoint Fq : Type}
        `{CurveOps Point} `{ReductionOps Grp FPoint Fq}
        `{SieveOps Point Grp FPoint} `{LinAlgOps}.

Lemma p_saturation_head_general (Plist : list Point) (p : Z) :
  Plist <> [] -> ~ (length Plist = 1%nat /\ p = 2%Z) ->
  p_saturation_head Plist p = None.
Proof.
  intros Hne Hsp. unfold p_saturation_head.
  destruct Plist as [|P Plist]; [congruence|]. simpl.
  destruct (length Plist =? 0)%nat eqn:Hl; simpl; [|reflexivity].
  destruct (p =? 2)%Z eqn:Hp; [|reflexivity].
  apply Nat.eqb_eq in Hl. apply Z.eqb_eq in Hp. simpl in Hsp. lia.
Qed.

(** One tuple: the combination is looked up, or computed and stored, and
    tested for divisibility by [p]. *)
Lemma exhaustive_loop_step (tables : list (list Point)) (p : Z)
    (Plist : list Point) (w : list Z) (rest : list (list Z)) (c : cache Point) :
  table_sum tables w = Ok (combination w Plist) ->
  cache_coherent Plist c ->
  exists c1, cache_coherent Plist c1 /\ c ⊆ c1
             /\ c1 !! w = Some (combination w Plist)
             /\ exhaustive_loop tables p (w :: rest) c
                = match division_points (combination w Plist) p with
                  | [] => exhaustive_loop tables p rest c1
                  | D :: _ => (i ← tuple_index w 1; Ok (NotSaturated i D), c1)
                  end.
Proof.
  intros Ht Hc. simpl. destruct (c !! w) as [P|] eqn:Hw.
  - exists c. pose proof (Hc w P Hw) as ->.
    split; [exact Hc|]. split; [reflexivity|]. split; [exact Hw|]. reflexivity.
  - rewrite Ht. exists (<[w := combination w Plist]> c).
    split; [|split; [|split]].
    + intros u Q Hu. destruct (decide (w = u)) as [<-|Hne].
      * rewrite lookup_insert_eq in Hu. congruence.
      * rewrite lookup_insert_ne in Hu by exact Hne. apply (Hc u Q Hu).
    + apply insert_subseteq. exact Hw.
    + apply lookup_insert_eq.
    + reflexivity.
Qed.

(** A run of tuples none of which gives a divisible combination. *)
Lemma exhaustive_loop_prefix (tables : list (list Point)) (p : Z)
    (Plist : list Point) (pre rest : list (list Z)) (c : cache Point) :
  (forall u, In u pre -> table_sum tables u = Ok (combination u Plist)) ->
  (forall u, In u pre -> division_points (combination u Plist) p = []) ->
  cache_coherent Plist c ->
  exists c', cache_coherent Plist c' /\ c ⊆ c'
             /\ (forall u, In u pre -> c' !! u = Some (combination u Plist))
             /\ exhaustive_loop tables p (pre ++ rest) c
                = exhaustive_loop tables p rest c'.
Proof.
  revert c. induction pre as [|w pre IH]; intros c Ht Hd Hc.
  - exists c. split; [exact Hc|]. split; [reflexivity|].
    split; [intros u []|reflexivity].
  - destruct (exhaustive_loop_step tables p Plist w (pre ++ rest) c)
      as (c1 & Hc1 & Hsub1 & Hw1 & Hstep).
    { apply Ht. left. reflexivity. }
    { exact Hc. }
    rewrite (Hd w) in Hstep by (left; reflexivity).
    destruct (IH c1) as (c' & Hc' & Hsub' & Hall & Hrun).
    { intros u Hu. apply Ht. right. exact Hu. }
    { intros u Hu. apply Hd. right. exact Hu. }
    { exact Hc1. }
    exists c'. split; [exact Hc'|]. split; [etrans; eassumption|]. split.
    + intros u [<-|Hu]; [|apply Hall; exact Hu].
      eapply lookup_weaken; eassumption.
    + rewrite <- app_comm_cons, Hstep. exact Hrun.
Qed.

End ExhaustiveProperties.

Lemma cache_coherent_empty {Point : Type} `{CurveOps Point} (Plist : list Point) :
  cache_coherent Plist ∅.
Proof. intros w P Hw. rewrite lookup_empty in Hw. discriminate. Qed.



(** ** The sieve: stagnation and the kernel *)

Lemma first_nonzero_spec (v : list Z) (j : nat) :
  first_nonzero_at v j -> first_nonzero v = Ok j.
Proof.
  revert j. induction v as [|x v IH]; intros j [(y & Hy & Hne) Hz].
  - rewrite lookup_nil in Hy. discriminate.
  - simpl. destruct j as [|j].
    + simpl in Hy. injection Hy as ->.
      apply Z.eqb_neq in Hne. rewrite Hne. reflexivity.
    + pose proof (Hz 0%nat ltac:(lia)) as H0. simpl in H0. injection H0 as ->.
      simpl. rewrite (IH j); [reflexivity|].
      split; [exists y; split; assumption|].
      intros i Hi. apply (Hz (S i)). lia.
Qed.

Section SieveProperties.
Context {Point Grp FPoint Fq : Type}
        `{CurveOps Point} `{ReductionOps Grp FPoint Fq}
        `{SieveOps Point Grp FPoint} `{LinAlgOps}.

Lemma sieve_steps_app (Plist : list Point) (p : Z) (l1 l2 : list (Z * Z))
    (st : sieve_state) :
  sieve_steps Plist p (l1 ++ l2) st
  = match sieve_steps Plist p l1 st with
    | Continue st' => sieve_steps Plist p l2 st'
    | Return r => Return r
    end.
Proof.
  revert st. induction l1 as [|qa l1 IH]; intros st; simpl; [reflexivity|].
  destruct (sieve_body Plist p qa.1 qa.2 st); [apply IH | reflexivity].
Qed.

Lemma sieve_roots_steps (Plist : list Point) (p q : Z) (roots : list Z)
    (st : sieve_state) :
  sieve_roots Plist p q roots st
  = sieve_steps Plist p (map (fun amodq => (q, amodq)) roots) st.
Proof.
  revert st. induction roots as [|a roots IH]; intros st; simpl; [reflexivity|].
  destruct (sieve_body Plist p q a st); [apply IH | reflexivity].
Qed.

(** The two nested loops are the loop body run along the schedule. *)
Lemma sieve_primes_schedule (fuel : nat) (Plist : list Point) (p : Z) (i : nat)
    (st : sieve_state) :
  sieve_primes fuel Plist p i st
  = match sieve_steps Plist p (sieve_schedule Plist i fuel) st with
    | Return r => Some r
    | Continue _ => None
    end.
Proof.
  revert i st. induction fuel as [|fuel IH]; intros i st; [reflexivity|].
  unfold sieve_schedule. simpl. fold (sieve_schedule Plist (S i) fuel).
  rewrite sieve_steps_app.
  destruct (bad_prime Plist (nth_prime i)); simpl; [apply IH|].
  rewrite sieve_roots_steps.
  destruct (sieve_steps Plist p _ st); [apply IH | reflexivity].
Qed.

Lemma no_progress_run_zero (Plist : list Point) (p : Z) (r : nat)
    (A A' : list (list Z)) (places : list (Z * Z)) :
  no_progress_run Plist p r A places = Some (A', 0%nat) ->
  A' = A /\ sieve_steps Plist p places = fun st => Continue st.
Proof.
  revert A. induction places as [|qa places IH]; intros A; simpl.
  - intros [= <-]. split; reflexivity.
  - destruct (has_p_torsion p qa) eqn:Ht.
    + destruct (place_rows Plist p qa); [|discriminate].
      destruct (_ =? r)%nat; [|discriminate].
      destruct (no_progress_run _ _ _ _ places) as [[? ?]|]; discriminate.
    + intros Hrun. destruct (IH A Hrun) as [-> Hsteps]. split; [reflexivity|].
      rewrite Hsteps. unfold sieve_body. unfold has_p_torsion in Ht.
      rewrite Ht. reflexivity.
Qed.

(** The counter [count] counts the additions of a stretch without progress;
    the sieve goes on below 10 and leaves for the kernel at 10. *)
Lemma sieve_steps_no_progress (Plist : list Point) (p : Z)
    (places : list (Z * Z)) (st : sieve_state) (A' : list (list Z)) (k : nat) :
  sv_rankA st <> length Plist ->
  no_progress_run Plist p (sv_rankA st) (sv_A st) places = Some (A', k) ->
  (sv_count st < 10)%nat ->
  ((sv_count st + k < 10)%nat ->
   sieve_steps Plist p places st
   = Continue (SieveState A' (sv_rankA st) (sv_count st + k)))
  /\ ((sv_count st + k = 10)%nat ->
      sieve_steps Plist p places st = Return (kernel_check Plist p A')).
Proof.
  revert st A' k. induction places as [|qa places IH]; intros st A' k Hr Hrun Hc.
  - simpl in Hrun. injection Hrun as <- <-. split; [|lia].
    intros _. simpl. rewrite Nat.add_0_r. destruct st; reflexivity.
  - simpl in Hrun. simpl. unfold sieve_body.
    unfold has_p_torsion in Hrun.
    destruct (divides p (Ek_cardinality qa.1 qa.2)) eqn:Ht; simpl.
    + unfold place_rows in Hrun.
      destruct (projections_with_retry _ _ p).1 as [vecs|e]; [|discriminate].
      destruct (mat_rank p (sv_A st ++ vecs) =? sv_rankA st)%nat eqn:Hrk;
        [|discriminate].
      destruct (no_progress_run Plist p (sv_rankA st) (sv_A st ++ vecs) places)
        as [[A1 k1]|] eqn:Hrest; [|discriminate].
      simpl in Hrun. injection Hrun as <- <-.
      apply Nat.eqb_eq in Hrk. rewrite Hrk.
      destruct (sv_rankA st =? length Plist)%nat eqn:Hn;
        [apply Nat.eqb_eq in Hn; congruence|].
      rewrite ?Nat.eqb_refl.
      change (sv_count st =? 9)%nat with (S (sv_count st) =? 10)%nat.
      destruct (S (sv_count st) =? 10)%nat eqn:H10.
      * apply Nat.eqb_eq in H10. split; [lia|]. intros Hk.
        assert (k1 = 0%nat) as -> by lia.
        destruct (no_progress_run_zero _ _ _ _ _ _ Hrest) as [-> _]. reflexivity.
      * apply Nat.eqb_neq in H10.
        destruct (IH (SieveState (sv_A st ++ vecs) (sv_rankA st) (S (sv_count st)))
                     A1 k1) as [IH1 IH2];
          [exact Hr | exact Hrest | simpl; lia |].
        simpl in IH1, IH2. split; intros Hk.
        -- rewrite IH1 by lia. f_equal. f_equal. lia.
        -- apply IH2. lia.
    + destruct (IH st A' k Hr Hrun Hc) as [IH1 IH2]. split; assumption.
Qed.

(** What the kernel check answers, in terms of the call it makes. *)
Lemma kernel_check_spec (fuel : nat) (Plist : list Point) (p : Z)
    (A : list (list Z)) :
  let kernel := right_kernel_basis p (length Plist) A in
  let Rlist := kernel_points kernel Plist in
  (forall c', p_saturation fuel Rlist p false ∅ = Some (Ok Saturated, c') ->
              kernel_check Plist p A = Ok Saturated)
  /\ (forall k D c' v j,
        p_saturation fuel Rlist p false ∅ = Some (Ok (NotSaturated k D), c') ->
        kernel !! k = Some v -> first_nonzero_at v j ->
        kernel_check Plist p A = Ok (NotSaturated j D)).
Proof.
  intros kernel Rlist. split.
  - intros c' Hsub. rewrite p_saturation_sieve_false in Hsub.
    injection Hsub as Hsub. unfold kernel_check. fold kernel. fold Rlist.
    rewrite Hsub. reflexivity.
  - intros k D c' v j Hsub Hv Hj. rewrite p_saturation_sieve_false in Hsub.
    injection Hsub as Hsub. unfold kernel_check. fold kernel. fold Rlist.
    rewrite Hsub. simpl.
    rewrite (py_getitem_lookup kernel (Z.of_nat k) v); [|lia|rewrite Nat2Z.id; exact Hv].
    simpl. rewrite (first_nonzero_spec v j Hj). reflexivity.
Qed.

End SieveProperties.

(** ** Objects shared between caller and callee *)

Section Aliasing.
Context {Point Grp FPoint Fq : Type}
        `{CurveOps Point} `{ReductionOps Grp FPoint Fq}
        `{SieveOps Point Grp FPoint} `{LinAlgOps}.

(** With the sieve on, a call of [p_saturation] leaves the store as it
    is. *)
Lemma p_saturation_ref_sieve_keeps_heap (fuel : nat) (h h' : heap Point)
    (Plist : nat) (p : Z) (lin_combs : nat) (r : res (verdict Point)) :
  p_saturation_ref fuel h Plist p true lin_combs = Some (r, h') -> h' = h.
Proof.
  unfold p_saturation_ref.
  destruct (h_lists h !! Plist) as [l|]; simpl; [|discriminate].
  destruct (h_dicts h !! lin_combs) as [c|] eqn:Hc; simpl; [|discriminate].
  destruct (p_saturation fuel l p true c) as [[r' c']|] eqn:Hrun; simpl;
    [|discriminate].
  intros [= _ <-].
  apply p_saturation_sieve_keeps_cache in Hrun as ->.
  unfold store_dict. rewrite list_insert_id by exact Hc. destruct h; reflexivity.
Qed.

(** Without torsion generator of order divisible by [p], no list is
    created before the loop. *)
Lemma add_torsion_none (h : heap Point) (Plist nx : nat) (p : Z)
    (Tgens : list Point) :
  Forall (fun T => divides p (order T) = false) Tgens ->
  add_torsion h Plist nx p Tgens = Some (h, Plist, nx).
Proof.
  induction 1 as [|T Tgens HT _ IH]; simpl; [reflexivity|].
  rewrite HT. exact IH.
Qed.

(** In that case the list handed back is the caller's own list object. *)
Lemma full_p_saturation_returns_alias (fuel : nat) (h h' : heap Point)
    (Plist lin_combs Plist' exponent : nat) (p : Z)
    (calls : list (invocation Point)) :
  Forall (fun T => divides p (order T) = false) torsion_gens ->
  full_p_saturation fuel h Plist p lin_combs
  = Some (Ok (Plist', exponent), h', calls) ->
  Plist' = Plist.
Proof.
  intros Hno. unfold full_p_saturation.
  destruct (h_lists h !! Plist) as [l|]; simpl; [|discriminate].
  destruct (length l =? 0)%nat; [intros [= <- _ _ _]; reflexivity|].
  rewrite (add_torsion_none _ _ _ _ _ Hno). simpl.
  rewrite Nat.sub_diag. simpl.
  destruct (saturation_loop fuel h Plist p lin_combs 0 []) as [[[[e|e] h3] cs]|];
    simpl; [|discriminate|discriminate].
  intros [= <- _ _ _]. reflexivity.
Qed.
End Aliasing.

(** C1, at a failing input: [full_p_saturation([8P], 2)] on a curve without
    torsion, the caller's list being the object 0.  The answer is the object
    0 again, with exponent 3, and that object holds [P] afterwards: the
    caller's list has been overwritten, and the list handed back is not a
    new one. *)
Theorem full_p_saturation_overwrites_caller_list :
  exists h' calls,
    Run.full_p_saturation_free 10 (caller_heap [[(8, 0)%Z]] []) 0 2
                               default_lin_combs_full_p_saturation
    = Some (Ok (0%nat, 3%nat), h', calls)
    /\ h_lists h' !! 0%nat = Some [(1, 0)%Z].
Proof.
  eexists _, _. split; [vm_compute; reflexivity | reflexivity].
Qed.

(** Where a torsion generator is added, the work is done on a new list: on
    [Z x Z/2] the caller's list, object 0, still holds [2P] afterwards and
    the answer is the new object 2. *)
Lemma full_p_saturation_spares_caller_list_with_torsion :
  exists h' calls,
    Run.full_p_saturation_tors 40 (caller_heap [[(2, 0)%Z]] []) 0 2
                               default_lin_combs_full_p_saturation
    = Some (Ok (2%nat, 1%nat), h', calls)
    /\ h_lists h' !! 0%nat = Some [(2, 0)%Z]
    /\ h_lists h' !! 2%nat = Some [(1, 0)%Z].
Proof.
  eexists _, _. split; [vm_compute; reflexivity | split; reflexivity].
Qed.

(** C2, at a failing input: the same call with a dict, object 2, that holds
    the combination of [[8P]] for the tuple [(1,)].  The second call of
    [p_saturation], made after [Plist[0]] has been replaced by [4P], gets
    that same dict, still holding [8P]. *)
Theorem full_p_saturation_keeps_cache_after_replacement :
  exists h' calls,
    Run.full_p_saturation_free 10
      (caller_heap [[(8, 0)%Z]] [{[ [1%Z] := (8, 0)%Z ]}]) 0 2 2
    = Some (Ok (0%nat, 3%nat), h', calls)
    /\ calls !! 0%nat = Some (Invocation [(8, 0)%Z] 2 {[ [1%Z] := (8, 0)%Z ]})
    /\ calls !! 1%nat = Some (Invocation [(4, 0)%Z] 2 {[ [1%Z] := (8, 0)%Z ]}).
Proof.
  eexists _, _. split; [vm_compute; reflexivity | split; reflexivity].
Qed.

(** Where a torsion generator is added, the dict is replaced by a new, empty
    one (object 3) before the first call. *)
Lemma full_p_saturation_resets_cache_with_torsion :
  exists h' calls,
    Run.full_p_saturation_tors 40
      (caller_heap [[(2, 0)%Z]] [{[ [1%Z] := (2, 0)%Z ]}]) 0 2 2
    = Some (Ok (2%nat, 1%nat), h', calls)
    /\ calls !! 0%nat = Some (Invocation [(2, 0)%Z; (0, 1)%Z] 3 ∅).
Proof.
  eexists _, _. split; [vm_compute; reflexivity | reflexivity].
Qed.

(** C10, at a failing input: two calls [p_saturation(Plist, 3, sieve=False)]
    that leave [lin_combs] to its default, first on [[P]], then on [[3P]].
    The first call stores [P] under [(1,)] in the default dict.  The second
    finds it there and tests [P] instead of [3P]: it answers [(True, _)],
    whereas the same call made first answers [(False, 0, P)]. *)
Theorem default_cache_is_shared_between_calls :
  let h0 : heap Lattice.point := caller_heap [[(1, 0)%Z]; [(3, 0)%Z]] [] in
  exists h1 h2 h2',
    Run.p_saturation_default_free 0 h0 0 3 false = Some (Ok Saturated, h1)
    /\ h_dicts h1 !! default_lin_combs_p_saturation = Some {[ [1%Z] := (1, 0)%Z ]}
    /\ Run.p_saturation_default_free 0 h1 1 3 false = Some (Ok Saturated, h2)
    /\ Run.p_saturation_default_free 0 h0 1 3 false
       = Some (Ok (NotSaturated 0 (1, 0)%Z), h2').
Proof.
  intros h0. eexists _, _, _.
  split; [vm_compute; reflexivity|].
  split; [reflexivity|].
  split; vm_compute; reflexivity.
Qed.
(** ** Saturated points *)

Section ModuleAlgebra.
Context {Point : Type} `{CurveOps Point}.
Hypothesis laws : curve_laws Point.

Lemma add_zero_r (P : Point) : add P E0 = P.
Proof. rewrite (add_comm laws). apply (add_zero laws). Qed.

Lemma add_neg (P : Point) : add P (smul (-1) P) = E0.
Proof.
  rewrite <- (smul_one laws P) at 1. rewrite <- (smul_plus laws).
  apply (smul_zero laws).
Qed.

Lemma add_cancel_r (A B X : Point) : add A X = add B X -> A = B.
Proof.
  intros HAB.
  rewrite <- (add_zero_r A), <- (add_zero_r B), <- (add_neg X).
  rewrite <- !(add_assoc laws). rewrite HAB. reflexivity.
Qed.

Lemma smul_E0 (a : Z) : smul a E0 = E0.
Proof.
  apply (add_cancel_r _ _ (smul a E0)).
  rewrite <- (smul_add laws). rewrite !(add_zero laws). reflexivity.
Qed.

Lemma iter_add_smul (P : Point) (n : nat) :
  Nat.iter n (fun Q => add Q P) E0 = smul (Z.of_nat n) P.
Proof.
  induction n as [|n IH]; [symmetry; apply (smul_zero laws)|].
  rewrite Nat2Z.inj_succ. unfold Z.succ. rewrite (smul_plus laws), (smul_one laws).
  simpl. rewrite IH. reflexivity.
Qed.

Lemma multiple_smul (k : Z) (P : Point) : (0 <= k)%Z -> multiple k P = smul k P.
Proof.
  intros Hk. unfold multiple. rewrite iter_add_smul. rewrite Z2Nat.id by exact Hk.
  reflexivity.
Qed.

(** A sum from the left is a sum from the right. *)
Lemma fold_left_add (l : list Point) (a : Point) :
  fold_left add l a = add a (fold_right add E0 l).
Proof.
  revert a. induction l as [|x l IH]; intros a; simpl.
  - symmetry. apply add_zero_r.
  - rewrite IH. apply (add_assoc laws).
Qed.

Lemma py_sum_fold_right (l : list Point) : py_sum l E0 = fold_right add E0 l.
Proof. unfold py_sum. rewrite fold_left_add. apply (add_zero laws). Qed.

Lemma combination_lin (w : list Z) (Pl : list Point) :
  Forall (fun x => 0 <= x)%Z w -> combination w Pl = lin w Pl.
Proof.
  intros Hw. unfold combination, lin. rewrite py_sum_fold_right. f_equal.
  revert Pl. induction Hw as [|x w Hx _ IH]; intros [|P Pl]; simpl; try reflexivity.
  rewrite (multiple_smul x P Hx), IH. reflexivity.
Qed.

Lemma kernel_points_lin (V : list (list Z)) (Pl : list Point) :
  kernel_points V Pl = map (fun v => lin v Pl) V.
Proof.
  unfold kernel_points. apply map_ext. intros v.
  rewrite py_sum_fold_right. unfold lin. f_equal.
  revert Pl. induction v as [|x v IH]; intros [|P Pl]; simpl; try reflexivity.
  rewrite IH. reflexivity.
Qed.

Lemma lin_add (c c' : list Z) (Pl : list Point) :
  length c = length c' ->
  lin (zip_with Z.add c c') Pl = add (lin c Pl) (lin c' Pl).
Proof.
  revert c' Pl. induction c as [|x c IH]; intros [|x' c'] Pl Hl;
    try discriminate.
  - unfold lin. simpl. symmetry. apply (add_zero laws).
  - destruct Pl as [|P Pl].
    + unfold lin. simpl. symmetry. apply (add_zero laws).
    + unfold lin in *. simpl. rewrite IH by (simpl in Hl; lia).
      rewrite (smul_plus laws).
      rewrite !(add_assoc laws). f_equal.
      rewrite <- !(add_assoc laws). f_equal. apply (add_comm laws).
Qed.

Lemma lin_scale (a : Z) (c : list Z) (Pl : list Point) :
  lin (map (Z.mul a) c) Pl = smul a (lin c Pl).
Proof.
  revert Pl. induction c as [|x c IH]; intros Pl.
  - unfold lin. simpl. symmetry. apply smul_E0.
  - destruct Pl as [|P Pl]; [unfold lin; simpl; symmetry; apply smul_E0|].
    unfold lin in *. simpl. rewrite IH.
    rewrite (smul_add laws), (smul_times laws). reflexivity.
Qed.

Lemma lin_zeros (n : nat) (Pl : list Point) : lin (replicate n 0%Z) Pl = E0.
Proof.
  revert Pl. induction n as [|n IH]; intros [|P Pl]; try reflexivity.
  unfold lin in *. simpl. rewrite IH, (smul_zero laws). apply (add_zero laws).
Qed.

Lemma vec_comb_length (n : nat) (w : list Z) (V : list (list Z)) :
  Forall (fun v => length v = n) V -> length (vec_comb n w V) = n.
Proof.
  intros HV. revert w. induction HV as [|v V Hv _ IH]; intros [|a w];
    unfold vec_comb; simpl; try apply length_replicate.
  fold (vec_comb n w V). rewrite length_zip_with, length_map, IH, Hv. lia.
Qed.

(** A combination of combinations is the combination with the combined
    coefficients. *)
Lemma lin_vec_comb (n : nat) (w : list Z) (V : list (list Z)) (Pl : list Point) :
  Forall (fun v => length v = n) V ->
  lin (vec_comb n w V) Pl = lin w (map (fun v => lin v Pl) V).
Proof.
  intros HV. revert w. induction HV as [|v V Hv HV IH]; intros [|a w];
    try (unfold vec_comb; simpl; apply lin_zeros).
  unfold vec_comb. simpl. fold (vec_comb n w V).
  rewrite lin_add by (rewrite length_map, vec_comb_length by exact HV; exact Hv).
  rewrite lin_scale, IH. reflexivity.
Qed.

(** From [lin u + p*T = p*D] to the divisibility of [lin u]. *)
Lemma p_divisible_cancel (p : Z) (U T D : Point) :
  add U (smul p T) = smul p D -> p_divisible p U.
Proof.
  intros HU. exists (add D (smul (-1) T)).
  rewrite (smul_add laws), <- HU.
  rewrite <- (smul_times laws). replace (p * -1)%Z with (-1 * p)%Z by lia.
  rewrite (smul_times laws), (add_assoc laws), add_neg. apply add_zero_r.
Qed.
End ModuleAlgebra.

(** ** Normal forms modulo a prime *)

Lemma last_nonzero_split (p : Z) (c : list Z) :
  ~ Forall (fun x => x mod p = 0)%Z c ->
  exists v x zs, c = v ++ x :: zs /\ (x mod p <> 0)%Z
                 /\ Forall (fun y => y mod p = 0)%Z zs.
Proof.
  induction c as [|a c IH]; intros Hc; [exfalso; apply Hc; constructor|].
  destruct (decide (Forall (fun x => x mod p = 0)%Z c)) as [Hall|Hnot].
  - exists [], a, c. split; [reflexivity|]. split; [|exact Hall].
    intros Ha. apply Hc. constructor; assumption.
  - destruct (IH Hnot) as (v & x & zs & -> & Hx & Hzs).
    exists (a :: v), x, zs. split; [reflexivity|]. split; assumption.
Qed.

Lemma mod_inverse (p x : Z) :
  Z.prime p -> (x mod p <> 0)%Z -> exists s, ((s * x) mod p = 1)%Z.
Proof.
  intros Hp Hx. pose proof (Z.prime_ge_2 p Hp) as Hp2.
  assert (Hnd : ~ (p | x)%Z).
  { intros Hd. apply Hx. apply Z.mod_divide; [lia | exact Hd]. }
  destruct (Z.Bezout_coprime p x (Z.coprime_prime_l p x Hp Hnd)) as (u & s & Hus).
  exists s. replace (s * x)%Z with (1 + (- u) * p)%Z by lia.
  rewrite Z.mod_add by lia. apply Z.mod_small. lia.
Qed.

(** A vector that is not zero modulo the prime [p] has a multiple that is,
    modulo [p], a point of projective space in normal form. *)
Lemma normal_form_exists (p : Z) (c : list Z) :
  Z.prime p ->
  ~ Forall (fun x => x mod p = 0)%Z c ->
  exists s u t, normalized p (length c) u
                /\ length u = length t
                /\ map (Z.mul s) c = zip_with Z.add u (map (Z.mul p) t).
Proof.
  intros Hp Hc. pose proof (Z.prime_ge_2 p Hp) as Hp2.
  destruct (last_nonzero_split p c Hc) as (v & x & zs & Hsplit & Hx & Hzs).
  destruct (mod_inverse p x Hp Hx) as (s & Hs).
  exists s, (map (fun y => (s * y) mod p)%Z c), (map (fun y => (s * y) / p)%Z c).
  split; [|split].
  - exists (map (fun y => (s * y) mod p)%Z v), (length zs).
    split; [|split].
    + rewrite Hsplit, map_app. simpl. rewrite Hs. f_equal. f_equal.
      clear -Hzs Hp2. induction Hzs as [|y zs Hy _ IH]; simpl; [reflexivity|].
      rewrite IH. f_equal.
      rewrite <- Z.mul_mod_idemp_r by lia. rewrite Hy, Z.mul_0_r.
      apply Z.mod_0_l. lia.
    + apply length_map.
    + apply Forall_forall. intros y Hy. apply list_elem_of_In, in_map_iff in Hy as (z & <- & _).
      apply Z.mod_pos_bound. lia.
  - rewrite !length_map. reflexivity.
  - clear -Hp2. induction c as [|y c IH]; simpl; [reflexivity|].
    f_equal; [|exact IH].
    pose proof (Z.div_mod (s * y) p ltac:(lia)) as Hdm. lia.
Qed.

Lemma normalized_nonneg (p : Z) (n : nat) (w : list Z) :
  (2 <= p)%Z -> normalized p n w -> Forall (fun x => 0 <= x)%Z w.
Proof.
  intros Hp Hw. eapply Forall_impl; [exact (normalized_range p n w Hp Hw)|].
  simpl. intros x Hx. lia.
Qed.

Section SaturationTransfer.
Context {Point : Type} `{CurveOps Point}.
Hypothesis laws : curve_laws Point.

(** If a combination of [Plist] with integer coefficients that are not all
    zero modulo the prime [p] is divisible by [p], so is a combination
    whose coefficient tuple is in normal form. *)
Lemma divisible_normal_form (p : Z) (c : list Z) (Plist : list Point) :
  Z.prime p ->
  length c = length Plist ->
  ~ Forall (fun x => x mod p = 0)%Z c ->
  p_divisible p (lin c Plist) ->
  exists u, normalized p (length Plist) u /\ p_divisible p (combination u Plist).
Proof.
  intros Hp Hl Hc [D HD]. pose proof (Z.prime_ge_2 p Hp) as Hp2.
  destruct (normal_form_exists p c Hp Hc) as (s & u & t & Hu & Hut & Hdec).
  rewrite Hl in Hu. exists u. split; [exact Hu|].
  rewrite (combination_lin laws).
  2:{ exact (normalized_nonneg p _ u Hp2 Hu). }
  apply (p_divisible_cancel laws p _ (lin t Plist) (smul s D)).
  rewrite <- (lin_scale laws), <- (lin_add laws) by (rewrite length_map; exact Hut).
  rewrite <- Hdec, (lin_scale laws), <- HD.
  rewrite <- !(smul_times laws). f_equal. lia.
Qed.

(** The points that a basis of a kernel picks out of a [p]-saturated list
    are [p]-saturated. *)
Lemma kernel_points_saturated (p : Z) (V : list (list Z)) (Plist : list Point) :
  Z.prime p ->
  kernel_ok p (length Plist) V ->
  p_saturated Plist p ->
  p_saturated (kernel_points V Plist) p.
Proof.
  intros Hp [HV Hind] Hsat w Hw Hdiv. pose proof (Z.prime_ge_2 p Hp) as Hp2.
  rewrite (kernel_points_lin laws) in Hw, Hdiv. rewrite length_map in Hw.
  rewrite (combination_lin laws) in Hdiv.
  2:{ exact (normalized_nonneg p _ w Hp2 Hw). }
  rewrite <- (lin_vec_comb laws (length Plist)) in Hdiv by exact HV.
  destruct (decide (Forall (fun x => x mod p = 0)%Z (vec_comb (length Plist) w V)))
    as [Hzero|Hnz].
  - apply Hind in Hzero; [|apply (normalized_length p); exact Hw].
    pose proof (normalized_has_one p _ w Hw) as H1.
    rewrite Forall_forall in Hzero. specialize (Hzero 1%Z (proj2 (list_elem_of_In _ _) H1)).
    rewrite Z.mod_small in Hzero by lia. discriminate.
  - destruct (divisible_normal_form p _ Plist Hp
                (vec_comb_length _ w V HV) Hnz Hdiv) as (u & Hu & Hud).
    exact (Hsat u Hu Hud).
Qed.
End SaturationTransfer.

Section SaturatedPass.
Context {Point Grp FPoint Fq : Type}
        `{CurveOps Point} `{ReductionOps Grp FPoint Fq}
        `{SieveOps Point Grp FPoint} `{LinAlgOps}.
Hypothesis laws : curve_laws Point.

Lemma p_saturated_no_division_points (Plist : list Point) (p : Z) (w : list Z) :
  (0 < p)%Z -> p_saturated Plist p -> normalized p (length Plist) w ->
  division_points (combination w Plist) p = [].
Proof.
  intros Hpos Hsat Hw.
  destruct (division_points (combination w Plist) p) as [|D others] eqn:Hd;
    [reflexivity|].
  exfalso. apply (Hsat w Hw). exists D.
  apply (division_points_spec laws); [exact Hpos|]. rewrite Hd. left. reflexivity.
Qed.

(** The search without sieve lets a [p]-saturated list pass. *)
Lemma saturated_passes_exhaustive (Plist : list Point) (p : Z) (c : cache Point) :
  (2 <= p)%Z -> p_saturated Plist p -> cache_coherent Plist c ->
  exists c', p_saturation_nosieve Plist p c = (Ok Saturated, c').
Proof.
  intros Hp Hsat Hc. unfold p_saturation_nosieve.
  destruct Plist as [|P0 Plist]; [exists c; reflexivity|].
  destruct (decide (length (P0 :: Plist) = 1%nat /\ p = 2%Z)) as [[Hl ->]|Hgen].
  - destruct Plist; [|discriminate]. exists c.
    unfold p_saturation_head. simpl.
    assert (Hd : division_points P0 2 = []).
    { rewrite <- (p_saturated_no_division_points [P0] 2 [1%Z] ltac:(lia) Hsat).
      - f_equal. unfold combination, py_sum, multiple. simpl.
        rewrite !(add_zero laws). reflexivity.
      - exists [], 0%nat. split; [reflexivity|]. split; [reflexivity | constructor]. }
    rewrite Hd. reflexivity.
  - rewrite p_saturation_head_general by (congruence || exact Hgen).
    unfold exhaustive_search.
    destruct (mults_tables (P0 :: Plist) p) as [tables|e] eqn:Ht.
    2:{ destruct (exists_last (l := P0 :: Plist)) as (front & Plast & HP);
          [discriminate|].
        rewrite HP, mults_tables_snoc in Ht. discriminate. }
    set (tuples := ProjectiveSpace p (length (P0 :: Plist) - 1)).
    assert (Hnorm : forall w, In w tuples -> normalized p (length (P0 :: Plist)) w).
    { intros w Hw. apply ProjectiveSpace_In in Hw.
      replace (S (length (P0 :: Plist) - 1)) with (length (P0 :: Plist)) in Hw
        by (simpl; lia).
      exact Hw. }
    destruct (exhaustive_loop_prefix tables p (P0 :: Plist) tuples [] c)
      as (c' & _ & _ & _ & Hloop).
    + intros u Hu. apply (table_sum_normalized p); [exact Hp | exact Ht|].
      apply Hnorm, Hu.
    + intros u Hu. apply p_saturated_no_division_points; [lia | exact Hsat|].
      apply Hnorm, Hu.
    + exact Hc.
    + exists c'. rewrite app_nil_r in Hloop. exact Hloop.
Qed.

(** Hence the check of a kernel answers [True] on a [p]-saturated list. *)
Lemma kernel_check_saturated (Plist : list Point) (p : Z) (A : list (list Z)) :
  Z.prime p -> p_saturated Plist p ->
  kernel_ok p (length Plist) (right_kernel_basis p (length Plist) A) ->
  kernel_check Plist p A = Ok Saturated.
Proof.
  intros Hp Hsat Hker. unfold kernel_check.
  destruct (saturated_passes_exhaustive
              (kernel_points (right_kernel_basis p (length Plist) A) Plist) p ∅)
    as (c' & Hrun).
  - apply Z.prime_ge_2, Hp.
  - apply (kernel_points_saturated laws); assumption.
  - apply cache_coherent_empty.
  - rewrite Hrun. reflexivity.
Qed.

(** The rows that a reduction contributes have one entry for each point. *)
Lemma p_projections_length (G : Grp) (Pl : list FPoint) (p : Z) (debug : bool)
    (vecs : list (list Z)) :
  p_projections G Pl p debug = Ok vecs ->
  Forall (fun v => length v = length Pl) vecs.
Proof.
  unfold p_projections.
  destruct (_ =? _)%Z; [intros [= <-]; constructor|].
  destruct (length _ =? 1)%nat.
  - destruct (py_getitem _ 0); simpl; [|discriminate].
    match goal with |- context [res_map ?f ?l] => destruct (res_map f l) eqn:Hv end;
      simpl; [|discriminate].
    intros [= <-]. apply res_map_length in Hv. rewrite length_map in Hv.
    repeat constructor. unfold vector_mod. rewrite length_map. exact Hv.
  - destruct (py_min _); simpl; [|discriminate].
    destruct (py_max _); simpl; [|discriminate].
    destruct (List.filter _ _) as [|g1 [|g2 [|g3 gs]]]; try discriminate.
    destruct (weil_pairing g1 g2 _); simpl; [|discriminate].
    destruct (negb _); [discriminate|].
    match goal with |- context [res_map ?f ?l ≫= _] =>
      destruct (res_map f l) eqn:Hv1 end; simpl; [|discriminate].
    match goal with |- context [res_map ?f ?l ≫= _] =>
      destruct (res_map f l) eqn:Hv2 end; simpl; [|discriminate].
    intros [= <-]. apply res_map_length in Hv1, Hv2.
    rewrite length_map in Hv1, Hv2.
    repeat constructor; unfold vector_mod; rewrite length_map; assumption.
Qed.

Lemma place_rows_length (Plist : list Point) (p : Z) (qa : Z * Z)
    (vecs : list (list Z)) :
  place_rows Plist p qa = Ok vecs ->
  Forall (fun v => length v = length Plist) vecs.
Proof.
  unfold place_rows, projections_with_retry.
  destruct (p_projections _ _ p false) as [vs|e] eqn:Hfirst; simpl.
  - intros [= <-]. apply p_projections_length in Hfirst.
    rewrite length_map in Hfirst. exact Hfirst.
  - destruct e; simpl; try discriminate.
    destruct (p_projections _ _ p true) as [vs|e] eqn:Hsecond; simpl.
    + intros [= <-]. apply p_projections_length in Hsecond.
      rewrite length_map in Hsecond. exact Hsecond.
    + destruct e; simpl; try discriminate. intros [= <-]. constructor.
Qed.

Section Termination.
Variables (Plist : list Point) (p : Z).
Hypothesis Hp : Z.prime p.
Hypothesis Hsat : p_saturated Plist p.
Hypothesis rank_mono :
  forall A rows, (mat_rank p A <= mat_rank p (A ++ rows))%nat.
Hypothesis rank_bound :
  forall A, Forall (fun r => length r = length Plist) A ->
            (mat_rank p A <= length Plist)%nat.
Hypothesis kernel_basis_ok :
  forall A, kernel_ok p (length Plist) (right_kernel_basis p (length Plist) A).

Lemma sieve_body_skip (q amodq : Z) (st : sieve_state) :
  has_p_torsion p (q, amodq) = false ->
  sieve_body Plist p q amodq st = Continue st.
Proof.
  unfold has_p_torsion, sieve_body. simpl. intros ->. reflexivity.
Qed.

Lemma sieve_body_progress (q amodq : Z) (st : sieve_state)
    (vecs : list (list Z)) :
  sieve_inv Plist p st ->
  has_p_torsion p (q, amodq) = true ->
  place_rows Plist p (q, amodq) = Ok vecs ->
  sieve_body Plist p q amodq st = Return (Ok Saturated)
  \/ exists st', sieve_body Plist p q amodq st = Continue st'
                 /\ sieve_inv Plist p st'
                 /\ (sieve_measure Plist st' < sieve_measure Plist st)%nat.
Proof.
  intros (Hle & Hlt & Hcount & Hrows) Htors Hvecs.
  pose proof (place_rows_length _ _ _ _ Hvecs) as Hlen.
  unfold has_p_torsion in Htors. unfold place_rows in Hvecs. simpl in Htors, Hvecs.
  unfold sieve_body. rewrite Htors. simpl. rewrite Hvecs.
  assert (Hrows' : Forall (fun r => length r = length Plist) (sv_A st ++ vecs)).
  { apply Forall_app. split; assumption. }
  pose proof (rank_mono (sv_A st) vecs) as Hmono.
  pose proof (rank_bound _ Hrows') as Hbound.
  destruct (mat_rank p (sv_A st ++ vecs) =? length Plist)%nat eqn:Hfull;
    [left; reflexivity|].
  apply Nat.eqb_neq in Hfull.
  destruct (mat_rank p (sv_A st ++ vecs) =? sv_rankA st)%nat eqn:Hsame.
  - apply Nat.eqb_eq in Hsame.
    change (S (sv_count st) =? 10)%nat with (sv_count st =? 9)%nat.
    destruct (sv_count st =? 9)%nat eqn:Hten.
    + left. rewrite kernel_check_saturated by auto. reflexivity.
    + apply Nat.eqb_neq in Hten. right. eexists. split; [reflexivity|].
      unfold sieve_inv, sieve_measure. simpl. repeat split; try lia. exact Hrows'.
  - apply Nat.eqb_neq in Hsame. right. eexists. split; [reflexivity|].
    unfold sieve_inv, sieve_measure. simpl. repeat split; try lia. exact Hrows'.
Qed.

(** Enough reductions that tell something make the sieve answer. *)
Lemma sieve_steps_saturated (places : list (Z * Z)) (st : sieve_state) :
  sieve_inv Plist p st ->
  Forall (fun qa => has_p_torsion p qa = true ->
                    exists vecs, place_rows Plist p qa = Ok vecs) places ->
  (sieve_measure Plist st <= length (List.filter (has_p_torsion p) places))%nat ->
  sieve_steps Plist p places st = Return (Ok Saturated).
Proof.
  intros Hinv Hok. revert st Hinv.
  induction Hok as [|[q a] places Hqa _ IH]; intros st Hinv Hm.
  - destruct Hinv as (_ & Hlt & Hcount & _).
    unfold sieve_measure in Hm. simpl in Hm. lia.
  - simpl in Hm. simpl.
    destruct (has_p_torsion p (q, a)) eqn:Ht.
    + destruct (Hqa eq_refl) as (vecs & Hvecs).
      destruct (sieve_body_progress q a st vecs Hinv Ht Hvecs)
        as [->|(st' & -> & Hinv' & Hlt)]; [reflexivity|].
      apply IH; [exact Hinv'|]. simpl in Hm. lia.
    + rewrite (sieve_body_skip q a st Ht). apply IH; assumption.
Qed.
End Termination.

Lemma sieve_schedule_app (Plist : list Point) (i n k : nat) :
  sieve_schedule Plist i (n + k)
  = sieve_schedule Plist i n ++ sieve_schedule Plist (i + n) k.
Proof.
  unfold sieve_schedule. rewrite seq_app, flat_map_app. reflexivity.
Qed.

(** C9.  Let the points be [p]-saturated: no combination of them whose
    coefficient tuple is a point of projective space over [GF(p)] is
    divisible by [p] in the group.  Then [p_saturation], started with an
    empty dict, answers [(True, _)] with either strategy.  For the sieve
    this is under the conditions it works on: [p] is prime; the rank does
    not drop when rows are added and is at most the number of columns; the
    basis of a kernel is made of independent vectors; and among the first
    [N] primes the reductions that are used give their rows without a
    failure and [10*n] of them have [p] dividing the order of the reduced
    curve.  [N] primes are then enough. *)
Theorem saturated_points_pass (N : nat) (Plist : list Point) (p : Z) :
  Z.prime p ->
  p_saturated Plist p ->
  (forall A rows, (mat_rank p A <= mat_rank p (A ++ rows))%nat) ->
  (forall A, Forall (fun r => length r = length Plist) A ->
             (mat_rank p A <= length Plist)%nat) ->
  (forall A, kernel_ok p (length Plist) (right_kernel_basis p (length Plist) A)) ->
  Forall (fun qa => has_p_torsion p qa = true ->
                    exists vecs, place_rows Plist p qa = Ok vecs)
         (sieve_schedule Plist 0 N) ->
  (10 * length Plist
   <= length (List.filter (has_p_torsion p) (sieve_schedule Plist 0 N)))%nat ->
  (forall fuel, exists c',
      p_saturation fuel Plist p false ∅ = Some (Ok Saturated, c'))
  /\ (forall fuel, (N <= fuel)%nat ->
      p_saturation fuel Plist p true ∅ = Some (Ok Saturated, ∅)).
Proof.
  intros Hp Hsat Hmono Hbound Hker Hok Hmany.
  pose proof (Z.prime_ge_2 p Hp) as Hp2.
  destruct (saturated_passes_exhaustive Plist p ∅ Hp2 Hsat
              (cache_coherent_empty Plist)) as (c0 & Hex).
  split.
  - intros fuel. exists c0. rewrite p_saturation_sieve_false, Hex. reflexivity.
  - intros fuel Hfuel. unfold p_saturation.
    unfold p_saturation_nosieve in Hex.
    destruct (p_saturation_head Plist p) as [r|] eqn:Hhead.
    + injection Hex as -> _. reflexivity.
    + simpl. unfold sieve_search. rewrite sieve_primes_schedule.
      replace fuel with (N + (fuel - N))%nat by lia.
      rewrite sieve_schedule_app, sieve_steps_app.
      rewrite (sieve_steps_saturated Plist p Hp Hsat Hmono Hbound Hker).
      * reflexivity.
      * unfold sieve_inv. simpl. repeat split; try lia; [|constructor].
        destruct Plist; [discriminate | simpl; lia].
      * exact Hok.
      * unfold sieve_measure. simpl. lia.
Qed.
End SaturatedPass.

(** ** Gaussian elimination: the rank *)

Module GaussFacts.
Import Gauss.

Lemma entry_row_sub_mul (p : Z) (r b : list Z) (k : Z) (i : nat) :
  length r = length b ->
  entry (row_sub_mul p r b k) i = ((entry r i - k * entry b i) mod p)%Z.
Proof.
  intros Hl. unfold entry, row_sub_mul. rewrite lookup_zip_with.
  destruct (r !! i) as [x|] eqn:Hr; simpl.
  - destruct (b !! i) as [y|] eqn:Hb; simpl; [reflexivity|].
    apply lookup_lt_Some in Hr. apply lookup_ge_None in Hb. lia.
  - destruct (b !! i) as [y|] eqn:Hb; simpl.
    + apply lookup_lt_Some in Hb. apply lookup_ge_None in Hr. lia.
    + rewrite Z.mul_0_r. reflexivity.
Qed.

Lemma length_row_sub_mul (p : Z) (r b : list Z) (k : Z) :
  length r = length b -> length (row_sub_mul p r b k) = length r.
Proof. intros Hl. unfold row_sub_mul. rewrite length_zip_with. lia. Qed.

Lemma entry_scale (p k : Z) (r : list Z) (i : nat) :
  entry (map (fun x => (x * k) mod p)%Z r) i = ((entry r i * k) mod p)%Z.
Proof.
  unfold entry. rewrite list_lookup_fmap. destruct (r !! i); reflexivity.
Qed.

Lemma leading_spec (r : list Z) (c : nat) :
  leading r = Some c -> (c < length r)%nat /\ entry r c <> 0%Z.
Proof.
  revert c. induction r as [|x r IH]; intros c; simpl; [discriminate|].
  destruct (x =? 0)%Z eqn:Hx.
  - destruct (leading r) as [c'|]; simpl; [|discriminate].
    intros [= <-]. destruct (IH c' eq_refl) as [Hlt Hne].
    split; [lia | exact Hne].
  - intros [= <-]. apply Z.eqb_neq in Hx. split; [lia | exact Hx].
Qed.

Lemma length_reduce_by (p : Z) (n : nat) (basis : list (nat * list Z)) (r : list Z) :
  Forall (fun cb => (cb.1 < n)%nat /\ length cb.2 = n) basis ->
  length r = n -> length (reduce_by p basis r) = n.
Proof.
  intros Hb. revert r. induction Hb as [|cb basis [_ Hcb] _ IH]; intros r Hr;
    [exact Hr|].
  simpl. apply IH. rewrite length_row_sub_mul; lia.
Qed.

(** A column in which the row and the basis vanish stays zero. *)
Lemma reduce_by_keeps_zero (p : Z) (n : nat) (basis : list (nat * list Z))
    (r : list Z) (i : nat) :
  Forall (fun cb => (cb.1 < n)%nat /\ length cb.2 = n) basis ->
  length r = n ->
  (forall cb, In cb basis -> entry cb.2 i = 0%Z) ->
  entry r i = 0%Z ->
  entry (reduce_by p basis r) i = 0%Z.
Proof.
  intros Hb. revert r. induction Hb as [|cb basis [_ Hcb] _ IH]; intros r Hr Hz Hri;
    [exact Hri|].
  simpl. apply IH.
  - rewrite length_row_sub_mul; lia.
  - intros cb' Hin. apply Hz. right. exact Hin.
  - rewrite entry_row_sub_mul by lia.
    rewrite Hri, (Hz cb) by (left; reflexivity).
    rewrite Z.mul_0_r. reflexivity.
Qed.

(** After the reduction the row vanishes in the columns of the basis. *)
Lemma reduce_by_zero (p : Z) (n : nat) (basis : list (nat * list Z)) (r : list Z) :
  reduced n basis -> length r = n ->
  forall cb, In cb basis -> entry (reduce_by p basis r) cb.1 = 0%Z.
Proof.
  intros (Hnd & Hb & Hdelta). revert r Hnd Hdelta.
  induction Hb as [|cb0 basis [Hc0 Hcb0] Hb IH]; intros r Hnd Hdelta Hr cb Hin;
    [destruct Hin|].
  simpl in Hnd. apply NoDup_cons in Hnd as [Hnotin Hnd].
  simpl. destruct Hin as [<-|Hin].
  - apply (reduce_by_keeps_zero p n); [exact Hb | rewrite length_row_sub_mul; lia | |].
    + intros cb' Hin'. rewrite (Hdelta cb0 cb') by (simpl; tauto).
      destruct (decide (cb0.1 = cb'.1)) as [Heq|]; [|reflexivity].
      exfalso. apply Hnotin. rewrite Heq. apply list_elem_of_In, in_map, Hin'.
    + rewrite entry_row_sub_mul by lia.
      rewrite (Hdelta cb0 cb0) by (simpl; tauto).
      destruct (decide (cb0.1 = cb0.1)); [|congruence].
      rewrite Z.mul_1_r, Z.sub_diag. reflexivity.
  - apply IH; [exact Hnd | | rewrite length_row_sub_mul; lia | exact Hin].
    intros cb1 cb2 H1 H2. apply Hdelta; simpl; tauto.
Qed.

Lemma mod_inv_spec (p x : Z) :
  Z.prime p -> (x mod p <> 0)%Z -> ((x * mod_inv p x) mod p = 1)%Z.
Proof.
  intros Hp Hx. pose proof (Z.prime_ge_2 p Hp) as Hp2.
  destruct (mod_inverse p x Hp Hx) as (s & Hs). unfold mod_inv.
  destruct (List.find _ (GF_elements p)) as [k|] eqn:Hfind; simpl.
  - apply find_some in Hfind as [_ Hk]. apply Z.eqb_eq, Hk.
  - exfalso.
    assert (Hk : ((x * (s mod p)) mod p =? 1)%Z = false).
    { apply (find_none _ _ Hfind (s mod p)%Z).
      apply GF_elements_In. apply Z.mod_pos_bound. lia. }
    apply Z.eqb_neq in Hk. apply Hk.
    rewrite Z.mul_mod_idemp_r by lia. rewrite Z.mul_comm. exact Hs.
Qed.

Lemma entry_vector_mod (p : Z) (r : list Z) (i : nat) :
  (0 < p)%Z -> (0 <= entry (vector_mod p r) i < p)%Z.
Proof.
  intros Hp. unfold entry, vector_mod. rewrite list_lookup_fmap.
  destruct (r !! i); simpl; [apply Z.mod_pos_bound; lia | lia].
Qed.

Lemma reduce_by_range (p : Z) (n : nat) (basis : list (nat * list Z)) (r : list Z) :
  (0 < p)%Z ->
  Forall (fun cb => (cb.1 < n)%nat /\ length cb.2 = n) basis ->
  length r = n ->
  (forall i, 0 <= entry r i < p)%Z ->
  forall i, (0 <= entry (reduce_by p basis r) i < p)%Z.
Proof.
  intros Hp Hb. revert r. induction Hb as [|cb basis [_ Hcb] _ IH]; intros r Hr Hrange;
    [exact Hrange|].
  simpl. apply IH; [rewrite length_row_sub_mul; lia|].
  intros i. rewrite entry_row_sub_mul by lia. apply Z.mod_pos_bound. lia.
Qed.

(** Adding a row keeps the basis reduced. *)
Lemma add_row_reduced (p : Z) (n : nat) (basis : list (nat * list Z)) (r : list Z) :
  Z.prime p -> reduced n basis -> length r = n ->
  reduced n (add_row p basis r).
Proof.
  intros Hp Hred Hr. pose proof (Z.prime_ge_2 p Hp) as Hp2.
  pose proof Hred as (Hnd & Hb & Hdelta).
  unfold add_row.
  set (r' := reduce_by p basis (vector_mod p r)).
  assert (Hr' : length r' = n).
  { apply (length_reduce_by p n); [exact Hb|]. unfold vector_mod. rewrite length_map. exact Hr. }
  assert (Hzero : forall cb, In cb basis -> entry r' cb.1 = 0%Z).
  { apply (reduce_by_zero p n); [exact Hred|]. unfold vector_mod. rewrite length_map. exact Hr. }
  assert (Hrange : forall i, (0 <= entry r' i < p)%Z).
  { apply (reduce_by_range p n); [lia | exact Hb | |].
    - unfold vector_mod. rewrite length_map. exact Hr.
    - intros i. apply entry_vector_mod. lia. }
  destruct (leading r') as [c|] eqn:Hlead; [|exact Hred].
  destruct (leading_spec r' c Hlead) as [Hc Hne].
  set (k := mod_inv p (entry r' c)).
  set (b := map (fun x => (x * k) mod p)%Z r').
  assert (Hb_len : length b = n) by (unfold b; rewrite length_map; exact Hr').
  assert (Hbc : entry b c = 1%Z).
  { unfold b. rewrite entry_scale. apply mod_inv_spec; [exact Hp|].
    rewrite Z.mod_small by apply Hrange. exact Hne. }
  assert (Hb_old : forall cb, In cb basis -> entry b cb.1 = 0%Z).
  { intros cb Hin. unfold b. rewrite entry_scale, (Hzero cb Hin).
    rewrite Z.mul_0_l. apply Z.mod_0_l. lia. }
  assert (Hfresh : ~ In c (map fst basis)).
  { intros Hin. apply in_map_iff in Hin as (cb & <- & Hin).
    apply Hne, Hzero, Hin. }
  set (upd := fun cb : nat * list Z =>
                (cb.1, row_sub_mul p cb.2 b (entry cb.2 c))).
  assert (Hfst : map fst (map upd basis) = map fst basis).
  { rewrite map_map. apply map_ext. intros cb. reflexivity. }
  split; [|split].
  - rewrite map_app, Hfst. simpl. apply NoDup_app. split; [exact Hnd|].
    split; [|apply NoDup_singleton].
    intros x Hx Hx'. apply list_elem_of_In in Hx. apply list_elem_of_In in Hx'.
    destruct Hx' as [<-|[]]. apply Hfresh, Hx.
  - apply Forall_app. split.
    + apply Forall_forall. intros cb Hcb. apply list_elem_of_In, in_map_iff in Hcb
        as (cb0 & <- & Hin). rewrite Forall_forall in Hb.
      destruct (Hb cb0 (proj2 (list_elem_of_In _ _) Hin)) as [H1 H2].
      simpl. split; [exact H1|]. rewrite length_row_sub_mul; lia.
    + constructor; [|constructor]. simpl. split; [lia | exact Hb_len].
  - assert (Hlen : forall cb, In cb basis -> length cb.2 = length b).
    { intros cb Hin. rewrite Forall_forall in Hb.
      destruct (Hb cb (proj2 (list_elem_of_In _ _) Hin)) as [_ H2]. lia. }
    intros cb cb' Hin Hin'.
    apply in_app_or in Hin, Hin'.
    destruct Hin as [Hin|[<-|[]]]; destruct Hin' as [Hin'|[<-|[]]].
    + apply in_map_iff in Hin as (cb0 & <- & Hin).
      apply in_map_iff in Hin' as (cb1 & <- & Hin'). simpl.
      rewrite entry_row_sub_mul by (apply Hlen; exact Hin').
      rewrite (Hb_old cb0 Hin), Z.mul_0_r, Z.sub_0_r.
      rewrite (Hdelta cb0 cb1 Hin Hin').
      destruct (decide (cb0.1 = cb1.1)); apply Z.mod_small; lia.
    + apply in_map_iff in Hin as (cb0 & <- & Hin). simpl.
      rewrite (Hb_old cb0 Hin).
      destruct (decide (cb0.1 = c)) as [Heq|]; [|reflexivity].
      exfalso. apply Hfresh. rewrite <- Heq. apply in_map, Hin.
    + apply in_map_iff in Hin' as (cb1 & <- & Hin'). simpl.
      rewrite entry_row_sub_mul by (apply Hlen; exact Hin').
      rewrite Hbc, Z.mul_1_r, Z.sub_diag.
      destruct (decide (c = cb1.1)) as [Heq|]; [|apply Z.mod_0_l; lia].
      exfalso. apply Hfresh. rewrite Heq. apply in_map, Hin'.
    + simpl. rewrite Hbc. destruct (decide (c = c)); [reflexivity | congruence].
Qed.

Lemma echelon_from_reduced (p : Z) (n : nat) (A : list (list Z))
    (basis : list (nat * list Z)) :
  Z.prime p -> Forall (fun r => length r = n) A -> reduced n basis ->
  reduced n (fold_left (add_row p) A basis).
Proof.
  intros Hp HA. revert basis. induction HA as [|r A Hr _ IH]; intros basis Hred;
    [exact Hred|].
  simpl. apply IH. apply add_row_reduced; assumption.
Qed.

Lemma reduced_nil (n : nat) : reduced n [].
Proof.
  split; [constructor|]. split; [constructor|]. intros cb cb' [].
Qed.

(** The rank is at most the number of columns. *)
Lemma rank_le_columns (p : Z) (n : nat) (A : list (list Z)) :
  Z.prime p -> Forall (fun r => length r = n) A -> (rank p A <= n)%nat.
Proof.
  intros Hp HA. unfold rank, echelon.
  destruct (echelon_from_reduced p n A [] Hp HA (reduced_nil n)) as (Hnd & Hb & _).
  set (basis := fold_left (add_row p) A []) in *.
  rewrite <- (length_map fst basis), <- (length_seq n 0).
  apply NoDup_incl_length.
  - apply NoDup_ListNoDup. exact Hnd.
  - intros c Hc. apply in_map_iff in Hc as (cb & <- & Hin). apply in_seq.
    rewrite Forall_forall in Hb.
    destruct (Hb cb (proj2 (list_elem_of_In _ _) Hin)). lia.
Qed.

Lemma length_add_row (p : Z) (basis : list (nat * list Z)) (r : list Z) :
  (length basis <= length (add_row p basis r))%nat.
Proof.
  unfold add_row. destruct (leading _); [|lia].
  rewrite length_app, length_map. simpl. lia.
Qed.

Lemma length_fold_add_row (p : Z) (A : list (list Z)) (basis : list (nat * list Z)) :
  (length basis <= length (fold_left (add_row p) A basis))%nat.
Proof.
  revert basis. induction A as [|r A IH]; intros basis; simpl; [lia|].
  etrans; [apply (length_add_row p basis r) | apply IH].
Qed.

(** Adding rows does not lower the rank. *)
Lemma rank_app_le (p : Z) (A rows : list (list Z)) :
  (rank p A <= rank p (A ++ rows))%nat.
Proof.
  unfold rank, echelon. rewrite fold_left_app. apply length_fold_add_row.
Qed.
End GaussFacts.

(** ** Gaussian elimination: the kernel *)

Lemma Forall_zero_mod_sum (p : Z) (X S : list Z) :
  (0 < p)%Z ->
  length X = length S ->
  Forall (fun x => x mod p = 0)%Z (zip_with Z.add X S) ->
  Forall (fun x => x mod p = 0)%Z X ->
  Forall (fun x => x mod p = 0)%Z S.
Proof.
  intros Hp. revert S.
  induction X as [|x X IH]; intros [|s S] Hl Hsum HX; try discriminate;
    [constructor|].
  simpl in Hsum. inversion Hsum as [|? ? Hxs Hrest]; subst.
  inversion HX as [|? ? Hx HX']; subst.
  constructor; [|apply IH; [simpl in Hl; lia | assumption | assumption]].
  rewrite Z.add_mod, Hx, Z.add_0_l, Z.mod_mod in Hxs by lia.
  exact Hxs.
Qed.

Lemma Forall_zero_mod_scale (p a : Z) (v : list Z) :
  (0 < p)%Z -> (a mod p = 0)%Z ->
  Forall (fun x => x mod p = 0)%Z (map (Z.mul a) v).
Proof.
  intros Hp Ha. apply Forall_forall. intros y Hy.
  apply list_elem_of_In, in_map_iff in Hy as (x & <- & _).
  rewrite <- Z.mul_mod_idemp_l, Ha by lia. apply Z.mod_0_l. lia.
Qed.

Lemma entry_zero_mod (p : Z) (l : list Z) (i : nat) :
  Forall (fun x => x mod p = 0)%Z l -> (Gauss.entry l i mod p = 0)%Z.
Proof.
  intros Hl. unfold Gauss.entry. destruct (l !! i) as [x|] eqn:Hx; simpl.
  - rewrite Forall_forall in Hl. apply Hl. eapply list_elem_of_lookup_2, Hx.
  - destruct p; reflexivity.
Qed.

Lemma entry_sum (X S : list Z) (i : nat) :
  length X = length S ->
  Gauss.entry (zip_with Z.add X S) i = (Gauss.entry X i + Gauss.entry S i)%Z.
Proof.
  intros Hl. unfold Gauss.entry. rewrite lookup_zip_with.
  destruct (X !! i) as [x|] eqn:HX; simpl.
  - destruct (S !! i) as [s|] eqn:HS; simpl; [reflexivity|].
    apply lookup_lt_Some in HX. apply lookup_ge_None in HS. lia.
  - destruct (S !! i) as [s|] eqn:HS; simpl; [|reflexivity].
    apply lookup_lt_Some in HS. apply lookup_ge_None in HX. lia.
Qed.

Lemma entry_mul (a : Z) (v : list Z) (i : nat) :
  Gauss.entry (map (Z.mul a) v) i = (a * Gauss.entry v i)%Z.
Proof.
  unfold Gauss.entry. rewrite list_lookup_fmap.
  destruct (v !! i); simpl; lia.
Qed.

Lemma entry_vec_comb_zero (n : nat) (w : list Z) (V : list (list Z)) (i : nat) :
  Forall (fun v => length v = n /\ Gauss.entry v i = 0%Z) V ->
  Gauss.entry (vec_comb n w V) i = 0%Z.
Proof.
  intros HV. revert w. induction HV as [|v V [Hv Hvi] HV IH]; intros [|a w];
    unfold vec_comb; simpl;
    try (unfold Gauss.entry; destruct (replicate n 0%Z !! i) as [x|] eqn:Hx;
         [apply lookup_replicate in Hx as [-> _]|]; reflexivity).
  fold (vec_comb n w V).
  rewrite entry_sum, entry_mul, Hvi, IH; [lia|].
  rewrite length_map, vec_comb_length; [exact Hv|].
  eapply Forall_impl; [exact HV|]. simpl. tauto.
Qed.

(** Vectors of which each has a 1 in a column where the others vanish are
    independent. *)
Lemma independent_by_columns (p : Z) (n : nat) (v : nat -> list Z) (fs : list nat) :
  (2 <= p)%Z ->
  NoDup fs ->
  (forall f, In f fs -> length (v f) = n /\ Gauss.entry (v f) f = 1%Z) ->
  (forall f f', In f fs -> In f' fs -> f <> f' -> Gauss.entry (v f') f = 0%Z) ->
  independent_mod p n (map v fs).
Proof.
  intros Hp Hnd. induction Hnd as [|f fs Hnotin Hnd IH]; intros Hone Hzero w Hl Hsum.
  - destruct w; [constructor | discriminate].
  - destruct w as [|a w]; [discriminate|].
    unfold vec_comb in Hsum. simpl in Hsum. fold (vec_comb n w (map v fs)) in Hsum.
    destruct (Hone f (or_introl eq_refl)) as [Hvf Hvff].
    assert (HV : Forall (fun u => length u = n /\ Gauss.entry u f = 0%Z) (map v fs)).
    { apply Forall_forall. intros u Hu.
      apply list_elem_of_In, in_map_iff in Hu as (f' & <- & Hf').
      split; [apply Hone; right; exact Hf'|].
      apply Hzero; [left; reflexivity | right; exact Hf'|].
      intros ->. apply Hnotin, list_elem_of_In, Hf'. }
    assert (Hlen : length (map (Z.mul a) (v f)) = length (vec_comb n w (map v fs))).
    { rewrite length_map, vec_comb_length; [exact Hvf|].
      eapply Forall_impl; [exact HV|]. simpl. tauto. }
    assert (Ha : (a mod p = 0)%Z).
    { pose proof (entry_zero_mod p _ f Hsum) as Hf.
      rewrite entry_sum, entry_mul, Hvff, (entry_vec_comb_zero n w _ f HV) in Hf
        by exact Hlen.
      rewrite Z.mul_1_r, Z.add_0_r in Hf. exact Hf. }
    constructor; [exact Ha|].
    apply IH.
    + intros f' Hf'. apply Hone. right. exact Hf'.
    + intros f1 f2 H1 H2. apply Hzero; right; assumption.
    + simpl in Hl. rewrite length_map in *. lia.
    + apply (Forall_zero_mod_sum p (map (Z.mul a) (v f))); [lia | exact Hlen | exact Hsum|].
      apply Forall_zero_mod_scale; [lia | exact Ha].
Qed.

Module GaussKernel.
Import Gauss.

Lemma entry_kernel_vector_self (p : Z) (n : nat) (E : list (nat * list Z)) (f : nat) :
  (f < n)%nat -> entry (kernel_vector p n E f) f = 1%Z.
Proof.
  intros Hf. unfold entry, kernel_vector. rewrite list_lookup_fmap.
  rewrite lookup_seq_lt by exact Hf. simpl. rewrite Nat.eqb_refl. reflexivity.
Qed.

Lemma entry_kernel_vector_free (p : Z) (n : nat) (E : list (nat * list Z))
    (f j : nat) :
  j <> f ->
  existsb (fun cb => (cb.1 =? j)%nat) E = false ->
  entry (kernel_vector p n E f) j = 0%Z.
Proof.
  intros Hne Hfree. unfold entry, kernel_vector. rewrite list_lookup_fmap.
  destruct (seq 0 n !! j) as [j'|] eqn:Hj; simpl; [|reflexivity].
  apply lookup_seq in Hj as [-> _]. simpl.
  apply Nat.eqb_neq in Hne. rewrite Hne.
  destruct (List.find _ E) as [cb|] eqn:Hfind; [|reflexivity].
  apply find_some in Hfind as [Hin Hcb].
  assert (existsb (fun cb => (cb.1 =? j)%nat) E = true).
  { apply existsb_exists. exists cb. split; assumption. }
  congruence.
Qed.

(** The vectors that [kernel] answers are independent. *)
Lemma kernel_independent (p : Z) (n : nat) (A : list (list Z)) :
  (2 <= p)%Z -> kernel_ok p n (kernel p n A).
Proof.
  intros Hp. unfold kernel.
  set (E := echelon p A).
  set (free := fun f => negb (existsb (fun cb : nat * list Z => (cb.1 =? f)%nat) E)).
  assert (Hfs : forall f, In f (List.filter free (seq 0 n)) ->
                          (f < n)%nat /\ existsb (fun cb => (cb.1 =? f)%nat) E = false).
  { intros f Hf. apply filter_In in Hf as [Hf Hfree].
    apply in_seq in Hf. unfold free in Hfree. apply negb_true_iff in Hfree.
    split; [lia | exact Hfree]. }
  split.
  - apply Forall_forall. intros u Hu.
    apply list_elem_of_In, in_map_iff in Hu as (f & <- & _).
    unfold kernel_vector. rewrite length_map, length_seq. reflexivity.
  - apply independent_by_columns.
    + exact Hp.
    + apply NoDup_ListNoDup, List.NoDup_filter, List.seq_NoDup.
    + intros f Hf. destruct (Hfs f Hf) as [Hlt _]. split.
      * unfold kernel_vector. rewrite length_map, length_seq. reflexivity.
      * apply entry_kernel_vector_self, Hlt.
    + intros f f' Hf Hf' Hne. destruct (Hfs f Hf) as [_ Hfree].
      apply entry_kernel_vector_free; assumption.
Qed.
End GaussKernel.

(** ** The group [Z x Z] *)

Lemma lattice_free_laws : @curve_laws Lattice.point (Lattice.curve 0).
Proof.
  constructor; simpl; unfold Lattice.plus, Lattice.times.
  - intros [x1 y1] [x2 y2] [x3 y3]. simpl. rewrite !Z.mod_0_r. f_equal; lia.
  - intros [x1 y1] [x2 y2]. simpl. rewrite !Z.mod_0_r. f_equal; lia.
  - intros [x y]. simpl. rewrite !Z.mod_0_r. reflexivity.
  - intros [x y]. reflexivity.
  - intros [x y]. simpl. rewrite !Z.mod_0_r. f_equal; lia.
  - intros a b [x y]. simpl. rewrite !Z.mod_0_r. f_equal; lia.
  - intros a b [x y]. simpl. rewrite !Z.mod_0_r. f_equal; lia.
  - intros a [x1 y1] [x2 y2]. simpl. rewrite !Z.mod_0_r. f_equal; lia.
  - intros [x y] p [x' y'] Hp. unfold Lattice.division, divides. simpl.
    rewrite Z.mod_0_r. split.
    + intros Hin. apply in_flat_map in Hin as (x0 & Hx0 & Hin).
      apply in_map_iff in Hin as (y0 & [= <- <-] & Hy0).
      destruct (x mod p =? 0)%Z eqn:Hx; [|destruct Hx0].
      destruct (y mod p =? 0)%Z eqn:Hy; [|destruct Hy0].
      destruct Hx0 as [<-|[]]. destruct Hy0 as [<-|[]].
      apply Z.eqb_eq in Hx, Hy.
      pose proof (Z.div_mod x p ltac:(lia)). pose proof (Z.div_mod y p ltac:(lia)).
      f_equal; lia.
    + intros [= <- <-].
      rewrite !(Z.mul_comm p), !Z.mod_mul, !Z.div_mul by lia. simpl.
      left. reflexivity.
Qed.

(** The two generators of [Z x Z] are 3-saturated. *)
Lemma free_generators_saturated :
  @p_saturated Lattice.point (Lattice.curve 0) [(1, 0)%Z; (0, 1)%Z] 3.
Proof.
  intros w Hw [[x y] HD].
  apply (ProjectiveSpace_In 3 1) in Hw. vm_compute in Hw.
  repeat (destruct Hw as [<-|Hw];
          [cbn in HD; unfold Lattice.times, Lattice.plus in HD; cbn in HD;
           injection HD as Hx Hy; rewrite ?Z.mod_0_r in Hy; lia|]).
  destruct Hw.
Qed.

(** Witness of [saturated_points_pass]: the two generators of [Z x Z] at
    [p = 3], with Gaussian elimination and the first 39 primes, of which 20
    have 3 dividing [q + 1]. *)
Lemma saturated_points_pass_witness :
  (exists c', Run.p_saturation_free 0 [(1, 0)%Z; (0, 1)%Z] 3 false ∅
              = Some (Ok Saturated, c'))
  /\ Run.p_saturation_free 39 [(1, 0)%Z; (0, 1)%Z] 3 true ∅
     = Some (Ok Saturated, ∅).
Proof.
  destruct (@saturated_points_pass Lattice.point Lattice.grp Lattice.fpoint Z
              (Lattice.curve 0) (Lattice.reduction 2 1) (Lattice.sieve 0) Gauss.ops
              lattice_free_laws 39%nat [(1, 0)%Z; (0, 1)%Z] 3%Z) as [Hex Hsieve].
  - exact Z.prime_3.
  - exact free_generators_saturated.
  - intros A rows. apply GaussFacts.rank_app_le.
  - intros A HA. apply GaussFacts.rank_le_columns; [exact Z.prime_3 | exact HA].
  - intros A. apply GaussKernel.kernel_independent. lia.
  - vm_compute sieve_schedule.
    repeat (constructor; [intros _; eexists; vm_compute; reflexivity|]).
    constructor.
  - vm_compute. lia.
  - split; [exact (Hex 0%nat) | apply Hsieve; lia].
Defined.

(** ** One point and [p = 2] *)

Section SinglePoint.
Context {Point Grp FPoint Fq : Type}
        `{CurveOps Point} `{ReductionOps Grp FPoint Fq}
        `{SieveOps Point Grp FPoint} `{LinAlgOps}.

(** C8 (amended).  For a list of one point and [p = 2] the answer is read
    off [P.division_points(2)], with either strategy and with the dict
    untouched.  When it is empty the answer is [(True, lin_combs)], and [P]
    has no half.  Otherwise the answer is [(False, 0, R)] with [R] the first
    point it lists, and [R] is a half of [P]: [2*R = P].  It is the only
    half when the curve has no point of order 2; when [T] is a point of
    order 2, [R + T] is another half. *)
Theorem single_point_two_saturation (fuel : nat) (P : Point) (sieve : bool)
    (c : cache Point) :
  curve_laws Point ->
  (division_points P 2 = [] ->
   p_saturation fuel [P] 2 sieve c = Some (Ok Saturated, c)
   /\ ~ p_divisible 2 P)
  /\ (forall R rest, division_points P 2 = R :: rest ->
      p_saturation fuel [P] 2 sieve c = Some (Ok (NotSaturated 0 R), c)
      /\ smul 2 R = P
      /\ ((forall T, smul 2 T = E0 -> T = E0) ->
          forall R', smul 2 R' = P -> R' = R)
      /\ (forall T, smul 2 T = E0 -> T <> E0 ->
          smul 2 (add R T) = P /\ add R T <> R)).
Proof.
  intros laws. split.
  - intros Hd. split.
    + unfold p_saturation, p_saturation_head. simpl. rewrite Hd. reflexivity.
    + intros [D HD]. apply (division_points_spec laws P 2 D) in HD; [|lia].
      rewrite Hd in HD. destruct HD.
  - intros R rest Hd.
    assert (HR : smul 2 R = P).
    { apply (division_points_spec laws); [lia|]. rewrite Hd. left. reflexivity. }
    split; [|split; [exact HR|split]].
    + unfold p_saturation, p_saturation_head. simpl. rewrite Hd. reflexivity.
    + intros Hno R' HR'.
      assert (Hdiff : add R' (smul (-1) R) = E0).
      { apply Hno. rewrite (smul_add laws), HR'.
        rewrite <- (smul_times laws).
        change (2 * -1)%Z with (-1 * 2)%Z.
        rewrite (smul_times laws), HR. apply (add_neg laws). }
      apply (add_cancel_r laws _ _ (smul (-1) R)).
      rewrite Hdiff. symmetry. apply (add_neg laws).
    + intros T HT HTne. split.
      * rewrite (smul_add laws), HR, HT. apply (add_zero_r laws).
      * intros Heq. apply HTne. apply (add_cancel_r laws _ _ R).
        rewrite (add_comm laws), Heq. symmetry. apply (add_zero laws).
Qed.
End SinglePoint.

(** Witness of [single_point_two_saturation]: in [Z x Z], which has no point
    of order 2, the point [(1, 0)] has no half and [(2, 0)] has the only
    half [(1, 0)]. *)
Lemma single_point_two_saturation_witness :
  (Run.p_saturation_free 0 [(1, 0)%Z] 2 true ∅ = Some (Ok Saturated, ∅)
   /\ ~ @p_divisible Lattice.point (Lattice.curve 0) 2 (1, 0)%Z)
  /\ (Run.p_saturation_free 0 [(2, 0)%Z] 2 true ∅
      = Some (Ok (NotSaturated 0 (1, 0)%Z), ∅)
      /\ Lattice.times 0 2 (1, 0)%Z = (2, 0)%Z
      /\ forall R', Lattice.times 0 2 R' = (2, 0)%Z -> R' = (1, 0)%Z).
Proof.
  split.
  - apply (@single_point_two_saturation Lattice.point Lattice.grp Lattice.fpoint Z
             (Lattice.curve 0) (Lattice.reduction 2 1) (Lattice.sieve 0) Gauss.ops
             0%nat (1, 0)%Z true ∅ lattice_free_laws).
    reflexivity.
  - destruct (proj2 (@single_point_two_saturation Lattice.point Lattice.grp
                Lattice.fpoint Z (Lattice.curve 0) (Lattice.reduction 2 1)
                (Lattice.sieve 0) Gauss.ops 0%nat (2, 0)%Z true ∅
                lattice_free_laws) (1, 0)%Z [] eq_refl)
      as (Hrun & Hhalf & Honly & _).
    split; [exact Hrun|]. split; [exact Hhalf|].
    apply Honly. intros [x y]. simpl. unfold Lattice.times. simpl.
    rewrite Z.mod_0_r. intros [= Hx Hy]. f_equal; lia.
Defined.

(** ** The sieve: ten additions in a row without progress *)

Section Stagnation.
Context {Point Grp FPoint Fq : Type}
        `{CurveOps Point} `{ReductionOps Grp FPoint Fq}
        `{SieveOps Point Grp FPoint} `{LinAlgOps}.

(** Where a stretch starts the counter is 0: at the start of the sieve, and
    after rows that have changed the rank, whatever the counter was. *)
Lemma stretch_start_state (Plist : list Point) (p : Z) (pre : list (Z * Z))
    (A : list (list Z)) (r : nat) :
  p_saturation_head Plist p = None ->
  stretch_start Plist p pre A r ->
  sieve_steps Plist p pre (SieveState [] 0 0) = Continue (SieveState A r 0)
  /\ r <> length Plist.
Proof.
  intros Hhead [(-> & -> & ->)|(pre0 & qa & st0 & vecs & -> & Hpre0 & Ht & Hrows
                                & -> & -> & Hn & Hr)].
  - split; [reflexivity|]. intros Hn. destruct Plist; discriminate.
  - split; [|exact Hn]. rewrite sieve_steps_app, Hpre0. simpl.
    unfold sieve_body. unfold has_p_torsion in Ht. rewrite Ht. simpl.
    unfold place_rows in Hrows. rewrite Hrows.
    apply Nat.eqb_neq in Hn, Hr. rewrite Hn, Hr. reflexivity.
Qed.

(** C5.  The counter of the sieve counts the additions of rows made in a
    row without a change of the rank: it is 0 at the start and after every
    addition that changes the rank.  Let the pairs [pre] lead to such a
    point, with the matrix [A] of rank [r], and let the sieve then go
    through [places], in which ten reductions add rows without changing the
    rank.  Before the tenth it goes on, the counter being the number of
    these additions.  At the tenth it takes a basis of the right kernel of
    the matrix, forms the combinations [v_1*P_1 + ... + v_n*P_n] of the
    points for the vectors [v] of the basis, and calls [p_saturation] on
    them with [sieve=False] and a new, empty dict.  If that call answers
    [(True, _)], the sieve answers [(True, lin_combs)]; if it answers
    [(False, k, D)], the sieve answers [(False, j, D)], [j] being the
    position of the first nonzero entry of the [k]-th kernel vector. *)
Theorem stagnation_falls_back_on_kernel (fuel fuel' : nat) (Plist : list Point)
    (p : Z) (lin_combs : cache Point) (pre places post : list (Z * Z))
    (A : list (list Z)) (r : nat) (A' : list (list Z)) :
  curve_laws Point ->
  p_saturation_head Plist p = None ->
  sieve_schedule Plist 0 fuel = pre ++ places ++ post ->
  stretch_start Plist p pre A r ->
  no_progress_run Plist p r A places = Some (A', 10%nat) ->
  let kernel := right_kernel_basis p (length Plist) A' in
  let Rlist := map (fun v => lin v Plist) kernel in
  (forall places1 places2 A1 k,
      places = places1 ++ places2 ->
      no_progress_run Plist p r A places1 = Some (A1, k) ->
      (k < 10)%nat ->
      sieve_steps Plist p (pre ++ places1) (SieveState [] 0 0)
      = Continue (SieveState A1 r k))
  /\ (forall c', p_saturation fuel' Rlist p false ∅ = Some (Ok Saturated, c') ->
                 p_saturation fuel Plist p true lin_combs
                 = Some (Ok Saturated, lin_combs))
  /\ (forall k D c' v j,
        p_saturation fuel' Rlist p false ∅ = Some (Ok (NotSaturated k D), c') ->
        kernel !! k = Some v -> first_nonzero_at v j ->
        p_saturation fuel Plist p true lin_combs
        = Some (Ok (NotSaturated j D), lin_combs)).
Proof.
  intros laws Hhead Hsched Hstart Hrun kernel Rlist.
  destruct (stretch_start_state Plist p pre A r Hhead Hstart) as [Hpre Hrank].
  assert (Hsieve : p_saturation fuel Plist p true lin_combs
                   = Some (kernel_check Plist p A', lin_combs)).
  { unfold p_saturation. rewrite Hhead. simpl.
    unfold sieve_search. rewrite sieve_primes_schedule, Hsched.
    rewrite sieve_steps_app, Hpre, sieve_steps_app.
    destruct (sieve_steps_no_progress Plist p places (SieveState A r 0) A' 10 Hrank Hrun)
      as [_ Hten]; [simpl; lia|].
    rewrite Hten by (simpl; lia). reflexivity. }
  assert (HR : Rlist = kernel_points kernel Plist).
  { unfold Rlist. symmetry. apply (kernel_points_lin laws). }
  destruct (kernel_check_spec fuel' Plist p A') as [Hsat Hnot].
  fold kernel in Hsat, Hnot. rewrite <- HR in Hsat, Hnot.
  split; [|split].
  - intros places1 places2 A1 k _ Hrun1 Hk.
    rewrite sieve_steps_app, Hpre.
    destruct (sieve_steps_no_progress Plist p places1 (SieveState A r 0) A1 k Hrank Hrun1)
      as [Hgo _]; [simpl; lia|].
    rewrite Hgo by (simpl; lia). reflexivity.
  - intros c' Hsub. rewrite Hsieve, (Hsat c' Hsub). reflexivity.
  - intros k D c' v j Hsub Hv Hj. rewrite Hsieve, (Hnot k D c' v j Hsub Hv Hj).
    reflexivity.
Qed.
End Stagnation.

(** Witness of [stagnation_falls_back_on_kernel], in [Z x Z] at [p = 3] with
    the points [(1, 0)] and [(0, 3)].  The reduction at 2 gives the row
    [(1, 0)] and changes the rank to 1; the ten reductions that tell
    something among those at 3, ..., 71 give the same row.  The kernel is
    spanned by [(0, 1)], the exhaustive search on [[(0, 3)]] answers
    [(False, 0, (0, 1))], and the sieve answers [(False, 1, (0, 1))]. *)
Lemma stagnation_falls_back_on_kernel_witness :
  Run.p_saturation_free 20 [(1, 0)%Z; (0, 3)%Z] 3 true ∅
  = Some (Ok (NotSaturated 1 (0, 1)%Z), ∅).
Proof.
  pose (places := map (fun q => (q, 0%Z))
                      [3; 5; 7; 11; 13; 17; 19; 23; 29; 31; 37; 41; 43; 47; 53;
                       59; 61; 67; 71]%Z).
  destruct (@stagnation_falls_back_on_kernel
              Lattice.point Lattice.grp Lattice.fpoint Z
              (Lattice.curve 0) (Lattice.reduction 2 1) (Lattice.sieve 0) Gauss.ops
              20%nat 0%nat [(1, 0)%Z; (0, 3)%Z] 3%Z ∅
              [(2, 0)%Z] places []
              [[1; 0]%Z] 1%nat (replicate 11 [1; 0]%Z) lattice_free_laws)
    as (_ & _ & Hnot).
  - reflexivity.
  - vm_compute. reflexivity.
  - right. exists [], (2, 0)%Z, (SieveState [] 0 0), [[1; 0]%Z].
    split; [reflexivity|]. split; [reflexivity|].
    split; [vm_compute; reflexivity|]. split; [vm_compute; reflexivity|].
    split; [reflexivity|]. split; [vm_compute; reflexivity|].
    split; [simpl; lia | simpl; lia].
  - vm_compute. reflexivity.
  - apply (Hnot 0%nat (0, 1)%Z {[ [1%Z] := (0, 3)%Z ]} [0; 1]%Z 1%nat).
    + vm_compute. reflexivity.
    + vm_compute. reflexivity.
    + split; [exists 1%Z; split; [reflexivity | discriminate]|].
      intros [|i] Hi; [reflexivity | lia].
Defined.

(** * Further properties of [p_saturation] *)

(** ** The dict only grows *)

Section CacheGrowth.
Context {Point Grp FPoint Fq : Type}
        `{CurveOps Point} `{ReductionOps Grp FPoint Fq}
        `{SieveOps Point Grp FPoint} `{LinAlgOps}.

Lemma exhaustive_loop_grows (tables : list (list Point)) (p : Z)
    (tuples : list (list Z)) (c : cache Point) :
  c ⊆ (exhaustive_loop tables p tuples c).2.
Proof.
  revert c. induction tuples as [|w tuples IH]; intros c; simpl; [reflexivity|].
  destruct (c !! w) as [P|] eqn:Hw.
  - destruct (division_points P p); [apply IH | reflexivity].
  - destruct (table_sum tables w) as [P|e]; [|reflexivity].
    assert (Hsub : c ⊆ <[w := P]> c) by (apply insert_subseteq; exact Hw).
    destruct (division_points P p); [|exact Hsub].
    etrans; [exact Hsub | apply IH].
Qed.

(** X1.  Whatever [p_saturation] does to the dict [lin_combs], it adds to
    it: every entry the dict had is still there afterwards, with the same
    value.  With the sieve on, the dict is left exactly as it came. *)
Theorem lin_combs_only_grows (fuel : nat) (Plist : list Point) (p : Z)
    (sieve : bool) (c c' : cache Point) (r : res (verdict Point)) :
  p_saturation fuel Plist p sieve c = Some (r, c') ->
  c ⊆ c' /\ (sieve = true -> c' = c).
Proof.
  unfold p_saturation.
  destruct (p_saturation_head Plist p) as [r0|].
  - intros [= _ <-]. split; [reflexivity | intros _; reflexivity].
  - destruct sieve; simpl.
    + destruct (sieve_search fuel Plist p); simpl; [|discriminate].
      intros [= _ <-]. split; [reflexivity | intros _; reflexivity].
    + intros [= Hrun]. split; [|discriminate].
      unfold exhaustive_search in Hrun.
      destruct (mults_tables Plist p) as [tables|e].
      * pose proof (exhaustive_loop_grows tables p
                      (ProjectiveSpace p (length Plist - 1)) c) as Hg.
        rewrite Hrun in Hg. exact Hg.
      * injection Hrun as _ <-. reflexivity.
Qed.
End CacheGrowth.

(** Witness of [lin_combs_only_grows]: the search on [(1, 0)], [(0, 1)] in
    [Z x Z] at [p = 3], started with a dict that holds one entry. *)
Lemma lin_combs_only_grows_witness :
  exists r c', Run.p_saturation_free 0 [(1, 0)%Z; (0, 1)%Z] 3 false
                 {[ [1; 1]%Z := (1, 1)%Z ]} = Some (r, c')
               /\ ({[ [1; 1]%Z := (1, 1)%Z ]} : cache Lattice.point) ⊆ c'.
Proof.
  eexists _, _. split; [vm_compute; reflexivity|].
  eapply (@lin_combs_only_grows Lattice.point Lattice.grp Lattice.fpoint Z
            (Lattice.curve 0) (Lattice.reduction 2 1) (Lattice.sieve 0) Gauss.ops
            0%nat [(1, 0)%Z; (0, 1)%Z] 3%Z false).
  vm_compute. reflexivity.
Defined.

(** ** The search without sieve raises nothing *)

Lemma tuple_index_bound (w : list Z) (x : Z) (i : nat) :
  tuple_index w x = Ok i -> (i < length w)%nat /\ w !! i = Some x.
Proof.
  revert i. induction w as [|y w IH]; intros i; simpl; [discriminate|].
  destruct (y =? x)%Z eqn:Hy.
  - intros [= <-]. apply Z.eqb_eq in Hy as ->. split; [lia | reflexivity].
  - destruct (tuple_index w x) as [j|e]; simpl; [|discriminate].
    intros [= <-]. destruct (IH j eq_refl) as [Hlt Hl]. split; [lia | exact Hl].
Qed.

Lemma first_nonzero_bound (v : list Z) (j : nat) :
  first_nonzero v = Ok j -> (j < length v)%nat.
Proof.
  revert j. induction v as [|x v IH]; intros j; simpl; [discriminate|].
  destruct (x =? 0)%Z; [|intros [= <-]; lia].
  destruct (first_nonzero v) as [i|e]; simpl; [|discriminate].
  intros [= <-]. specialize (IH i eq_refl). lia.
Qed.

Lemma py_getitem_In {A} (l : list A) (i : Z) (x : A) :
  py_getitem l i = Ok x -> In x l.
Proof.
  unfold py_getitem. destruct (_ <? 0)%Z; [discriminate|].
  destruct (l !! _) as [y|] eqn:Hy; [|discriminate].
  intros [= <-]. apply list_elem_of_In. eapply list_elem_of_lookup_2, Hy.
Qed.

Section SearchOutcomes.
Context {Point Grp FPoint Fq : Type}
        `{CurveOps Point} `{ReductionOps Grp FPoint Fq}
        `{SieveOps Point Grp FPoint} `{LinAlgOps}.

Lemma exhaustive_loop_returns (tables : list (list Point)) (p : Z)
    (tuples : list (list Z)) (c : cache Point) :
  (forall w, In w tuples -> (exists P, table_sum tables w = Ok P) /\ In 1%Z w) ->
  exists v, (exhaustive_loop tables p tuples c).1 = Ok v.
Proof.
  revert c. induction tuples as [|w tuples IH]; intros c Hok; simpl;
    [eexists; reflexivity|].
  destruct (Hok w (or_introl eq_refl)) as [[P HP] Hone].
  destruct (tuple_index_spec w 1 Hone) as (i & Hi & _).
  assert (Hrest : forall u, In u tuples ->
                            (exists P, table_sum tables u = Ok P) /\ In 1%Z u).
  { intros u Hu. apply Hok. right. exact Hu. }
  destruct (c !! w) as [Q|].
  - destruct (division_points Q p); [apply IH, Hrest|].
    simpl. rewrite Hi. eexists; reflexivity.
  - rewrite HP. destruct (division_points P p); [apply IH, Hrest|].
    simpl. rewrite Hi. eexists; reflexivity.
Qed.

Lemma general_tuples (Plist : list Point) (p : Z) (w : list Z) :
  Plist <> [] ->
  In w (ProjectiveSpace p (length Plist - 1)) ->
  normalized p (length Plist) w.
Proof.
  intros Hne Hw. apply ProjectiveSpace_In in Hw.
  replace (S (length Plist - 1)) with (length Plist) in Hw; [exact Hw|].
  destruct Plist; [congruence | simpl; lia].
Qed.

Lemma nosieve_never_raises (Plist : list Point) (p : Z) (c : cache Point) :
  (2 <= p)%Z ->
  exists v c', p_saturation_nosieve Plist p c = (Ok v, c').
Proof.
  intros Hp. unfold p_saturation_nosieve.
  destruct (p_saturation_head Plist p) as [r|] eqn:Hhead.
  - unfold p_saturation_head in Hhead.
    destruct (length Plist =? 0)%nat; [injection Hhead as <-; eauto|].
    destruct ((length Plist =? 1)%nat && (p =? 2)%Z)%bool eqn:Hsp; [|discriminate].
    apply andb_true_iff in Hsp as [Hl _]. apply Nat.eqb_eq in Hl.
    destruct Plist as [|P0 [|P1 Plist]]; try discriminate.
    simpl in Hhead.
    destruct (division_points P0 p) as [|D ds]; simpl in Hhead;
      injection Hhead as <-; eauto.
  - assert (Hne : Plist <> []).
    { intros ->. discriminate. }
    unfold exhaustive_search.
    destruct (exists_last Hne) as (front & Plast & HP).
    destruct (mults_tables Plist p) as [tables|e] eqn:Ht.
    2:{ rewrite HP, mults_tables_snoc in Ht. discriminate. }
    destruct (exhaustive_loop_returns tables p
                (ProjectiveSpace p (length Plist - 1)) c) as (v & Hv).
    + intros w Hw. pose proof (general_tuples Plist p w Hne Hw) as Hn. split.
      * eexists. apply (table_sum_normalized p); [exact Hp | exact Ht | exact Hn].
      * apply (normalized_has_one p (length Plist)), Hn.
    + destruct (exhaustive_loop tables p _ c) as [r c'] eqn:Hloop.
      simpl in Hv. subst r. eauto.
Qed.

(** X2.  For a prime [p] the version without sieve always answers: no
    lookup in a table of multiples is out of range and every tuple has a
    coordinate equal to 1, whatever the list of points and whatever points
    the dict holds. *)
Theorem exhaustive_search_never_raises (fuel : nat) (Plist : list Point) (p : Z)
    (c : cache Point) :
  Z.prime p ->
  exists v c', p_saturation fuel Plist p false c = Some (Ok v, c').
Proof.
  intros Hp. rewrite p_saturation_sieve_false.
  destruct (nosieve_never_raises Plist p c (Z.prime_ge_2 p Hp)) as (v & c' & ->).
  eauto.
Qed.

(** ** The index that comes with a failure *)

Lemma exhaustive_loop_index (tables : list (list Point)) (p : Z) (n : nat)
    (tuples : list (list Z)) (c : cache Point) (i : nat) (D : Point) :
  (forall w, In w tuples -> length w = n) ->
  (exhaustive_loop tables p tuples c).1 = Ok (NotSaturated i D) ->
  (i < n)%nat.
Proof.
  revert c. induction tuples as [|w tuples IH]; intros c Hlen; simpl;
    [discriminate|].
  assert (Hrest : forall u, In u tuples -> length u = n).
  { intros u Hu. apply Hlen. right. exact Hu. }
  assert (Hidx : forall (E : Point),
             (i0 ← tuple_index w 1; Ok (NotSaturated i0 E)) = Ok (NotSaturated i D) ->
             (i < n)%nat).
  { intros E. destruct (tuple_index w 1) as [i0|e] eqn:Hi; simpl; [|discriminate].
    intros [= <- _]. apply tuple_index_bound in Hi as [Hlt _].
    rewrite <- (Hlen w (or_introl eq_refl)). exact Hlt. }
  destruct (c !! w) as [Q|].
  - destruct (division_points Q p) as [|E ds]; [apply IH, Hrest | apply Hidx].
  - destruct (table_sum tables w) as [P|e]; [|discriminate].
    destruct (division_points P p) as [|E ds]; [apply IH, Hrest | apply Hidx].
Qed.

Lemma nosieve_index (Plist : list Point) (p : Z) (c : cache Point)
    (i : nat) (D : Point) :
  (p_saturation_nosieve Plist p c).1 = Ok (NotSaturated i D) ->
  (i < length Plist)%nat.
Proof.
  unfold p_saturation_nosieve.
  destruct (p_saturation_head Plist p) as [r|] eqn:Hhead; simpl.
  - intros ->. unfold p_saturation_head in Hhead.
    destruct (length Plist =? 0)%nat; [discriminate|].
    destruct ((length Plist =? 1)%nat && (p =? 2)%Z)%bool eqn:Hsp; [|discriminate].
    apply andb_true_iff in Hsp as [Hl _]. apply Nat.eqb_eq in Hl.
    destruct (P0 ← py_getitem Plist 0; py_getitem (division_points P0 p) 0)
      as [E|[]]; try discriminate.
    injection Hhead as <- _. lia.
  - assert (Hne : Plist <> []) by (intros ->; discriminate).
    unfold exhaustive_search.
    destruct (mults_tables Plist p) as [tables|e]; [|discriminate].
    apply exhaustive_loop_index. intros w Hw.
    apply (normalized_length p), (general_tuples Plist p w Hne Hw).
Qed.

Lemma kernel_check_index (Plist : list Point) (p : Z) (A : list (list Z))
    (j : nat) (D : Point) :
  Forall (fun v => length v = length Plist)
         (right_kernel_basis p (length Plist) A) ->
  kernel_check Plist p A = Ok (NotSaturated j D) ->
  (j < length Plist)%nat.
Proof.
  intros Hker. unfold kernel_check.
  destruct (p_saturation_nosieve _ p ∅).1 as [[|k E]|e]; try discriminate.
  destruct (py_getitem _ (Z.of_nat k)) as [v|e] eqn:Hv; simpl; [|discriminate].
  destruct (first_nonzero v) as [j0|e] eqn:Hj; simpl; [|discriminate].
  intros [= <- _]. apply first_nonzero_bound in Hj.
  apply py_getitem_In in Hv. rewrite Forall_forall in Hker.
  rewrite <- (Hker v); [exact Hj | apply list_elem_of_In, Hv].
Qed.

(** What the loop body can [return]: [True], the answer of a kernel check, or
    an exception of [p_projections]. *)
Lemma sieve_steps_result (Plist : list Point) (p : Z) (places : list (Z * Z))
    (st : sieve_state) (r : res (verdict Point)) :
  sieve_steps Plist p places st = Return r ->
  r = Ok Saturated \/ (exists A, r = kernel_check Plist p A) \/ (exists e, r = Raise e).
Proof.
  revert st. induction places as [|qa places IH]; intros st; simpl; [discriminate|].
  destruct (sieve_body Plist p qa.1 qa.2 st) as [st'|r'] eqn:Hbody; [apply IH|].
  intros [= <-]. unfold sieve_body in Hbody.
  destruct (negb _); [discriminate|].
  destruct (projections_with_retry _ _ p).1 as [vecs|e];
    [|injection Hbody as <-; right; right; eauto].
  destruct (_ =? length Plist)%nat; [injection Hbody as <-; left; reflexivity|].
  destruct (_ =? sv_rankA st)%nat; [|discriminate].
  destruct (_ =? 10)%nat; [|discriminate].
  injection Hbody as <-. right. left. eauto.
Qed.

(** X3.  When [p_saturation] answers [(False, i, newP)], [i] is a position
    of [Plist], so that [Plist[i] = newP] replaces a point and keeps the
    length.  For the sieve this asks the kernel vectors to have one entry for
    each point. *)
Theorem failure_index_in_range (fuel : nat) (Plist : list Point) (p : Z)
    (sieve : bool) (c c' : cache Point) (i : nat) (D : Point) :
  (forall A, Forall (fun v => length v = length Plist)
                    (right_kernel_basis p (length Plist) A)) ->
  p_saturation fuel Plist p sieve c = Some (Ok (NotSaturated i D), c') ->
  (i < length Plist)%nat
  /\ exists Plist', py_setitem Plist (Z.of_nat i) D = Ok Plist'
                    /\ length Plist' = length Plist
                    /\ Plist' !! i = Some D.
Proof.
  intros Hker Hrun.
  assert (Hi : (i < length Plist)%nat).
  { destruct sieve.
    - unfold p_saturation in Hrun.
      destruct (p_saturation_head Plist p) as [r|] eqn:Hhead.
      + apply (nosieve_index Plist p c i D). unfold p_saturation_nosieve.
        rewrite Hhead. injection Hrun as -> _. reflexivity.
      + simpl in Hrun. unfold sieve_search in Hrun.
        rewrite sieve_primes_schedule in Hrun.
        destruct (sieve_steps Plist p _ _) as [st|r] eqn:Hsteps; [discriminate|].
        simpl in Hrun. injection Hrun as -> _.
        destruct (sieve_steps_result _ _ _ _ _ Hsteps) as [Hr|[[A Hr]|[e Hr]]];
          try discriminate.
        apply (kernel_check_index Plist p A i D (Hker A)). symmetry. exact Hr.
    - rewrite p_saturation_sieve_false in Hrun.
      apply (nosieve_index Plist p c i D). injection Hrun as ->. reflexivity. }
  split; [exact Hi|].
  exists (<[i := D]> Plist). unfold py_setitem.
  destruct (Z.of_nat i <? 0)%Z eqn:Hneg; [apply Z.ltb_lt in Hneg; lia|].
  rewrite Hneg, Nat2Z.id.
  destruct (i <? length Plist)%nat eqn:Hlt; [|apply Nat.ltb_ge in Hlt; lia].
  split; [reflexivity|]. split; [apply length_insert|].
  apply list_lookup_insert_eq. exact Hi.
Qed.
End SearchOutcomes.

(** Witness of [failure_index_in_range]: the sieve on [(1, 0)], [(0, 3)] in
    [Z x Z] at [p = 3] answers index 1. *)
Lemma failure_index_in_range_witness :
  (1 < length [(1, 0)%Z; (0, 3)%Z])%nat
  /\ exists Plist', py_setitem [(1, 0)%Z; (0, 3)%Z] 1 (0, 1)%Z = Ok Plist'
                    /\ length Plist' = 2%nat
                    /\ Plist' !! 1%nat = Some (0, 1)%Z.
Proof.
  apply (@failure_index_in_range Lattice.point Lattice.grp Lattice.fpoint Z
           (Lattice.curve 0) (Lattice.reduction 2 1) (Lattice.sieve 0) Gauss.ops
           20%nat [(1, 0)%Z; (0, 3)%Z] 3%Z true ∅ ∅ 1%nat (0, 1)%Z).
  - intros A. apply (GaussKernel.kernel_independent 3 2 A). lia.
  - vm_compute. reflexivity.
Defined.

(** Witness of [exhaustive_search_never_raises]. *)
Lemma exhaustive_search_never_raises_witness :
  exists v c', Run.p_saturation_free 0 [(1, 0)%Z; (0, 3)%Z] 3 false ∅
               = Some (Ok v, c').
Proof.
  apply (@exhaustive_search_never_raises Lattice.point Lattice.grp Lattice.fpoint Z
           (Lattice.curve 0) (Lattice.reduction 2 1) (Lattice.sieve 0) Gauss.ops
           0%nat [(1, 0)%Z; (0, 3)%Z] 3%Z ∅).
  exact Z.prime_3.
Defined.

(** ** A failure is never a false alarm *)

Section FailureJustified.
Context {Point Grp FPoint Fq : Type}
        `{CurveOps Point} `{ReductionOps Grp FPoint Fq}
        `{SieveOps Point Grp FPoint} `{LinAlgOps}.

Lemma exhaustive_loop_failure (tables : list (list Point)) (p : Z)
    (Plist : list Point) (tuples : list (list Z)) (c : cache Point)
    (i : nat) (D : Point) :
  (forall w, In w tuples -> table_sum tables w = Ok (combination w Plist)) ->
  cache_coherent Plist c ->
  (exhaustive_loop tables p tuples c).1 = Ok (NotSaturated i D) ->
  exists w, In w tuples /\ w !! i = Some 1%Z
            /\ In D (division_points (combination w Plist) p).
Proof.
  revert c. induction tuples as [|w tuples IH]; intros c Hsum Hc Hrun;
    [discriminate|].
  destruct (exhaustive_loop_step tables p Plist w tuples c) as (c1 & Hc1 & _ & _ & Hstep).
  { apply Hsum. left. reflexivity. }
  { exact Hc. }
  rewrite Hstep in Hrun.
  destruct (division_points (combination w Plist) p) as [|E ds] eqn:Hd.
  - destruct (IH c1) as (u & Hu & Hui & HuD); [|exact Hc1|exact Hrun|].
    + intros u Hu. apply Hsum. right. exact Hu.
    + exists u. split; [right; exact Hu|]. split; assumption.
  - simpl in Hrun. destruct (tuple_index w 1) as [i0|e] eqn:Hi; [|discriminate].
    simpl in Hrun. injection Hrun as <- <-.
    apply tuple_index_bound in Hi as [_ Hwi].
    exists w. split; [left; reflexivity|]. split; [exact Hwi|].
    rewrite Hd. left. reflexivity.
Qed.

(** X4.  For a prime [p], without sieve, and with a dict that holds
    combinations of [Plist], an answer [(False, i, newP)] comes with its
    reason: there is a point [w] of projective space over [GF(p)], with
    [w_i = 1], whose combination [w_1*P_1 + ... + w_n*P_n] is [p*newP].  So
    the points were not [p]-saturated. *)
Theorem exhaustive_failure_is_justified (fuel : nat) (Plist : list Point) (p : Z)
    (c c' : cache Point) (i : nat) (D : Point) :
  curve_laws Point ->
  Z.prime p ->
  cache_coherent Plist c ->
  p_saturation fuel Plist p false c = Some (Ok (NotSaturated i D), c') ->
  (exists w, normalized p (length Plist) w /\ w !! i = Some 1%Z
             /\ smul p D = combination w Plist)
  /\ ~ p_saturated Plist p.
Proof.
  intros laws Hprime Hc Hrun. pose proof (Z.prime_ge_2 p Hprime) as Hp.
  assert (Hw : exists w, normalized p (length Plist) w /\ w !! i = Some 1%Z
                         /\ smul p D = combination w Plist).
  { rewrite p_saturation_sieve_false in Hrun. injection Hrun as Hrun.
    apply (f_equal fst) in Hrun. simpl in Hrun.
    unfold p_saturation_nosieve in Hrun.
    destruct (p_saturation_head Plist p) as [r|] eqn:Hhead.
    - simpl in Hrun. subst r. unfold p_saturation_head in Hhead.
      destruct (length Plist =? 0)%nat; [discriminate|].
      destruct ((length Plist =? 1)%nat && (p =? 2)%Z)%bool eqn:Hsp; [|discriminate].
      apply andb_true_iff in Hsp as [Hl Hp2]. apply Nat.eqb_eq in Hl.
      apply Z.eqb_eq in Hp2. subst p.
      destruct Plist as [|P0 [|P1 Plist]]; try discriminate.
      simpl in Hhead.
      destruct (division_points P0 2) as [|E ds] eqn:Hd; simpl in Hhead;
        [discriminate|].
      injection Hhead as <- <-.
      exists [1%Z]. split; [|split; [reflexivity|]].
      + exists [], 0%nat. split; [reflexivity|]. split; [reflexivity | constructor].
      + unfold combination, py_sum, multiple. simpl.
        rewrite !(add_zero laws).
        apply (division_points_spec laws); [lia|]. rewrite Hd. left. reflexivity.
    - assert (Hne : Plist <> []) by (intros ->; discriminate).
      unfold exhaustive_search in Hrun.
      destruct (mults_tables Plist p) as [tables|e] eqn:Ht; [|discriminate].
      destruct (exhaustive_loop_failure tables p Plist
                  (ProjectiveSpace p (length Plist - 1)) c i D) as (w & Hw & Hwi & HD).
      + intros w Hw. apply (table_sum_normalized p); [exact Hp | exact Ht|].
        apply general_tuples; assumption.
      + exact Hc.
      + exact Hrun.
      + exists w. split; [apply general_tuples; assumption|]. split; [exact Hwi|].
        apply (division_points_spec laws); [lia | exact HD]. }
  split; [exact Hw|].
  destruct Hw as (w & Hn & _ & HD). intros Hsat.
  apply (Hsat w Hn). exists D. exact HD.
Qed.

(** X5.  With the sieve, an answer [(False, j, newP)] is no false alarm
    either: if [p] is prime and the bases of kernels are made of independent
    vectors with one entry for each point, the points were not
    [p]-saturated. *)
Theorem sieve_failure_is_justified (fuel : nat) (Plist : list Point) (p : Z)
    (c c' : cache Point) (j : nat) (D : Point) :
  curve_laws Point ->
  Z.prime p ->
  (forall A, kernel_ok p (length Plist) (right_kernel_basis p (length Plist) A)) ->
  p_saturation fuel Plist p true c = Some (Ok (NotSaturated j D), c') ->
  ~ p_saturated Plist p.
Proof.
  intros laws Hp Hker Hrun Hsat.
  pose proof (Z.prime_ge_2 p Hp) as Hp2.
  unfold p_saturation in Hrun.
  destruct (p_saturation_head Plist p) as [r|] eqn:Hhead.
  - destruct (saturated_passes_exhaustive laws Plist p ∅ Hp2 Hsat
                (cache_coherent_empty Plist)) as (c0 & Hex).
    unfold p_saturation_nosieve in Hex. rewrite Hhead in Hex.
    injection Hrun as -> _. discriminate.
  - simpl in Hrun. unfold sieve_search in Hrun.
    rewrite sieve_primes_schedule in Hrun.
    destruct (sieve_steps Plist p _ _) as [st|r] eqn:Hsteps; [discriminate|].
    simpl in Hrun. injection Hrun as -> _.
    destruct (sieve_steps_result _ _ _ _ _ Hsteps) as [Hr|[[A Hr]|[e Hr]]];
      try discriminate.
    rewrite (kernel_check_saturated laws Plist p A Hp Hsat (Hker A)) in Hr.
    discriminate.
Qed.
End FailureJustified.

(** Witness of [exhaustive_failure_is_justified]: on [(1, 0)], [(0, 3)] in
    [Z x Z] at [p = 3] the search answers index 1 and the point [(0, 1)]. *)
Lemma exhaustive_failure_is_justified_witness :
  (exists w, normalized 3 2 w /\ w !! 1%nat = Some 1%Z
             /\ @smul Lattice.point (Lattice.curve 0) 3 (0, 1)%Z
                = @combination Lattice.point (Lattice.curve 0) w [(1, 0)%Z; (0, 3)%Z])
  /\ ~ @p_saturated Lattice.point (Lattice.curve 0) [(1, 0)%Z; (0, 3)%Z] 3.
Proof.
  refine (@exhaustive_failure_is_justified Lattice.point Lattice.grp Lattice.fpoint Z
            (Lattice.curve 0) (Lattice.reduction 2 1) (Lattice.sieve 0) Gauss.ops
            0%nat [(1, 0)%Z; (0, 3)%Z] 3%Z ∅ _ 1%nat (0, 1)%Z
            lattice_free_laws Z.prime_3 (cache_coherent_empty _) _).
  vm_compute; reflexivity.
Defined.

(** Witness of [sieve_failure_is_justified]: on [(1, 2)], [(2, 1)] in
    [Z x Z] at [p = 3] the sieve answers index 0 and the point [(1, 1)]. *)
Lemma sieve_failure_is_justified_witness :
  ~ @p_saturated Lattice.point (Lattice.curve 0) [(1, 2)%Z; (2, 1)%Z] 3.
Proof.
  refine (@sieve_failure_is_justified Lattice.point Lattice.grp Lattice.fpoint Z
            (Lattice.curve 0) (Lattice.reduction 2 1) (Lattice.sieve 0) Gauss.ops
            20%nat [(1, 2)%Z; (2, 1)%Z] 3%Z ∅ ∅ 0%nat (1, 1)%Z
            lattice_free_laws Z.prime_3 _ _).
  - intros A. apply GaussKernel.kernel_independent. lia.
  - vm_compute; reflexivity.
Defined.

(** ** The vectors that [p_projections] answers *)

Lemma vector_mod_shape (p : Z) (v : list Z) :
  (0 < p)%Z ->
  length (vector_mod p v) = length v
  /\ Forall (fun x => 0 <= x < p)%Z (vector_mod p v).
Proof.
  intros Hp. unfold vector_mod. split; [apply length_map|].
  apply Forall_forall. intros y Hy.
  apply list_elem_of_In, in_map_iff in Hy as (x & <- & _).
  apply Z.mod_pos_bound. exact Hp.
Qed.

Section ProjectionShape.
Context {Grp FPoint Fq : Type} `{ReductionOps Grp FPoint Fq}.

(** X6.  What [p_projections] answers is a list of vectors of [GF(p)^n], [n]
    being the number of points: each has one entry for each point, in
    [0, p).  There are as many vectors as nonzero scaled generators, one or
    two, unless the [p]-primary part is trivial and there is none. *)
Theorem p_projections_shape (G : Grp) (Plist : list FPoint) (p : Z)
    (debug : bool) (vecs : list (list Z)) :
  (0 < p)%Z ->
  p_projections G Plist p debug = Ok vecs ->
  Forall (fun v => length v = length Plist /\ Forall (fun x => 0 <= x < p)%Z v) vecs
  /\ (length vecs <= 2)%nat
  /\ (cofactor G p <> G_order G -> length vecs = length (scaled_gens G p)).
Proof.
  intros Hp. unfold p_projections. fold (cofactor G p).
  destruct (cofactor G p =? G_order G)%Z eqn:Hm.
  { intros [= <-]. apply Z.eqb_eq in Hm.
    split; [constructor|]. split; [simpl; lia | congruence]. }
  fold (scaled_gens G p).
  destruct (length (scaled_gens G p) =? 1)%nat eqn:Hone.
  - apply Nat.eqb_eq in Hone.
    destruct (py_getitem (scaled_gens G p) 0); simpl; [|discriminate].
    match goal with |- context [res_map ?f ?l] => destruct (res_map f l) as [v|e] eqn:Hv end;
      simpl; [|discriminate].
    intros [= <-]. apply res_map_length in Hv. rewrite length_map in Hv.
    destruct (vector_mod_shape p v Hp) as [Hl Hr].
    split; [|split; [simpl; lia | intros _; simpl; lia]].
    constructor; [|constructor]. split; [lia | exact Hr].
  - destruct (py_min _); simpl; [|discriminate].
    destruct (py_max _); simpl; [|discriminate].
    destruct (scaled_gens G p) as [|g1 [|g2 [|g3 gs]]]; try discriminate.
    destruct (weil_pairing g1 g2 _); simpl; [|discriminate].
    destruct (negb _); [discriminate|].
    match goal with |- context [res_map ?f ?l ≫= _] =>
      destruct (res_map f l) as [v1|e] eqn:Hv1 end; simpl; [|discriminate].
    match goal with |- context [res_map ?f ?l ≫= _] =>
      destruct (res_map f l) as [v2|e] eqn:Hv2 end; simpl; [|discriminate].
    intros [= <-]. apply res_map_length in Hv1, Hv2.
    rewrite length_map in Hv1, Hv2.
    destruct (vector_mod_shape p v1 Hp) as [Hl1 Hr1].
    destruct (vector_mod_shape p v2 Hp) as [Hl2 Hr2].
    split; [|split; [simpl; lia | intros _; reflexivity]].
    constructor; [split; [lia | exact Hr1]|].
    constructor; [split; [lia | exact Hr2]|constructor].
Qed.
End ProjectionShape.

(** Witness of [p_projections_shape]: the group [Z/3 x Z/3] at [p = 3]. *)
Lemma p_projections_shape_witness :
  Forall (fun v => length v = 2%nat /\ Forall (fun x => 0 <= x < 3)%Z v)
         [[1; 2]%Z; [1; 0]%Z]
  /\ (length [[1; 2]%Z; [1; 0]%Z] <= 2)%nat.
Proof.
  destruct (@p_projections_shape _ _ _ (Lattice.reduction 7 2) (3, 3)%Z
              [((3, 3), (1, 2))%Z; ((3, 3), (0, 1))%Z] 3%Z false
              [[1; 2]%Z; [1; 0]%Z]) as (Hs & Hl & _).
  - lia.
  - reflexivity.
  - split; [exact Hs | exact Hl].
Defined.

(** ** Success of the search without sieve, and the end of the sieve *)

Section SuccessSound.
Context {Point Grp FPoint Fq : Type}
        `{CurveOps Point} `{ReductionOps Grp FPoint Fq}
        `{SieveOps Point Grp FPoint} `{LinAlgOps}.

Lemma exhaustive_loop_success (tables : list (list Point)) (p : Z)
    (Plist : list Point) (tuples : list (list Z)) (c : cache Point) :
  (forall w, In w tuples -> table_sum tables w = Ok (combination w Plist)) ->
  cache_coherent Plist c ->
  (exhaustive_loop tables p tuples c).1 = Ok Saturated ->
  forall w, In w tuples -> division_points (combination w Plist) p = [].
Proof.
  revert c. induction tuples as [|w tuples IH]; intros c Hsum Hc Hrun u Hu;
    [destruct Hu|].
  destruct (exhaustive_loop_step tables p Plist w tuples c) as (c1 & Hc1 & _ & _ & Hstep).
  { apply Hsum. left. reflexivity. }
  { exact Hc. }
  rewrite Hstep in Hrun.
  destruct (division_points (combination w Plist) p) as [|E ds] eqn:Hd.
  - destruct Hu as [<-|Hu]; [exact Hd|].
    apply (IH c1); [|exact Hc1|exact Hrun|exact Hu].
    intros v Hv. apply Hsum. right. exact Hv.
  - simpl in Hrun. destruct (tuple_index w 1); discriminate.
Qed.

(** X12.  For a prime [p], without sieve, and with a dict that holds
    combinations of [Plist], the answer [(True, lin_combs)] is right: no
    combination of the points whose coefficient tuple is a point of
    projective space over [GF(p)] is divisible by [p]. *)
Theorem exhaustive_success_is_sound (fuel : nat) (Plist : list Point) (p : Z)
    (c c' : cache Point) :
  curve_laws Point ->
  Z.prime p ->
  cache_coherent Plist c ->
  p_saturation fuel Plist p false c = Some (Ok Saturated, c') ->
  p_saturated Plist p.
Proof.
  intros laws Hprime Hc Hrun w Hw [D HD].
  pose proof (Z.prime_ge_2 p Hprime) as Hp.
  assert (Hin : In D (division_points (combination w Plist) p)).
  { apply (division_points_spec laws); [lia | exact HD]. }
  rewrite p_saturation_sieve_false in Hrun. injection Hrun as Hrun.
  apply (f_equal fst) in Hrun. simpl in Hrun.
  unfold p_saturation_nosieve in Hrun.
  destruct (p_saturation_head Plist p) as [r|] eqn:Hhead.
  - simpl in Hrun. subst r. unfold p_saturation_head in Hhead.
    destruct (length Plist =? 0)%nat eqn:Hz.
    + apply Nat.eqb_eq in Hz. destruct Hw as (v & k & -> & Hlen & _).
      rewrite length_app in Hlen. simpl in Hlen. lia.
    + destruct ((length Plist =? 1)%nat && (p =? 2)%Z)%bool eqn:Hsp; [|discriminate].
      apply andb_true_iff in Hsp as [Hl Hp2]. apply Nat.eqb_eq in Hl.
      apply Z.eqb_eq in Hp2. subst p.
      destruct Plist as [|P0 [|P1 Plist]]; try discriminate.
      simpl in Hhead.
      assert (Hw1 : w = [1%Z]).
      { destruct Hw as (v & k & -> & Hlen & _).
        rewrite length_app in Hlen. simpl in Hlen. rewrite length_replicate in Hlen.
        destruct v; [|simpl in Hlen; lia]. destruct k; [reflexivity | simpl in Hlen; lia]. }
      subst w.
      assert (Hcomb : combination [1%Z] [P0] = P0).
      { unfold combination, py_sum, multiple. simpl.
        rewrite !(add_zero laws). reflexivity. }
      rewrite Hcomb in Hin.
      destruct (division_points P0 2) as [|E ds]; [destruct Hin|].
      simpl in Hhead. discriminate.
  - assert (Hne : Plist <> []) by (intros ->; discriminate).
    unfold exhaustive_search in Hrun.
    destruct (mults_tables Plist p) as [tables|e] eqn:Ht; [|discriminate].
    rewrite (exhaustive_loop_success tables p Plist
               (ProjectiveSpace p (length Plist - 1)) c) with (w := w) in Hin.
    + destruct Hin.
    + intros u Hu. apply (table_sum_normalized p); [exact Hp | exact Ht|].
      apply general_tuples; assumption.
    + exact Hc.
    + exact Hrun.
    + apply ProjectiveSpace_In.
      replace (S (length Plist - 1)) with (length Plist); [exact Hw|].
      destruct Plist; [congruence | simpl; lia].
Qed.
End SuccessSound.

Section SieveAnswers.
Context {Point Grp FPoint Fq : Type}
        `{CurveOps Point} `{ReductionOps Grp FPoint Fq}
        `{SieveOps Point Grp FPoint} `{LinAlgOps}.
Variables (Plist : list Point) (p : Z).
Hypothesis rank_mono :
  forall A rows, (mat_rank p A <= mat_rank p (A ++ rows))%nat.
Hypothesis rank_bound :
  forall A, Forall (fun r => length r = length Plist) A ->
            (mat_rank p A <= length Plist)%nat.

Lemma sieve_body_advances (q amodq : Z) (st : sieve_state)
    (vecs : list (list Z)) :
  sieve_inv Plist p st ->
  has_p_torsion p (q, amodq) = true ->
  place_rows Plist p (q, amodq) = Ok vecs ->
  (exists r, sieve_body Plist p q amodq st = Return r)
  \/ exists st', sieve_body Plist p q amodq st = Continue st'
                 /\ sieve_inv Plist p st'
                 /\ (sieve_measure Plist st' < sieve_measure Plist st)%nat.
Proof.
  intros (Hle & Hlt & Hcount & Hrows) Htors Hvecs.
  pose proof (place_rows_length _ _ _ _ Hvecs) as Hlen.
  unfold has_p_torsion in Htors. unfold place_rows in Hvecs. simpl in Htors, Hvecs.
  unfold sieve_body. rewrite Htors. simpl. rewrite Hvecs.
  assert (Hrows' : Forall (fun r => length r = length Plist) (sv_A st ++ vecs)).
  { apply Forall_app. split; assumption. }
  pose proof (rank_mono (sv_A st) vecs) as Hmono.
  pose proof (rank_bound _ Hrows') as Hbound.
  destruct (mat_rank p (sv_A st ++ vecs) =? length Plist)%nat eqn:Hfull;
    [left; eexists; reflexivity|].
  apply Nat.eqb_neq in Hfull.
  destruct (mat_rank p (sv_A st ++ vecs) =? sv_rankA st)%nat eqn:Hsame.
  - apply Nat.eqb_eq in Hsame.
    change (S (sv_count st) =? 10)%nat with (sv_count st =? 9)%nat.
    destruct (sv_count st =? 9)%nat eqn:Hten.
    + left. eexists. reflexivity.
    + apply Nat.eqb_neq in Hten. right. eexists. split; [reflexivity|].
      unfold sieve_inv, sieve_measure. simpl. repeat split; try lia. exact Hrows'.
  - apply Nat.eqb_neq in Hsame. right. eexists. split; [reflexivity|].
    unfold sieve_inv, sieve_measure. simpl. repeat split; try lia. exact Hrows'.
Qed.

Lemma sieve_steps_answer (places : list (Z * Z)) (st : sieve_state) :
  sieve_inv Plist p st ->
  Forall (fun qa => has_p_torsion p qa = true ->
                    exists vecs, place_rows Plist p qa = Ok vecs) places ->
  (sieve_measure Plist st <= length (List.filter (has_p_torsion p) places))%nat ->
  exists r, sieve_steps Plist p places st = Return r.
Proof.
  intros Hinv Hok. revert st Hinv.
  induction Hok as [|[q a] places Hqa _ IH]; intros st Hinv Hm.
  - destruct Hinv as (_ & Hlt & Hcount & _).
    unfold sieve_measure in Hm. simpl in Hm. lia.
  - simpl in Hm. simpl.
    destruct (has_p_torsion p (q, a)) eqn:Ht.
    + destruct (Hqa eq_refl) as (vecs & Hvecs).
      destruct (sieve_body_advances q a st vecs Hinv Ht Hvecs)
        as [[r ->]|(st' & -> & Hinv' & Hlt)]; [exists r; reflexivity|].
      apply IH; [exact Hinv'|]. simpl in Hm. lia.
    + unfold has_p_torsion in Ht. simpl in Ht.
      unfold sieve_body. rewrite Ht. simpl. apply IH; assumption.
Qed.

(** X13.  The search through the primes comes to an end, saturated points
    or not.  Let the rank not drop when rows are added and be at most the
    number of columns, and let the reductions used among the first [N]
    primes give their rows without a failure, [10*n] of them having [p]
    dividing the order of the reduced curve.  Then [p_saturation] with the
    sieve answers within these [N] primes, and leaves the dict as it is. *)
Theorem sieve_answers_within (N : nat) (c : cache Point) :
  Forall (fun qa => has_p_torsion p qa = true ->
                    exists vecs, place_rows Plist p qa = Ok vecs)
         (sieve_schedule Plist 0 N) ->
  (10 * length Plist
   <= length (List.filter (has_p_torsion p) (sieve_schedule Plist 0 N)))%nat ->
  forall fuel, (N <= fuel)%nat ->
    exists r, p_saturation fuel Plist p true c = Some (r, c).
Proof.
  intros Hok Hmany fuel Hfuel. unfold p_saturation.
  destruct (p_saturation_head Plist p) as [r|] eqn:Hhead;
    [exists r; reflexivity|].
  simpl. unfold sieve_search. rewrite sieve_primes_schedule.
  replace fuel with (N + (fuel - N))%nat by lia.
  rewrite sieve_schedule_app, sieve_steps_app.
  destruct (sieve_steps_answer (sieve_schedule Plist 0 N) (SieveState [] 0 0))
    as [r ->].
  - unfold sieve_inv. simpl. repeat split; try lia; [|constructor].
    destruct Plist; [discriminate | simpl; lia].
  - exact Hok.
  - unfold sieve_measure. simpl. lia.
  - exists r. reflexivity.
Qed.
End SieveAnswers.

(** Witness of [exhaustive_success_is_sound]: the points [(1, 2)], [(0, 1)]
    of [Z x Z] at [p = 3]. *)
Lemma exhaustive_success_is_sound_witness :
  @p_saturated Lattice.point (Lattice.curve 0) [(1, 2)%Z; (0, 1)%Z] 3.
Proof.
  refine (@exhaustive_success_is_sound Lattice.point Lattice.grp Lattice.fpoint Z
            (Lattice.curve 0) (Lattice.reduction 2 1) (Lattice.sieve 0) Gauss.ops
            0%nat [(1, 2)%Z; (0, 1)%Z] 3%Z ∅ _
            lattice_free_laws Z.prime_3 (cache_coherent_empty _) _).
  vm_compute; reflexivity.
Defined.

(** Witness of [sieve_answers_within]: the points [(1, 2)], [(2, 1)] of
    [Z x Z] at [p = 3], with the first 39 primes. *)
Lemma sieve_answers_within_witness :
  exists r, Run.p_saturation_free 39 [(1, 2)%Z; (2, 1)%Z] 3 true ∅ = Some (r, ∅).
Proof.
  refine (@sieve_answers_within Lattice.point Lattice.grp Lattice.fpoint Z
            (Lattice.curve 0) (Lattice.reduction 2 1) (Lattice.sieve 0) Gauss.ops
            [(1, 2)%Z; (2, 1)%Z] 3%Z _ _ 39%nat ∅ _ _ 39%nat _).
  - intros A rows. apply GaussFacts.rank_app_le.
  - intros A HA. apply GaussFacts.rank_le_columns; [exact Z.prime_3 | exact HA].
  - vm_compute sieve_schedule.
    repeat (constructor; [intros _; eexists; vm_compute; reflexivity|]).
    constructor.
  - vm_compute. lia.
  - lia.
Defined.

(** ** What the sieve can raise *)

Lemma zip_with_add_zero (a b : list Z) :
  Forall (fun x => x = 0%Z) a -> Forall (fun x => x = 0%Z) b ->
  Forall (fun x => x = 0%Z) (zip_with Z.add a b).
Proof.
  intros Ha. revert b. induction Ha as [|x a -> _ IH]; intros b Hb; simpl;
    [constructor|].
  destruct Hb as [|y b -> Hb]; constructor; [reflexivity | apply IH, Hb].
Qed.

Lemma vec_comb_zero_terms (n : nat) (w : list Z) (V : list (list Z)) :
  Forall (fun av => Forall (fun x => x = 0%Z) (map (Z.mul av.1) av.2)) (zip w V) ->
  Forall (fun x => x = 0%Z) (vec_comb n w V).
Proof.
  unfold vec_comb. induction 1 as [|av l Hav _ IH]; simpl.
  - apply Forall_forall. intros x Hx. apply elem_of_replicate in Hx as [-> _].
    reflexivity.
  - apply zip_with_add_zero; assumption.
Qed.

Lemma zip_zeros_terms (V : list (list Z)) :
  Forall (fun av : Z * list Z => Forall (fun x => x = 0%Z) (map (Z.mul av.1) av.2))
         (zip (replicate (length V) 0%Z) V).
Proof.
  induction V as [|r V IH]; simpl; constructor; [|exact IH].
  simpl. apply Forall_forall. intros x Hx.
  apply list_elem_of_In, in_map_iff in Hx as (y & <- & _). reflexivity.
Qed.

(** Independent vectors are not zero. *)
Lemma independent_nonzero (p : Z) (n : nat) (V : list (list Z)) (v : list Z) :
  (2 <= p)%Z -> independent_mod p n V -> In v V ->
  ~ Forall (fun x => x = 0%Z) v.
Proof.
  intros Hp Hind Hin Hzero.
  apply in_split in Hin as (V1 & V2 & ->).
  set (w := replicate (length V1) 0%Z ++ 1%Z :: replicate (length V2) 0%Z).
  assert (Hw : Forall (fun x => x mod p = 0)%Z w).
  { apply Hind.
    - unfold w. rewrite !length_app. simpl. rewrite !length_replicate. reflexivity.
    - apply (Forall_impl (fun x => x = 0%Z));
        [|intros x ->; apply Z.mod_0_l; lia].
      apply vec_comb_zero_terms. unfold w.
      rewrite zip_with_app by apply length_replicate.
      apply Forall_app. split; [apply zip_zeros_terms|].
      simpl. constructor; [|apply zip_zeros_terms].
      simpl. apply Forall_forall. intros x Hx.
      apply list_elem_of_In, in_map_iff in Hx as (y & <- & Hy).
      rewrite Forall_forall in Hzero.
      rewrite (Hzero y) by (apply list_elem_of_In, Hy). destruct y; reflexivity. }
  unfold w in Hw. apply Forall_app in Hw as [_ Hw].
  apply Forall_cons in Hw as [Hone _].
  rewrite Z.mod_1_l in Hone by lia. discriminate.
Qed.

Lemma first_nonzero_total (v : list Z) :
  ~ Forall (fun x => x = 0%Z) v -> exists j, first_nonzero v = Ok j.
Proof.
  induction v as [|x v IH]; intros Hnz; [destruct Hnz; constructor|].
  simpl. destruct (x =? 0)%Z eqn:Hx; [|eauto].
  apply Z.eqb_eq in Hx. subst x. destruct IH as [j ->].
  - intros Hz. apply Hnz. constructor; [reflexivity | exact Hz].
  - simpl. eauto.
Qed.

Section SieveExceptions.
Context {Point Grp FPoint Fq : Type}
        `{CurveOps Point} `{ReductionOps Grp FPoint Fq}
        `{SieveOps Point Grp FPoint} `{LinAlgOps}.

Lemma kernel_check_never_raises (Plist : list Point) (p : Z) (A : list (list Z)) :
  (2 <= p)%Z ->
  kernel_ok p (length Plist) (right_kernel_basis p (length Plist) A) ->
  exists v, kernel_check Plist p A = Ok v.
Proof.
  intros Hp [_ Hind]. unfold kernel_check.
  set (vecs := right_kernel_basis p (length Plist) A) in *.
  destruct (nosieve_never_raises (kernel_points vecs Plist) p ∅ Hp)
    as (v & c' & Hsub).
  pose proof (nosieve_index (kernel_points vecs Plist) p ∅) as Hidx.
  rewrite Hsub in Hidx. rewrite Hsub. simpl in *.
  destruct v as [|k D]; [eauto|].
  specialize (Hidx k D eq_refl).
  unfold kernel_points in Hidx. rewrite length_map in Hidx.
  destruct (lookup_lt_is_Some_2 vecs k Hidx) as [u Hu].
  rewrite (py_getitem_lookup vecs (Z.of_nat k) u);
    [|lia|rewrite Nat2Z.id; exact Hu].
  simpl.
  destruct (first_nonzero_total u) as [j ->]; [|simpl; eauto].
  apply (independent_nonzero p (length Plist) vecs); [exact Hp | exact Hind|].
  apply list_elem_of_In. eapply list_elem_of_lookup_2, Hu.
Qed.

Lemma place_rows_no_ValueError (Plist : list Point) (p : Z) (qa : Z * Z) :
  place_rows Plist p qa <> Raise ValueError.
Proof.
  unfold place_rows, projections_with_retry.
  destruct (p_projections _ _ p false) as [vs|[]]; simpl; try discriminate.
  destruct (p_projections _ _ p true) as [vs|[]]; simpl; discriminate.
Qed.

Lemma sieve_steps_raise (Plist : list Point) (p : Z) (places : list (Z * Z))
    (st : sieve_state) (e : exn) :
  sieve_steps Plist p places st = Return (Raise e) ->
  (exists A, kernel_check Plist p A = Raise e)
  \/ exists qa, In qa places /\ has_p_torsion p qa = true
                /\ place_rows Plist p qa = Raise e.
Proof.
  revert st. induction places as [|qa places IH]; intros st; simpl; [discriminate|].
  destruct (sieve_body Plist p qa.1 qa.2 st) as [st'|r'] eqn:Hbody.
  - intros Hrest. destruct (IH st' Hrest) as [HA|(qa' & Hin & Hq)]; [left; exact HA|].
    right. exists qa'. split; [right; exact Hin | exact Hq].
  - intros [= ->]. unfold sieve_body in Hbody.
    destruct (divides p (Ek_cardinality qa.1 qa.2)) eqn:Hdiv; simpl in Hbody;
      [|discriminate].
    destruct (projections_with_retry _ _ p).1 as [vecs|e'] eqn:Hrows.
    + destruct (_ =? length Plist)%nat; [discriminate|].
      destruct (_ =? sv_rankA st)%nat; [|discriminate].
      destruct (sv_count st =? 9)%nat; [|discriminate].
      injection Hbody as Hbody. left. eauto.
    + injection Hbody as ->. right. exists qa.
      split; [left; reflexivity|]. split; [exact Hdiv | exact Hrows].
Qed.

(** X14.  With the sieve, for a prime [p] and kernel bases made of
    independent vectors, an exception that leaves [p_saturation] is one that
    [p_projections] raised at a reduction where [p] divides the order of the
    reduced curve, and it is not a [ValueError]: the head of the function,
    the kernel check and its search without sieve raise nothing. *)
Theorem sieve_exceptions_come_from_projections (fuel : nat) (Plist : list Point)
    (p : Z) (c c' : cache Point) (e : exn) :
  Z.prime p ->
  (forall A, kernel_ok p (length Plist) (right_kernel_basis p (length Plist) A)) ->
  p_saturation fuel Plist p true c = Some (Raise e, c') ->
  e <> ValueError
  /\ exists qa, In qa (sieve_schedule Plist 0 fuel)
                /\ has_p_torsion p qa = true
                /\ place_rows Plist p qa = Raise e.
Proof.
  intros Hprime Hker Hrun. pose proof (Z.prime_ge_2 p Hprime) as Hp.
  unfold p_saturation in Hrun.
  destruct (p_saturation_head Plist p) as [r|] eqn:Hhead.
  - exfalso. destruct (nosieve_never_raises Plist p c Hp) as (v & c0 & Hv).
    unfold p_saturation_nosieve in Hv. rewrite Hhead in Hv.
    injection Hrun as -> _. discriminate.
  - simpl in Hrun. unfold sieve_search in Hrun.
    rewrite sieve_primes_schedule in Hrun.
    destruct (sieve_steps Plist p _ _) as [st|r] eqn:Hsteps; [discriminate|].
    simpl in Hrun. injection Hrun as -> _.
    destruct (sieve_steps_raise _ _ _ _ _ Hsteps) as [[A HA]|(qa & Hin & Ht & Hrows)].
    + destruct (kernel_check_never_raises Plist p A Hp (Hker A)) as [v Hv].
      congruence.
    + split; [|exists qa; auto].
      intros ->. apply (place_rows_no_ValueError Plist p qa Hrows).
Qed.
End SieveExceptions.

(** Witness of [sieve_exceptions_come_from_projections]: on [Z x Z/2] at
    [p = 2], with the pairing that is constant, the sieve is left by the
    [AssertionError] of [p_projections]. *)
Lemma sieve_exceptions_come_from_projections_witness :
  AssertionError <> ValueError
  /\ exists qa,
       In qa (@sieve_schedule Lattice.point Lattice.grp Lattice.fpoint
                (Lattice.sieve 2) [(1, 0)%Z; (0, 1)%Z] 0 5)
       /\ @has_p_torsion Lattice.point Lattice.grp Lattice.fpoint
            (Lattice.sieve 2) 2 qa = true
       /\ @place_rows Lattice.point Lattice.grp Lattice.fpoint Z
            (Lattice.reduction 3 1) (Lattice.sieve 2)
            [(1, 0)%Z; (0, 1)%Z] 2 qa = Raise AssertionError.
Proof.
  refine (@sieve_exceptions_come_from_projections Lattice.point Lattice.grp Lattice.fpoint Z
            (Lattice.curve 2) (Lattice.reduction 3 1) (Lattice.sieve 2) Gauss.ops
            5%nat [(1, 0)%Z; (0, 1)%Z] 2%Z ∅ ∅ AssertionError Z.prime_2 _ _).
  - intros A. apply GaussKernel.kernel_independent. lia.
  - vm_compute; reflexivity.
Defined.

(** * Further properties of [full_p_saturation] *)

Lemma py_setitem_length {A} (l l' : list A) (i : Z) (x : A) :
  py_setitem l i x = Ok l' -> length l' = length l.
Proof.
  unfold py_setitem. destruct (_ <? 0)%Z; [discriminate|].
  destruct (_ <? length l)%nat; [|discriminate].
  intros [= <-]. apply length_insert.
Qed.

Section StoreProperties.
Context {Point Grp FPoint Fq : Type}
        `{CurveOps Point} `{ReductionOps Grp FPoint Fq}
        `{SieveOps Point Grp FPoint} `{LinAlgOps}.

(** The loop over the torsion generators: the points get the generators
    whose order is divisible by [p], in a list that is new as soon as there
    is one; no list that exists is touched, and no dict. *)
Lemma add_torsion_spec (Tgens : list Point) (h : heap Point) (Plist nx : nat)
    (p : Z) (l : list Point) :
  h_lists h !! Plist = Some l ->
  let extras := List.filter (fun T => divides p (order T)) Tgens in
  exists h' Plist',
    add_torsion h Plist nx p Tgens = Some (h', Plist', (nx + length extras)%nat)
    /\ h_lists h' !! Plist' = Some (l ++ extras)
    /\ h_dicts h' = h_dicts h
    /\ (exists news, h_lists h' = h_lists h ++ news)
    /\ (extras = [] -> h' = h /\ Plist' = Plist)
    /\ (extras <> [] -> (length (h_lists h) <= Plist')%nat).
Proof.
  revert h Plist nx l. induction Tgens as [|T Tgens IH]; intros h Plist nx l Hl; simpl.
  - exists h, Plist. rewrite Nat.add_0_r, app_nil_r.
    split; [reflexivity|]. split; [exact Hl|]. split; [reflexivity|].
    split; [exists []; rewrite app_nil_r; reflexivity|].
    split; [intros _; split; reflexivity | congruence].
  - destruct (divides p (order T)) eqn:HT; [|apply IH; exact Hl].
    rewrite Hl. simpl.
    set (h1 := Heap (h_lists h ++ [l ++ [T]]) (h_dicts h)).
    assert (Hl1 : h_lists h1 !! length (h_lists h) = Some (l ++ [T])).
    { simpl. rewrite lookup_app_r by lia. rewrite Nat.sub_diag. reflexivity. }
    destruct (IH h1 (length (h_lists h)) (S nx) (l ++ [T]) Hl1)
      as (h' & Plist' & Hrun & Hl' & Hd & [news Hnews] & Hnil & Hcons).
    exists h', Plist'.
    split; [rewrite Hrun; do 2 f_equal; lia|].
    split; [rewrite Hl', <- app_assoc; reflexivity|].
    split; [exact Hd|].
    split; [exists ([l ++ [T]] ++ news); rewrite Hnews; simpl; rewrite <- app_assoc; reflexivity|].
    split; [discriminate|].
    intros _.
    destruct (List.filter (fun T => divides p (order T)) Tgens) as [|T' ex] eqn:Hex.
    + destruct (Hnil eq_refl) as [_ ->]. lia.
    + assert (Hge : (length (h_lists h1) <= Plist')%nat) by (apply Hcons; discriminate).
      simpl in Hge. rewrite length_app in Hge. simpl in Hge. lia.
Qed.

(** The loop of replacements: it writes into the list it works on and
    nowhere else; that list keeps its length; every call of [p_saturation]
    gets the same dict with the same content; and there is one call more
    than replacements. *)
Lemma saturation_loop_spec (fuel : nat) (h h' : heap Point) (Plist : nat) (p : Z)
    (lin_combs exponent : nat) (calls calls' : list (invocation Point))
    (r : res nat) (l : list Point) (c : cache Point) :
  h_lists h !! Plist = Some l ->
  h_dicts h !! lin_combs = Some c ->
  saturation_loop fuel h Plist p lin_combs exponent calls = Some (r, h', calls') ->
  h_dicts h' = h_dicts h
  /\ length (h_lists h') = length (h_lists h)
  /\ (forall i, i <> Plist -> h_lists h' !! i = h_lists h !! i)
  /\ (exists l', h_lists h' !! Plist = Some l' /\ length l' = length l)
  /\ exists news,
       calls' = calls ++ news
       /\ Forall (fun iv => inv_dict iv = lin_combs /\ inv_cache iv = c
                            /\ length (inv_Plist iv) = length l) news
       /\ (exists first, news !! 0%nat = Some first /\ inv_Plist first = l)
       /\ (forall e, r = Ok e -> (e + 1 = exponent + length news)%nat).
Proof.
  revert h exponent calls l. induction fuel as [|fuel IH];
    intros h exponent calls l Hl Hc; simpl; [discriminate|].
  rewrite Hl, Hc. simpl.
  destruct (p_saturation_ref fuel h Plist p true lin_combs) as [[r0 h0]|] eqn:Href;
    simpl; [|discriminate].
  pose proof (p_saturation_ref_sieve_keeps_heap _ _ _ _ _ _ _ Href) as ->.
  assert (Hone : Forall (fun iv => inv_dict iv = lin_combs /\ inv_cache iv = c
                                   /\ length (inv_Plist iv) = length l)
                        [Invocation l lin_combs c]).
  { constructor; [|constructor]. simpl. auto. }
  assert (Hstop : forall r1,
             Some (r1, h, calls ++ [Invocation l lin_combs c]) = Some (r, h', calls') ->
             (forall e, r1 = Ok e -> e = exponent) ->
             h_dicts h' = h_dicts h
             /\ length (h_lists h') = length (h_lists h)
             /\ (forall i, i <> Plist -> h_lists h' !! i = h_lists h !! i)
             /\ (exists l', h_lists h' !! Plist = Some l' /\ length l' = length l)
             /\ exists news,
                  calls' = calls ++ news
                  /\ Forall (fun iv => inv_dict iv = lin_combs /\ inv_cache iv = c
                                       /\ length (inv_Plist iv) = length l) news
                  /\ (exists first, news !! 0%nat = Some first /\ inv_Plist first = l)
                  /\ (forall e, r = Ok e -> (e + 1 = exponent + length news)%nat)).
  { intros r1 [= <- <- <-] He. repeat split; try reflexivity.
    - exists l. split; [exact Hl | reflexivity].
    - exists [Invocation l lin_combs c]. split; [reflexivity|].
      split; [exact Hone|]. split; [eexists; split; reflexivity|].
      intros e ->%He. simpl. lia. }
  destruct r0 as [[|i newP]|e].
  - intros Hrun. apply (Hstop _ Hrun). intros e [= <-]. reflexivity.
  - rewrite Hl. simpl.
    destruct (py_setitem l (Z.of_nat i) newP) as [l2|e] eqn:Hset.
    2:{ intros Hrun. apply (Hstop _ Hrun). discriminate. }
    intros Hrun.
    pose proof (py_setitem_length _ _ _ _ Hset) as Hlen2.
    assert (Hlt : (Plist < length (h_lists h))%nat) by (eapply lookup_lt_Some, Hl).
    destruct (IH (store_list h Plist l2) (S exponent)
                 (calls ++ [Invocation l lin_combs c]) l2)
      as (Hd & Hlen & Hoth & (l' & Hl' & Hll') & news & Hcalls & Hall & _ & Hexp).
    { simpl. apply list_lookup_insert_eq. exact Hlt. }
    { exact Hc. }
    { exact Hrun. }
    simpl in Hd, Hlen, Hoth. rewrite length_insert in Hlen.
    split; [exact Hd|]. split; [exact Hlen|]. split.
    { intros j Hj. rewrite (Hoth j Hj). apply list_lookup_insert_ne. congruence. }
    split; [exists l'; split; [exact Hl' | lia]|].
    exists (Invocation l lin_combs c :: news).
    split; [rewrite Hcalls, <- app_assoc; reflexivity|].
    split.
    { constructor; [simpl; auto|].
      eapply Forall_impl; [exact Hall|]. simpl. intros iv (H5 & H6 & H7).
      repeat split; [exact H5 | exact H6 | lia]. }
    split; [eexists; split; reflexivity|].
    intros e0 He0. specialize (Hexp e0 He0). simpl. lia.
  - intros Hrun. apply (Hstop _ Hrun). discriminate.
Qed.
End StoreProperties.

Section FullSaturationProperties.
Context {Point Grp FPoint Fq : Type}
        `{CurveOps Point} `{ReductionOps Grp FPoint Fq}
        `{SieveOps Point Grp FPoint} `{LinAlgOps}.

(** [full_p_saturation] on a list that is not empty, when no torsion
    generator is added: the work is done in the caller's list. *)
Lemma full_p_saturation_in_place (fuel : nat) (h h' : heap Point)
    (Plist lin_combs : nat) (p : Z) (l : list Point) (c : cache Point)
    (out : res (nat * nat)) (calls : list (invocation Point)) :
  h_lists h !! Plist = Some l -> l <> [] ->
  h_dicts h !! lin_combs = Some c ->
  added_torsion p = [] ->
  full_p_saturation fuel h Plist p lin_combs = Some (out, h', calls) ->
  h_dicts h' = h_dicts h
  /\ length (h_lists h') = length (h_lists h)
  /\ (forall i, i <> Plist -> h_lists h' !! i = h_lists h !! i)
  /\ (exists l', h_lists h' !! Plist = Some l' /\ length l' = length l)
  /\ Forall (fun iv => inv_dict iv = lin_combs /\ inv_cache iv = c
                       /\ length (inv_Plist iv) = length l) calls
  /\ (forall r e, out = Ok (r, e) -> r = Plist /\ length calls = S e).
Proof.
  intros Hl Hne Hc Hex. unfold full_p_saturation. rewrite Hl. simpl.
  destruct (length l =? 0)%nat eqn:Hn;
    [apply Nat.eqb_eq in Hn; destruct l; [congruence | discriminate]|].
  destruct (add_torsion_spec torsion_gens h Plist (length l) p l Hl)
    as (h1 & Plist1 & Hadd & _ & _ & _ & Hnil & _).
  fold (added_torsion p) in Hadd, Hnil. destruct (Hnil Hex) as [-> ->].
  rewrite Hex in Hadd. simpl in Hadd. rewrite Nat.add_0_r in Hadd.
  rewrite Hadd. simpl. rewrite Nat.sub_diag. simpl.
  destruct (saturation_loop fuel h Plist p lin_combs 0 []) as [[[r0 h3] cs]|] eqn:Hloop;
    simpl; [|discriminate].
  destruct (saturation_loop_spec _ _ _ _ _ _ _ _ _ _ _ _ Hl Hc Hloop)
    as (Hd & Hlen & Hoth & Hsame & news & Hcalls & Hall & _ & Hexp).
  simpl in Hcalls. subst cs.
  intros Hout.
  assert (Hh : h' = h3 /\ calls = news /\
               forall r e, out = Ok (r, e) -> r = Plist /\ r0 = Ok e).
  { destruct r0 as [e|e]; injection Hout as <- <- <-;
      (split; [reflexivity|]; split; [reflexivity|]).
    - intros r e0 [= <- <-]. split; reflexivity.
    - discriminate. }
  destruct Hh as (-> & -> & Hok).
  split; [exact Hd|]. split; [exact Hlen|]. split; [exact Hoth|].
  split; [exact Hsame|]. split; [exact Hall|].
  intros r e Hre. destruct (Hok r e Hre) as [Hr Hr0].
  split; [exact Hr|]. specialize (Hexp e Hr0). lia.
Qed.

(** The same when torsion generators are added: the work is done in a new
    list and with a new, empty dict. *)
Lemma full_p_saturation_on_copy (fuel : nat) (h h' : heap Point)
    (Plist lin_combs : nat) (p : Z) (l : list Point)
    (out : res (nat * nat)) (calls : list (invocation Point)) :
  h_lists h !! Plist = Some l -> l <> [] ->
  added_torsion p <> [] ->
  full_p_saturation fuel h Plist p lin_combs = Some (out, h', calls) ->
  h_dicts h' = h_dicts h ++ [∅]
  /\ (forall i, (i < length (h_lists h))%nat -> h_lists h' !! i = h_lists h !! i)
  /\ Forall (fun iv => inv_dict iv = length (h_dicts h) /\ inv_cache iv = ∅
                       /\ length (inv_Plist iv)
                          = (length l + length (added_torsion p))%nat) calls
  /\ (forall r e, out = Ok (r, e) ->
        (length (h_lists h) <= r)%nat
        /\ (exists l', h_lists h' !! r = Some l' /\ length l' = length l)
        /\ length calls = S e).
Proof.
  intros Hl Hne Hex. unfold full_p_saturation. rewrite Hl. simpl.
  destruct (length l =? 0)%nat eqn:Hn;
    [apply Nat.eqb_eq in Hn; destruct l; [congruence | discriminate]|].
  destruct (add_torsion_spec torsion_gens h Plist (length l) p l Hl)
    as (h1 & Plist1 & Hadd & Hl1 & Hd1 & [lnews Hlnews] & _ & Hfresh).
  fold (added_torsion p) in Hadd, Hl1, Hfresh. specialize (Hfresh Hex).
  rewrite Hadd. simpl.
  assert (Hk : (length l + length (added_torsion p) - length l
                = length (added_torsion p))%nat) by lia.
  rewrite Hk.
  destruct (length (added_torsion p) =? 0)%nat eqn:Hk0.
  { apply Nat.eqb_eq in Hk0. destruct (added_torsion p); [congruence | discriminate]. }
  simpl.
  set (h2 := Heap (h_lists h1) (h_dicts h1 ++ [∅])).
  assert (Hc2 : h_dicts h2 !! length (h_dicts h1) = Some (∅ : cache Point)).
  { simpl. rewrite lookup_app_r by lia. rewrite Nat.sub_diag. reflexivity. }
  destruct (saturation_loop fuel h2 Plist1 p (length (h_dicts h1)) 0 [])
    as [[[r0 h3] cs]|] eqn:Hloop; simpl; [|discriminate].
  assert (Hl2 : h_lists h2 !! Plist1 = Some (l ++ added_torsion p)) by exact Hl1.
  destruct (saturation_loop_spec _ _ _ _ _ _ _ _ _ _ _ _ Hl2 Hc2 Hloop)
    as (Hd & Hlen & Hoth & (l3 & Hl3 & Hlen3) & news & Hcalls & Hall & _ & Hexp).
  simpl in Hcalls, Hd, Hlen, Hoth. subst cs.
  rewrite length_app in Hlen3.
  assert (Hold : forall i, (i < length (h_lists h))%nat ->
                           h_lists h3 !! i = h_lists h !! i).
  { intros i Hi. rewrite Hoth by lia. rewrite Hlnews.
    apply lookup_app_l. exact Hi. }
  assert (Hcalls' : Forall (fun iv => inv_dict iv = length (h_dicts h)
                              /\ inv_cache iv = ∅
                              /\ length (inv_Plist iv)
                                 = (length l + length (added_torsion p))%nat) news).
  { eapply Forall_impl; [exact Hall|]. simpl. intros iv (H5 & H6 & H7).
    rewrite length_app in H7. rewrite <- Hd1. auto. }
  destruct r0 as [e|e].
  - rewrite Hl3. simpl. intros [= <- <- <-]. simpl.
    split; [rewrite Hd, Hd1; reflexivity|].
    split.
    { intros i Hi. rewrite lookup_app_l.
      - apply Hold, Hi.
      - rewrite Hlen, Hlnews, length_app. lia. }
    split; [exact Hcalls'|].
    intros r e0 [= <- <-].
    split; [rewrite Hlen, Hlnews, length_app; lia|].
    split.
    + exists (take (length l) l3). rewrite lookup_app_r by lia.
      rewrite Nat.sub_diag. split; [reflexivity|]. rewrite length_take. lia.
    + specialize (Hexp e eq_refl). lia.
  - intros [= <- <- <-].
    split; [rewrite Hd, Hd1; reflexivity|].
    split; [exact Hold|]. split; [exact Hcalls'|]. discriminate.
Qed.
End FullSaturationProperties.

Section FullSaturationTheorems.
Context {Point Grp FPoint Fq : Type}
        `{CurveOps Point} `{ReductionOps Grp FPoint Fq}
        `{SieveOps Point Grp FPoint} `{LinAlgOps}.

Lemma saturation_loop_needs_dict (fuel : nat) (h : heap Point) (Plist : nat)
    (p : Z) (lin_combs exponent : nat) (calls : list (invocation Point)) :
  h_dicts h !! lin_combs = None ->
  saturation_loop fuel h Plist p lin_combs exponent calls = None.
Proof.
  intros Hc. destruct fuel as [|fuel]; [reflexivity|]. simpl.
  destruct (h_lists h !! Plist); simpl; [|reflexivity].
  rewrite Hc. reflexivity.
Qed.

(** X7.  The list that [full_p_saturation] hands back has as many points as
    the list it was given, whether torsion generators were added in between
    or not. *)
Theorem full_p_saturation_keeps_length (fuel : nat) (h h' : heap Point)
    (Plist lin_combs : nat) (p : Z) (l : list Point) (r e : nat)
    (calls : list (invocation Point)) :
  h_lists h !! Plist = Some l ->
  full_p_saturation fuel h Plist p lin_combs = Some (Ok (r, e), h', calls) ->
  exists l', h_lists h' !! r = Some l' /\ length l' = length l.
Proof.
  intros Hl Hrun. destruct l as [|P l].
  { unfold full_p_saturation in Hrun. rewrite Hl in Hrun. simpl in Hrun.
    injection Hrun as <- _ <- _. exists []. split; [exact Hl | reflexivity]. }
  destruct (added_torsion p) as [|T ex] eqn:Hex.
  - destruct (h_dicts h !! lin_combs) as [c|] eqn:Hc.
    + destruct (full_p_saturation_in_place fuel h h' Plist lin_combs p (P :: l) c
                  (Ok (r, e)) calls Hl ltac:(discriminate) Hc Hex Hrun)
        as (_ & _ & _ & Hsame & _ & Hok).
      destruct (Hok r e eq_refl) as [-> _]. exact Hsame.
    + exfalso. unfold full_p_saturation in Hrun. rewrite Hl in Hrun. simpl in Hrun.
      destruct (add_torsion_spec torsion_gens h Plist (S (length l)) p (P :: l) Hl)
        as (h1 & Plist1 & Hadd & _ & _ & _ & Hnil & _).
      fold (added_torsion p) in Hadd, Hnil. destruct (Hnil Hex) as [-> ->].
      rewrite Hex in Hadd. simpl in Hadd. rewrite Nat.add_0_r in Hadd.
      rewrite Hadd in Hrun. simpl in Hrun. rewrite Nat.sub_diag in Hrun.
      simpl in Hrun. rewrite saturation_loop_needs_dict in Hrun by exact Hc.
      discriminate.
  - destruct (full_p_saturation_on_copy fuel h h' Plist lin_combs p (P :: l)
                (Ok (r, e)) calls Hl ltac:(discriminate)) as (_ & _ & _ & Hok).
    + rewrite Hex. discriminate.
    + exact Hrun.
    + destruct (Hok r e eq_refl) as (_ & Hsame & _). exact Hsame.
Qed.

(** X8.  On a list that is not empty, the exponent that [full_p_saturation]
    answers is the number of replacements made: [p_saturation] was called
    once more than that, each time on the points together with the added
    torsion generators. *)
Theorem exponent_counts_replacements (fuel : nat) (h h' : heap Point)
    (Plist lin_combs : nat) (p : Z) (l : list Point) (c : cache Point)
    (r e : nat) (calls : list (invocation Point)) :
  h_lists h !! Plist = Some l -> l <> [] ->
  h_dicts h !! lin_combs = Some c ->
  full_p_saturation fuel h Plist p lin_combs = Some (Ok (r, e), h', calls) ->
  length calls = S e
  /\ Forall (fun iv => length (inv_Plist iv)
                       = (length l + length (added_torsion p))%nat) calls.
Proof.
  intros Hl Hne Hc Hrun. destruct (added_torsion p) as [|T ex] eqn:Hex.
  - destruct (full_p_saturation_in_place fuel h h' Plist lin_combs p l c
                (Ok (r, e)) calls Hl Hne Hc Hex Hrun) as (_ & _ & _ & _ & Hall & Hok).
    destruct (Hok r e eq_refl) as [_ Hn]. split; [exact Hn|].
    eapply Forall_impl; [exact Hall|]. simpl. intros iv (_ & _ & Hlen). lia.
  - destruct (full_p_saturation_on_copy fuel h h' Plist lin_combs p l
                (Ok (r, e)) calls Hl Hne) as (_ & _ & Hall & Hok).
    + rewrite Hex. discriminate.
    + exact Hrun.
    + destruct (Hok r e eq_refl) as (_ & _ & Hn). split; [exact Hn|].
      rewrite Hex in Hall.
      eapply Forall_impl; [exact Hall|]. simpl. intros iv (_ & _ & Hlen). exact Hlen.
Qed.

(** X9.  When a torsion generator has an order divisible by [p],
    [full_p_saturation] leaves every list that existed before the call as it
    was, the caller's included, whatever the outcome; and the list it hands
    back is a new object. *)
Theorem torsion_spares_existing_lists (fuel : nat) (h h' : heap Point)
    (Plist lin_combs : nat) (p : Z) (l : list Point)
    (out : res (nat * nat)) (calls : list (invocation Point)) :
  h_lists h !! Plist = Some l -> l <> [] ->
  added_torsion p <> [] ->
  full_p_saturation fuel h Plist p lin_combs = Some (out, h', calls) ->
  (forall i, (i < length (h_lists h))%nat -> h_lists h' !! i = h_lists h !! i)
  /\ (forall r e, out = Ok (r, e) -> (length (h_lists h) <= r)%nat /\ r <> Plist).
Proof.
  intros Hl Hne Hex Hrun.
  destruct (full_p_saturation_on_copy fuel h h' Plist lin_combs p l
              out calls Hl Hne Hex Hrun) as (_ & Hold & _ & Hok).
  split; [exact Hold|]. intros r e Hout.
  destruct (Hok r e Hout) as (Hfresh & _ & _).
  apply lookup_lt_Some in Hl. split; [exact Hfresh | lia].
Qed.

(** X10.  [full_p_saturation] writes into no dict: whatever the outcome,
    every dict that existed before the call holds what it held, the dict
    passed in and the two default dicts included.  The calls of
    [p_saturation] all get the dict passed in, with its content, when no
    torsion generator is added, and all get one new, empty dict
    otherwise. *)
Theorem full_p_saturation_writes_no_dict (fuel : nat) (h h' : heap Point)
    (Plist lin_combs : nat) (p : Z) (l : list Point) (c : cache Point)
    (out : res (nat * nat)) (calls : list (invocation Point)) :
  h_lists h !! Plist = Some l -> l <> [] ->
  h_dicts h !! lin_combs = Some c ->
  full_p_saturation fuel h Plist p lin_combs = Some (out, h', calls) ->
  (forall i, (i < length (h_dicts h))%nat -> h_dicts h' !! i = h_dicts h !! i)
  /\ (added_torsion p = [] ->
      Forall (fun iv => inv_dict iv = lin_combs /\ inv_cache iv = c) calls)
  /\ (added_torsion p <> [] ->
      Forall (fun iv => inv_dict iv = length (h_dicts h) /\ inv_cache iv = ∅) calls).
Proof.
  intros Hl Hne Hc Hrun. destruct (added_torsion p) as [|T ex] eqn:Hex.
  - destruct (full_p_saturation_in_place fuel h h' Plist lin_combs p l c
                out calls Hl Hne Hc Hex Hrun) as (Hd & _ & _ & _ & Hall & _).
    split; [intros i _; rewrite Hd; reflexivity|].
    split; [|congruence]. intros _.
    eapply Forall_impl; [exact Hall|]. simpl. intros iv (H5 & H6 & _). auto.
  - destruct (full_p_saturation_on_copy fuel h h' Plist lin_combs p l
                out calls Hl Hne) as (Hd & _ & Hall & _).
    + rewrite Hex. discriminate.
    + exact Hrun.
    + split; [intros i Hi; rewrite Hd; apply lookup_app_l, Hi|].
      split; [discriminate|]. intros _.
      eapply Forall_impl; [exact Hall|]. simpl. intros iv (H5 & H6 & _). auto.
Qed.

Lemma p_saturation_sieve_any_cache (fuel : nat) (L : list Point) (p : Z)
    (c : cache Point) (r : res (verdict Point)) :
  p_saturation fuel L p true ∅ = Some (r, ∅) ->
  p_saturation fuel L p true c = Some (r, c).
Proof.
  unfold p_saturation. destruct (p_saturation_head L p); [intros [= <-]; reflexivity|].
  simpl. destruct (sieve_search fuel L p); simpl; [|discriminate].
  intros [= <-]. reflexivity.
Qed.

(** X11.  If the sieve finds the points, together with the added torsion
    generators, [p]-saturated at once, [full_p_saturation] hands back the
    points it was given, with exponent 0, after one call of [p_saturation];
    the caller's list is as it was. *)
Theorem saturated_input_is_returned (fuel : nat) (h : heap Point)
    (Plist lin_combs : nat) (p : Z) (l : list Point) (c : cache Point) :
  h_lists h !! Plist = Some l -> l <> [] ->
  h_dicts h !! lin_combs = Some c ->
  p_saturation fuel (l ++ added_torsion p) p true ∅ = Some (Ok Saturated, ∅) ->
  exists r h' call,
    full_p_saturation (S fuel) h Plist p lin_combs = Some (Ok (r, 0%nat), h', [call])
    /\ h_lists h' !! r = Some l
    /\ h_lists h' !! Plist = Some l.
Proof.
  intros Hl Hne Hc Hsat. unfold full_p_saturation. rewrite Hl. simpl.
  destruct (length l =? 0)%nat eqn:Hn;
    [apply Nat.eqb_eq in Hn; destruct l; [congruence | discriminate]|].
  destruct (add_torsion_spec torsion_gens h Plist (length l) p l Hl)
    as (h1 & Plist1 & Hadd & Hl1 & Hd1 & [lnews Hlnews] & Hnil & Hfresh).
  fold (added_torsion p) in Hadd, Hl1, Hnil, Hfresh. rewrite Hadd. simpl.
  replace (length l + length (added_torsion p) - length l)%nat
    with (length (added_torsion p)) by lia.
  assert (Hold : h_lists h1 !! Plist = Some l).
  { rewrite Hlnews. rewrite lookup_app_l by (eapply lookup_lt_Some, Hl). exact Hl. }
  destruct (added_torsion p) as [|T ex] eqn:Hex.
  - destruct (Hnil eq_refl) as [-> ->]. simpl.
    rewrite app_nil_r in Hsat. rewrite Hl, Hc. simpl.
    unfold p_saturation_ref. rewrite Hl, Hc. simpl.
    rewrite (p_saturation_sieve_any_cache fuel l p c _ Hsat). simpl.
    eexists _, _, _. split; [reflexivity|].
    unfold store_dict. simpl. split; exact Hl.
  - simpl. rewrite Hl1. simpl.
    rewrite lookup_app_r by lia. rewrite Nat.sub_diag. simpl.
    unfold p_saturation_ref. simpl. rewrite Hl1. simpl.
    rewrite lookup_app_r by lia. rewrite Nat.sub_diag. simpl.
    rewrite Hsat. simpl.
    rewrite list_insert_id
      by (rewrite lookup_app_r by lia; rewrite Nat.sub_diag; reflexivity).
    rewrite Hl1. simpl.
    eexists _, _, _. split; [reflexivity|]. simpl.
    split.
    + rewrite lookup_app_r by lia. rewrite Nat.sub_diag. simpl.
      rewrite take_app_length. reflexivity.
    + rewrite lookup_app_l by (eapply lookup_lt_Some, Hold). exact Hold.
Qed.
End FullSaturationTheorems.

(** Witness of [full_p_saturation_keeps_length]: [[2P]] on [Z x Z/2] at
    [p = 2], where a torsion generator is added. *)
Lemma full_p_saturation_keeps_length_witness :
  exists h' calls,
    Run.full_p_saturation_tors 40 (caller_heap [[(2, 0)%Z]] []) 0 2
                               default_lin_combs_full_p_saturation
    = Some (Ok (2%nat, 1%nat), h', calls)
    /\ exists l', h_lists h' !! 2%nat = Some l' /\ length l' = 1%nat.
Proof.
  eexists _, _. split; [vm_compute; reflexivity|].
  refine (@full_p_saturation_keeps_length Lattice.point Lattice.grp Lattice.fpoint Z
           (Lattice.curve 2) (Lattice.reduction 3 2) (Lattice.sieve 2) Gauss.ops
           40%nat (caller_heap [[(2, 0)%Z]] []) _ 0%nat
           default_lin_combs_full_p_saturation 2%Z [(2, 0)%Z] 2%nat 1%nat _
           eq_refl _).
  vm_compute; reflexivity.
Defined.

(** Witness of [exponent_counts_replacements]: [[8P]] on [Z x Z] at [p = 2],
    three replacements and four calls. *)
Lemma exponent_counts_replacements_witness :
  exists h' calls,
    Run.full_p_saturation_free 10 (caller_heap [[(8, 0)%Z]] []) 0 2
                               default_lin_combs_full_p_saturation
    = Some (Ok (0%nat, 3%nat), h', calls)
    /\ length calls = 4%nat
    /\ Forall (fun iv => length (inv_Plist iv) = 1%nat) calls.
Proof.
  eexists _, _. split; [vm_compute; reflexivity|].
  refine (@exponent_counts_replacements Lattice.point Lattice.grp Lattice.fpoint Z
           (Lattice.curve 0) (Lattice.reduction 2 1) (Lattice.sieve 0) Gauss.ops
           10%nat (caller_heap [[(8, 0)%Z]] []) _ 0%nat
           default_lin_combs_full_p_saturation 2%Z [(8, 0)%Z] ∅ 0%nat 3%nat _
           eq_refl ltac:(discriminate) eq_refl _).
  vm_compute; reflexivity.
Defined.

(** Witness of [torsion_spares_existing_lists]: two lists in the store, the
    first of them passed, on [Z x Z/2] at [p = 2]. *)
Lemma torsion_spares_existing_lists_witness :
  exists h' calls,
    Run.full_p_saturation_tors 40 (caller_heap [[(2, 0)%Z]; [(5, 1)%Z]] []) 0 2
                               default_lin_combs_full_p_saturation
    = Some (Ok (3%nat, 1%nat), h', calls)
    /\ (forall i, (i < 2)%nat ->
        h_lists h' !! i = [[(2, 0)%Z]; [(5, 1)%Z]] !! i)
    /\ (forall r e, @Ok (nat * nat) (3%nat, 1%nat) = Ok (r, e) ->
        (2 <= r)%nat /\ r <> 0%nat).
Proof.
  eexists _, _. split; [vm_compute; reflexivity|].
  refine (@torsion_spares_existing_lists Lattice.point Lattice.grp Lattice.fpoint Z
           (Lattice.curve 2) (Lattice.reduction 3 2) (Lattice.sieve 2) Gauss.ops
           40%nat (caller_heap [[(2, 0)%Z]; [(5, 1)%Z]] []) _ 0%nat
           default_lin_combs_full_p_saturation 2%Z [(2, 0)%Z] _ _
           eq_refl ltac:(discriminate) ltac:(discriminate) _).
  vm_compute; reflexivity.
Defined.

(** Witness of [full_p_saturation_writes_no_dict]: a dict with one entry
    passed on [Z x Z/2] at [p = 2]; the calls get the new dict, object 3. *)
Lemma full_p_saturation_writes_no_dict_witness :
  exists h' calls,
    Run.full_p_saturation_tors 40
      (caller_heap [[(2, 0)%Z]] [{[ [1%Z] := (2, 0)%Z ]}]) 0 2 2
    = Some (Ok (2%nat, 1%nat), h', calls)
    /\ (forall i, (i < 3)%nat ->
        h_dicts h' !! i = [∅; ∅; {[ [1%Z] := (2, 0)%Z ]}] !! i)
    /\ Forall (fun iv => inv_dict iv = 3%nat /\ inv_cache iv = ∅) calls.
Proof.
  eexists _, _. split; [vm_compute; reflexivity|].
  destruct (@full_p_saturation_writes_no_dict Lattice.point Lattice.grp Lattice.fpoint Z
           (Lattice.curve 2) (Lattice.reduction 3 2) (Lattice.sieve 2) Gauss.ops
           40%nat (caller_heap [[(2, 0)%Z]] [{[ [1%Z] := (2, 0)%Z ]}]) _ 0%nat
           2%nat 2%Z [(2, 0)%Z] {[ [1%Z] := (2, 0)%Z ]} _ _
           eq_refl ltac:(discriminate) eq_refl ltac:(vm_compute; reflexivity))
    as (Hd & _ & Hc).
  split; [exact Hd | apply Hc; discriminate].
Defined.

(** Witness of [saturated_input_is_returned]: the two generators of [Z x Z]
    at [p = 3]. *)
Lemma saturated_input_is_returned_witness :
  exists r h' call,
    Run.full_p_saturation_free 21
      (caller_heap [[(1, 0)%Z; (0, 1)%Z]] []) 0 3
      default_lin_combs_full_p_saturation
    = Some (Ok (r, 0%nat), h', [call])
    /\ h_lists h' !! r = Some [(1, 0)%Z; (0, 1)%Z]
    /\ h_lists h' !! 0%nat = Some [(1, 0)%Z; (0, 1)%Z].
Proof.
  refine (@saturated_input_is_returned Lattice.point Lattice.grp Lattice.fpoint Z
           (Lattice.curve 0) (Lattice.reduction 2 1) (Lattice.sieve 0) Gauss.ops
           20%nat (caller_heap [[(1, 0)%Z; (0, 1)%Z]] []) 0%nat
           default_lin_combs_full_p_saturation 3%Z [(1, 0)%Z; (0, 1)%Z] ∅
           eq_refl ltac:(discriminate) eq_refl _).
  vm_compute; reflexivity.
Defined.

Section LastCall.
Context {Point Grp FPoint Fq : Type}
        `{CurveOps Point} `{ReductionOps Grp FPoint Fq}
        `{SieveOps Point Grp FPoint} `{LinAlgOps}.

(** The loop of replacements is left, without an exception, after a call of
    [p_saturation] that answers [True] on the list as it is then. *)
Lemma saturation_loop_final (fuel : nat) (h h' : heap Point) (Plist : nat) (p : Z)
    (lin_combs exponent e : nat) (calls calls' : list (invocation Point))
    (l : list Point) (c : cache Point) :
  h_lists h !! Plist = Some l ->
  h_dicts h !! lin_combs = Some c ->
  saturation_loop fuel h Plist p lin_combs exponent calls = Some (Ok e, h', calls') ->
  exists work fuel',
    h_lists h' !! Plist = Some work
    /\ last calls' = Some (Invocation work lin_combs c)
    /\ p_saturation fuel' work p true c = Some (Ok Saturated, c).
Proof.
  revert h exponent calls l. induction fuel as [|fuel IH];
    intros h exponent calls l Hl Hc; simpl; [discriminate|].
  rewrite Hl, Hc. simpl.
  destruct (p_saturation_ref fuel h Plist p true lin_combs) as [[r0 h0]|] eqn:Href;
    simpl; [|discriminate].
  pose proof (p_saturation_ref_sieve_keeps_heap _ _ _ _ _ _ _ Href) as ->.
  unfold p_saturation_ref in Href. rewrite Hl, Hc in Href. simpl in Href.
  destruct (p_saturation fuel l p true c) as [[r1 c1]|] eqn:Hrun; simpl in Href;
    [|discriminate].
  pose proof (p_saturation_sieve_keeps_cache _ _ _ _ _ _ Hrun) as ->.
  injection Href as -> _.
  destruct r0 as [[|i newP]|e0].
  - intros [= <- <- <-]. exists l, fuel.
    split; [exact Hl|]. split; [apply last_snoc | exact Hrun].
  - rewrite Hl. simpl.
    destruct (py_setitem l (Z.of_nat i) newP) as [l2|e0] eqn:Hset; [|discriminate].
    intros Hloop.
    apply (IH (store_list h Plist l2) (S exponent)
              (calls ++ [Invocation l lin_combs c]) l2); [|exact Hc|exact Hloop].
    simpl. apply list_lookup_insert_eq. eapply lookup_lt_Some, Hl.
  - discriminate.
Qed.

(** X15.  When [full_p_saturation] returns, on a list of [n] points that is
    not empty, its last call of [p_saturation] answered [True], and the
    points handed back are the first [n] points of the list of that call. *)
Theorem full_p_saturation_ends_on_success (fuel : nat) (h h' : heap Point)
    (Plist lin_combs : nat) (p : Z) (l : list Point) (c : cache Point)
    (r e : nat) (calls : list (invocation Point)) :
  h_lists h !! Plist = Some l -> l <> [] ->
  h_dicts h !! lin_combs = Some c ->
  full_p_saturation fuel h Plist p lin_combs = Some (Ok (r, e), h', calls) ->
  exists work fuel' d c0,
    last calls = Some (Invocation work d c0)
    /\ p_saturation fuel' work p true c0 = Some (Ok Saturated, c0)
    /\ h_lists h' !! r = Some (take (length l) work).
Proof.
  intros Hl Hne Hc. unfold full_p_saturation. rewrite Hl. simpl.
  destruct (length l =? 0)%nat eqn:Hn;
    [apply Nat.eqb_eq in Hn; destruct l; [congruence | discriminate]|].
  destruct (add_torsion_spec torsion_gens h Plist (length l) p l Hl)
    as (h1 & Plist1 & Hadd & Hl1 & Hd1 & _ & Hnil & _).
  fold (added_torsion p) in Hadd, Hl1, Hnil.
  rewrite Hadd. simpl.
  replace (length l + length (added_torsion p) - length l)%nat
    with (length (added_torsion p)) by lia.
  destruct (length (added_torsion p) =? 0)%nat eqn:Hk0.
  - apply Nat.eqb_eq, length_zero_iff_nil in Hk0.
    destruct (Hnil Hk0) as [-> ->]. rewrite Hk0, app_nil_r in Hl1.
    destruct (saturation_loop fuel h Plist p lin_combs 0 [])
      as [[[[e0|e0] h3] cs]|] eqn:Hloop; simpl; try discriminate.
    intros [= <- <- <- <-].
    destruct (saturation_loop_final _ _ _ _ _ _ _ _ _ _ _ _ Hl Hc Hloop)
      as (work & fuel' & Hwork & Hlast & Hsat).
    destruct (saturation_loop_spec _ _ _ _ _ _ _ _ _ _ _ _ Hl Hc Hloop)
      as (_ & _ & _ & (l' & Hl' & Hlen) & _).
    exists work, fuel', lin_combs, c.
    split; [exact Hlast|]. split; [exact Hsat|].
    rewrite Hwork. f_equal. symmetry. apply take_ge.
    rewrite Hwork in Hl'. injection Hl' as <-. lia.
  - simpl.
    set (h2 := Heap (h_lists h1) (h_dicts h1 ++ [∅])).
    assert (Hc2 : h_dicts h2 !! length (h_dicts h1) = Some (∅ : cache Point)).
    { simpl. rewrite lookup_app_r by lia. rewrite Nat.sub_diag. reflexivity. }
    assert (Hl2 : h_lists h2 !! Plist1 = Some (l ++ added_torsion p)) by exact Hl1.
    destruct (saturation_loop fuel h2 Plist1 p (length (h_dicts h1)) 0 [])
      as [[[[e0|e0] h3] cs]|] eqn:Hloop; simpl; try discriminate.
    destruct (saturation_loop_final _ _ _ _ _ _ _ _ _ _ _ _ Hl2 Hc2 Hloop)
      as (work & fuel' & Hwork & Hlast & Hsat).
    rewrite Hwork. simpl. intros [= <- <- <- <-].
    exists work, fuel', (length (h_dicts h1)), ∅.
    split; [exact Hlast|]. split; [exact Hsat|].
    simpl. rewrite lookup_app_r by lia. rewrite Nat.sub_diag. reflexivity.
Qed.
End LastCall.

(** Witness of [full_p_saturation_ends_on_success]: [[2P]] on [Z x Z/2] at
    [p = 2]. *)
Lemma full_p_saturation_ends_on_success_witness :
  exists h' calls,
    Run.full_p_saturation_tors 40 (caller_heap [[(2, 0)%Z]] []) 0 2
                               default_lin_combs_full_p_saturation
    = Some (Ok (2%nat, 1%nat), h', calls)
    /\ exists work fuel' d c0,
         last calls = Some (Invocation work d c0)
         /\ Run.p_saturation_tors fuel' work 2 true c0 = Some (Ok Saturated, c0)
         /\ h_lists h' !! 2%nat = Some (take 1 work).
Proof.
  eexists _, _. split; [vm_compute; reflexivity|].
  refine (@full_p_saturation_ends_on_success Lattice.point Lattice.grp Lattice.fpoint Z
            (Lattice.curve 2) (Lattice.reduction 3 2) (Lattice.sieve 2) Gauss.ops
            40%nat (caller_heap [[(2, 0)%Z]] []) _ 0%nat
            default_lin_combs_full_p_saturation 2%Z [(2, 0)%Z] ∅ 2%nat 1%nat _
            eq_refl ltac:(discriminate) eq_refl _).
  vm_compute; reflexivity.
Defined.
